(** * ESDE-SD-Sync: a shallow embedding of [sync_esde_sd.py]

    The development follows the layout of the script: text helpers
    (the [str] methods and [pathlib] accessors the script calls), the two
    filename normalizers, the media index, category inference, the copy
    primitive, the per-system reconciliation pass, audit mode, and the
    setup and run loop of [main].  Loop bodies are separate definitions,
    named after the loop they belong to.

    Modelling conventions.
    - Text is a list of 8-bit characters, the UTF-8 bytes of a Python
      [str].  Case mapping, white space and the regular-expression classes
      are Python's for ASCII text.  Bytes above 127 are left as they are by
      [lower] and are neither white space nor word characters, where Python
      also maps the letters outside ASCII and knows white space outside
      ASCII; statements that depend on the case of letters are therefore
      made for ASCII letters.
    - [pathlib.Path] is read with POSIX rules (the script replaces every
      backslash by a slash before it builds a path from catalog text);
      [stem] is the one of Python 3.13 and earlier.
    - The master tree (read only) and the device's ES-DE tree (written) are
      separate components of the model; path comparison is exact.
    - [ET.parse] either raises [ParseError] or gives the tree; of an element
      only tag, text and children are kept.  [shutil.copy2] is taken by its
      documented effect.  Other library calls are assumed not to fail.
    - Printing is kept for the lines the statements need (structured, not
      formatted); the CSV export and the closest-name suggestions of audit
      mode, which only report, are left out. *)

From Stdlib Require Import List Bool Arith NArith Lia.
From Stdlib Require Import Strings.Ascii Strings.String.
Import ListNotations.

Set Implicit Arguments.
Set Warnings "-register-all".

(** ** Text *)

Module Text.

Definition str := list ascii.

(** String literals of the script are written [lit "..."]. *)
Definition lit (s : string) : str := list_ascii_of_string s.

Definition code (c : ascii) : N := N_of_ascii c.

Definition in_range (lo hi : N) (c : ascii) : bool :=
  (N.leb lo (code c)) && (N.leb (code c) hi).

Definition is_upper (c : ascii) : bool := in_range 65 90 c.
Definition is_lower (c : ascii) : bool := in_range 97 122 c.
Definition is_digit (c : ascii) : bool := in_range 48 57 c.

(** [str.isspace] / the regex class [\s] on the ASCII range:
    TAB, LF, VT, FF, CR, FS, GS, RS, US and SPACE. *)
Definition is_space (c : ascii) : bool :=
  in_range 9 13 c || in_range 28 32 c.

Definition to_lower (c : ascii) : ascii :=
  if is_upper c then ascii_of_N (code c + 32) else c.

Definition to_upper (c : ascii) : ascii :=
  if is_lower c then ascii_of_N (code c - 32) else c.

(** [s.lower()], for the ASCII letters of [s]: the other bytes stay. *)
Definition lower (s : str) : str := map to_lower s.

Definition space : ascii := " "%char.
Definition slash : ascii := "/"%char.
Definition backslash : ascii := "\"%char.
Definition dot : ascii := "."%char.

Fixpoint str_eqb (a b : str) : bool :=
  match a, b with
  | [], [] => true
  | x :: a', y :: b' => Ascii.eqb x y && str_eqb a' b'
  | _, _ => false
  end.

(** [x in l] for a list (or set) of strings. *)
Definition mem (x : str) (l : list str) : bool := existsb (str_eqb x) l.

(** [s.lstrip()], [s.rstrip()], [s.strip()] *)
Fixpoint lstrip (s : str) : str :=
  match s with
  | [] => []
  | c :: t => if is_space c then lstrip t else s
  end.

Fixpoint rstrip (s : str) : str :=
  match s with
  | [] => []
  | c :: t =>
      match rstrip t with
      | [] => if is_space c then [] else [c]
      | t' => c :: t'
      end
  end.

Definition strip (s : str) : str := rstrip (lstrip s).

(** [s.replace("\\", "/")] *)
Definition replace_backslash (s : str) : str :=
  map (fun c => if Ascii.eqb c backslash then slash else c) s.

(** [s.split(sep)] for a one-character separator. *)
Fixpoint split (sep : ascii) (s : str) : list str :=
  match s with
  | [] => [[]]
  | c :: t =>
      if Ascii.eqb c sep then [] :: split sep t
      else match split sep t with
           | h :: r => (c :: h) :: r
           | [] => [[c]]
           end
  end.

(** [s.startswith(p)] *)
Fixpoint startswith (p s : str) : bool :=
  match p, s with
  | [], _ => true
  | x :: p', y :: s' => Ascii.eqb x y && startswith p' s'
  | _ :: _, [] => false
  end.

(** [sub in s] for strings. *)
Fixpoint contains (sub s : str) : bool :=
  startswith sub s ||
  match s with
  | [] => false
  | _ :: t => contains sub t
  end.

(** [re.sub(r"[class]+", " ", s)]: every maximal run of characters of the
    class becomes one space.  [in_run] tells that the previous character
    belonged to the run being replaced. *)
Fixpoint sub_runs (cls : ascii -> bool) (in_run : bool) (s : str) : str :=
  match s with
  | [] => []
  | c :: t =>
      if cls c then
        if in_run then sub_runs cls true t
        else space :: sub_runs cls true t
      else c :: sub_runs cls false t
  end.

(** [s.rfind(".")]: position of the last dot. *)
Fixpoint rfind_dot (s : str) : option nat :=
  match s with
  | [] => None
  | c :: t =>
      match rfind_dot t with
      | Some i => Some (S i)
      | None => if Ascii.eqb c dot then Some 0 else None
      end
  end.

(** [Path(p).name]: the last path component; empty and ["."] components
    are dropped by [pathlib] when it parses [p]. *)
Definition path_parts (p : str) : list str :=
  filter (fun seg => negb (str_eqb seg []) && negb (str_eqb seg [dot]))
         (split slash p).

Definition path_name (p : str) : str := last (path_parts p) [].

(** [PurePath.stem] of a file name: the name up to its last dot, unless
    that dot is the first or the last character. *)
Definition name_stem (name : str) : str :=
  match rfind_dot name with
  | Some i =>
      if (Nat.ltb 0 i) && (Nat.ltb i (List.length name - 1)) then firstn i name
      else name
  | None => name
  end.

Definition path_stem (p : str) : str := name_stem (path_name p).

End Text.

Import Text.

(** ** Filename normalizers *)

(** [normalize_rom_filename_from_xml] *)
Definition normalize_rom_filename_from_xml (path_text : str) : str :=
  let p := replace_backslash (strip path_text) in
  let p := if startswith (lit "./") p then skipn 2 p else p in
  lower (path_name p).

(** The class [[^a-z0-9\s]] of the first substitution. *)
Definition not_word_or_space (c : ascii) : bool :=
  negb (is_lower c || is_digit c || is_space c).

(** [normalize_stem_loose] *)
Definition normalize_stem_loose (stem : str) : str :=
  let s := lower stem in
  let s := sub_runs not_word_or_space false s in
  let s := strip (sub_runs is_space false s) in
  s.


(** ** Exceptions *)

Inductive exn :=
| ParseError                       (* xml.etree.ElementTree.ParseError *)
| OSError                          (* raised by a failing file operation *)
| SystemExitMissingFolder (folder : str)
| SystemExitInvalidCategories (invalid : list str).

Inductive outcome (A : Type) :=
| Ok (a : A)
| Raise (e : exn).

Arguments Ok {A} a.
Arguments Raise {A} e.

Definition bind {A B} (m : outcome A) (k : A -> outcome B) : outcome B :=
  match m with
  | Ok a => k a
  | Raise e => Raise e
  end.

Notation "x <- m ;; k" := (bind m (fun x => k))
  (at level 61, m at next level, right associativity).

(** A [for] loop whose body may raise: the first exception ends the loop. *)
Fixpoint for_each {A S} (body : S -> A -> outcome S) (xs : list A) (s : S)
  : outcome S :=
  match xs with
  | [] => Ok s
  | x :: rest => s' <- body s x ;; for_each body rest s'
  end.

(** ** Dictionaries (insertion ordered, as Python's [dict]) *)

Definition dict (V : Type) := list (str * V).

Fixpoint dict_get {V} (k : str) (d : dict V) : option V :=
  match d with
  | [] => None
  | (k', v) :: r => if str_eqb k' k then Some v else dict_get k r
  end.

(** [d[k] = v] *)
Fixpoint dict_set {V} (k : str) (v : V) (d : dict V) : dict V :=
  match d with
  | [] => [(k, v)]
  | (k', v') :: r =>
      if str_eqb k' k then (k', v) :: r else (k', v') :: dict_set k v r
  end.

(** [d.setdefault(k, []).append(x)] *)
Fixpoint dict_append {V} (k : str) (x : V) (d : dict (list V)) : dict (list V) :=
  match d with
  | [] => [(k, [x])]
  | (k', xs) :: r =>
      if str_eqb k' k then (k', xs ++ [x]) :: r
      else (k', xs) :: dict_append k x r
  end.

(** [d.get(k, [])] and [d.get(k, {})] *)
Definition dict_get_or_empty {V} (k : str) (d : dict (list V)) : list V :=
  match dict_get k d with
  | Some v => v
  | None => []
  end.

(** [k in d] *)
Definition dict_has {V} (k : str) (d : dict V) : bool :=
  match dict_get k d with
  | Some _ => true
  | None => false
  end.

(** ** Sets of strings and [sorted] *)

(** A [set[str]] is kept as a duplicate-free list. *)
Definition set_add (x : str) (s : list str) : list str :=
  if mem x s then s else s ++ [x].

Definition set_of_list (l : list str) : list str :=
  fold_left (fun s x => set_add x s) l [].

Fixpoint str_leb (a b : str) : bool :=
  match a, b with
  | [], _ => true
  | _ :: _, [] => false
  | x :: a', y :: b' =>
      if N.ltb (code x) (code y) then true
      else if N.ltb (code y) (code x) then false
      else str_leb a' b'
  end.

Fixpoint insert_sorted (x : str) (l : list str) : list str :=
  match l with
  | [] => [x]
  | y :: r => if str_leb x y then x :: l else y :: insert_sorted x r
  end.

(** [sorted(l)] *)
Definition sorted (l : list str) : list str := fold_right insert_sorted [] l.

(** ** Catalog documents ([xml.etree.ElementTree]) *)

Inductive element :=
| Element (tag : str) (text : option str) (children : list element).

Definition tag (e : element) : str := let 'Element t _ _ := e in t.
Definition text (e : element) : option str := let 'Element _ x _ := e in x.
Definition children (e : element) : list element := let 'Element _ _ c := e in c.

(** [e.find(t)]: the first direct child with tag [t]. *)
Definition find_child (t : str) (e : element) : option element :=
  find (fun c => str_eqb (tag c) t) (children e).

(** [e.findall(t)]: the direct children with tag [t], in document order. *)
Definition findall (t : str) (e : element) : list element :=
  filter (fun c => str_eqb (tag c) t) (children e).

(** What [ET.parse] finds in a catalog file. *)
Inductive xml_file :=
| Malformed
| WellFormed (root : element).

(** ** Files and directory trees *)

Record file := {
  f_data : str;
  f_mtime : nat;
  f_stat_ok : bool       (* [false]: [stat()] on the file raises [OSError] *)
}.

Inductive entry :=
| FileEntry (name : str) (f : file)
| DirEntry (name : str) (kids : list entry).

Definition entry_name (e : entry) : str :=
  match e with
  | FileEntry n _ => n
  | DirEntry n _ => n
  end.

Definition is_file (e : entry) : bool :=
  match e with
  | FileEntry _ _ => true
  | DirEntry _ _ => false
  end.

(** [st_size], or the [OSError] of a failing [stat()]. *)
Definition stat_size (f : file) : option nat :=
  if f_stat_ok f then Some (List.length (f_data f)) else None.

(** [d.rglob("*")] for the directory whose listing is [es]: every entry
    below it, at any depth. *)
Fixpoint rglob_entry (e : entry) : list entry :=
  match e with
  | FileEntry _ _ => [e]
  | DirEntry _ kids => e :: flat_map rglob_entry kids
  end.

Definition rglob (es : list entry) : list entry := flat_map rglob_entry es.

(** A file of the master media tree, as the index holds it: its name inside
    the category directory and the file itself. *)
Definition media_file := (str * file)%type.

(** A media path [.../downloaded_media/<system>/<category>/<name>]. *)
Definition media_path := (str * str * str)%type.

Definition media_path_eqb (a b : media_path) : bool :=
  let '(s1, c1, n1) := a in
  let '(s2, c2, n2) := b in
  str_eqb s1 s2 && str_eqb c1 c2 && str_eqb n1 n2.

(** The read-only inputs of a run. *)
Record world := {
  (* <nas>/gamelists/<system>/gamelist.xml; [None]: no such file *)
  nas_gamelist : str -> option xml_file;
  (* listing of <nas>/downloaded_media/<system>/<category>; [None]: absent *)
  nas_media_dir : str -> str -> option (list entry);
  (* listing of <sd>/ROMs; [None]: absent *)
  sd_roms : option (list entry);
  (* whether <sd>/ES-DE exists *)
  sd_esde_exists : bool;
  (* the [datetime.now()] stamp used when the gamelist of a system is backed up *)
  backup_stamp : str -> str
}.

(** [<sd>/ROMs/<system>]: its listing when it exists. *)
Definition sd_rom_dir (w : world) (system : str) : option (list entry) :=
  match sd_roms w with
  | None => None
  | Some es =>
      match find (fun e => str_eqb (entry_name e) system) es with
      | Some (DirEntry _ kids) => Some kids
      | Some (FileEntry _ _) => Some []
      | None => None
      end
  end.

(** The part of the device the run writes: the tree under [<sd>/ES-DE]. *)
Record sd_state := {
  sd_dirs : list (list str);                (* directories created *)
  sd_media : list (media_path * file);      (* downloaded_media/<system>/<category>/<name> *)
  sd_gamelists : list (str * element);      (* gamelists/<system>/gamelist.xml *)
  sd_backups : list ((str * str) * element) (* gamelists/<system>/gamelist.xml.bak-<stamp> *)
}.

Fixpoint media_get (k : media_path) (m : list (media_path * file)) : option file :=
  match m with
  | [] => None
  | (k', f) :: r => if media_path_eqb k' k then Some f else media_get k r
  end.

Fixpoint media_put (k : media_path) (f : file) (m : list (media_path * file))
  : list (media_path * file) :=
  match m with
  | [] => [(k, f)]
  | (k', f') :: r =>
      if media_path_eqb k' k then (k', f) :: r else (k', f') :: media_put k f r
  end.

(** Lines the script prints, kept structured. *)
Inductive message :=
| WarnMissingGamelist (system : str)
| InfoNoRoms (system : str)
| DryBackup (system stamp : str)
| DryCopy (src dst : media_path)
| DryWriteGamelist (system : str) (kept : nat)
| Report (system rom_filename : str) (expected_from_xml : bool)
         (matched missed : list str)
| InfoZeroKept (system : str)
| OkSystem (system : str) (kept copied_so_far : nat).

(** Everything a run can change outside its own variables. *)
Record effects := {
  fs : sd_state;
  stdout : list message
}.

Definition print (m : message) (e : effects) : effects :=
  {| fs := fs e; stdout := stdout e ++ [m] |}.

Definition with_fs (f : sd_state -> sd_state) (e : effects) : effects :=
  {| fs := f (fs e); stdout := stdout e |}.

(** ** Scanning the device and the master media tree *)

(** [iter_rom_files] *)
Definition iter_rom_files (rom_dir : option (list entry)) : list str :=
  match rom_dir with
  | None => []
  | Some es =>
      set_of_list (map (fun p => lower (entry_name p)) (filter is_file (rglob es)))
  end.

Definition media_index := dict (list media_file).

(** Body of [for f in category_dir.iterdir(): ...] *)
Definition index_file (fuzzy : bool) (acc : media_index * media_index * nat)
  (f : entry) : media_index * media_index * nat :=
  let '(exact_idx, norm_idx, total_files) := acc in
  match f with
  | DirEntry _ _ => acc
  | FileEntry name content =>
      let key := lower (name_stem name) in
      let exact_idx := dict_append key (name, content) exact_idx in
      let norm_idx :=
        if fuzzy
        then dict_append (normalize_stem_loose (name_stem name))
                         (name, content) norm_idx
        else norm_idx in
      (exact_idx, norm_idx, S total_files)
  end.

(** [build_media_index] *)
Definition build_media_index (category_dir : option (list entry)) (fuzzy : bool)
  : media_index * media_index * nat :=
  match category_dir with
  | None => ([], [], 0)
  | Some listing => fold_left (index_file fuzzy) listing ([], [], 0)
  end.

(** ** Category inference *)

Definition MEDIA_CATEGORIES_ALL : list str :=
  map lit
    [ "3dboxes"; "backcovers"; "covers"; "custom"; "fanart"; "manuals";
      "marquees"; "miximages"; "physicalmedia"; "screenshots";
      "titlescreens"; "videos" ]%string.

(** [l.index(x)] when [x in l]. *)
Fixpoint index_of (x : str) (l : list str) : nat :=
  match l with
  | [] => 0
  | y :: r => if str_eqb y x then 0 else S (index_of x r)
  end.

(** [cat if cat in MEDIA_CATEGORIES_ALL else None] *)
Definition known_or_none (cat : str) : option str :=
  if mem cat MEDIA_CATEGORIES_ALL then Some cat else None.

(** The segments [parse_category_from_media_ref] works on. *)
Definition ref_parts (text : str) : list str :=
  filter (fun p => negb (str_eqb p []) && negb (str_eqb p [dot]))
         (split slash (replace_backslash (strip text))).

(** [parse_category_from_media_ref] *)
Definition parse_category_from_media_ref (text system : str) : option str :=
  match text with
  | [] => None
  | _ =>
      let parts := ref_parts text in
      let i := index_of (lit "downloaded_media") parts in
      if mem (lit "downloaded_media") parts
         && (Nat.ltb (i + 2) (List.length parts))
         && str_eqb (lower (nth (i + 1) parts [])) (lower system)
      then known_or_none (lower (nth (i + 2) parts []))
      else
        let lowered := map lower parts in
        let j := index_of (lower system) lowered in
        if mem (lower system) lowered && Nat.ltb (j + 1) (List.length lowered)
        then known_or_none (nth (j + 1) lowered [])
        else find (fun p => mem p MEDIA_CATEGORIES_ALL) lowered
  end.

(** The test that decides whether a field is looked at as a media reference. *)
Definition looks_like_media_ref (txt : str) : bool :=
  contains (lit "downloaded_media") (replace_backslash txt)
  || existsb (fun c => contains c (lower txt)) MEDIA_CATEGORIES_ALL.

(** Truth value of an optional string ([if cat and ...]). *)
Definition truthy (o : option str) : bool :=
  match o with
  | Some (_ :: _) => true
  | _ => false
  end.

(** Body of [for child in list(game): ...] *)
Definition expected_step (system : str) (selected_categories : list str)
  (expected : list str) (child : element) : list str :=
  match text child with
  | None => expected
  | Some raw =>
      let txt := strip raw in
      match txt with
      | [] => expected
      | _ =>
          if negb (looks_like_media_ref txt) then expected
          else
            match parse_category_from_media_ref txt system with
            | Some cat =>
                if truthy (Some cat) && mem cat selected_categories
                then set_add cat expected
                else expected
            | None => expected
            end
      end
  end.

(** [expected_categories_from_game_xml] *)
Definition expected_categories_from_game_xml
  (game : element) (system : str) (selected_categories : list str) : list str :=
  fold_left (expected_step system selected_categories) (children game) [].

(** ** Media matching *)

(** The tiered lookup both passes run for one category
    (the [matches] list of [filter_gamelist_and_sync_media] and of
    [audit_missing_master]). *)
Definition find_matches (exact_idx norm_idx : media_index)
  (fuzzy_media_match : bool) (rom_stem rom_stem_norm : str) : list media_file :=
  let matches := dict_get_or_empty rom_stem exact_idx in
  match matches with
  | [] =>
      if fuzzy_media_match then
        let matches := dict_get_or_empty rom_stem_norm norm_idx in
        match matches with
        | [] =>
            flat_map
              (fun kv => if startswith rom_stem (fst kv) then snd kv else [])
              exact_idx
        | _ => matches
        end
      else []
  | _ => matches
  end.

(** ** Copy primitives *)

Fixpoint segments_eqb (a b : list str) : bool :=
  match a, b with
  | [], [] => true
  | x :: a', y :: b' => str_eqb x y && segments_eqb a' b'
  | _, _ => false
  end.

(** [ensure_dir]: [mkdir(parents=True, exist_ok=True)] unless previewing. *)
Definition ensure_dir (path : list str) (dry_run : bool) (e : effects) : effects :=
  if dry_run then e
  else
    with_fs (fun s =>
      {| sd_dirs := if existsb (segments_eqb path) (sd_dirs s)
                    then sd_dirs s else sd_dirs s ++ [path];
         sd_media := sd_media s;
         sd_gamelists := sd_gamelists s;
         sd_backups := sd_backups s |}) e.

(** The backup files [gamelists/<system>/gamelist.xml.bak-<stamp>], by
    system and stamp. *)
Definition backup_name_eqb (a b : str * str) : bool :=
  str_eqb (fst a) (fst b) && str_eqb (snd a) (snd b).

Fixpoint backup_get (k : str * str) (m : list ((str * str) * element))
  : option element :=
  match m with
  | [] => None
  | (k', doc) :: r => if backup_name_eqb k' k then Some doc else backup_get k r
  end.

(** Writing a backup file: a file of that name is replaced. *)
Fixpoint backup_put (k : str * str) (doc : element)
  (m : list ((str * str) * element)) : list ((str * str) * element) :=
  match m with
  | [] => [(k, doc)]
  | (k', doc') :: r =>
      if backup_name_eqb k' k then (k', doc) :: r
      else (k', doc') :: backup_put k doc r
  end.

(** [backup_file] applied to the output gamelist of [system];
    [shutil.copy2] creates the backup file or overwrites the one of that
    name. *)
Definition backup_file (w : world) (system : str) (dry_run : bool) (e : effects)
  : effects :=
  match dict_get system (sd_gamelists (fs e)) with
  | None => e
  | Some doc =>
      let stamp := backup_stamp w system in
      if dry_run then print (DryBackup system stamp) e
      else
        with_fs (fun s =>
          {| sd_dirs := sd_dirs s;
             sd_media := sd_media s;
             sd_gamelists := sd_gamelists s;
             sd_backups := backup_put (system, stamp) doc (sd_backups s) |}) e
  end.

Inductive copy_result := copied | skipped.

(** A source path of [copy_file], with what the master tree holds there
    ([None]: the path does not exist). *)
Record source := {
  src_path : media_path;
  src_node : option file
}.

(** [shutil.copy2(src, dst)]: the destination receives the source's bytes
    and modification time. *)
Definition copy2 (src : source) (dst : media_path) (e : effects) : outcome effects :=
  match src_node src with
  | None => Raise OSError
  | Some f =>
      Ok (with_fs (fun s =>
            {| sd_dirs := sd_dirs s;
               sd_media :=
                 media_put dst {| f_data := f_data f; f_mtime := f_mtime f;
                                  f_stat_ok := true |} (sd_media s);
               sd_gamelists := sd_gamelists s;
               sd_backups := sd_backups s |}) e)
  end.

(** The size comparison inside the [try] of [copy_file]; an [OSError] from
    either [stat()] is swallowed and counts as "not equal". *)
Definition same_size (dst src : file) : bool :=
  match stat_size dst, stat_size src with
  | Some a, Some b => Nat.eqb a b
  | _, _ => false
  end.

(** [copy_file] *)
Definition copy_file (src : source) (dst : media_path) (dry_run : bool)
  (e : effects) : outcome (copy_result * effects) :=
  let '(system, cat, _) := dst in
  let e := ensure_dir [lit "downloaded_media"; system; cat] dry_run e in
  let skip :=
    match media_get dst (sd_media (fs e)), src_node src with
    | Some d, Some s => same_size d s
    | _, _ => false
    end in
  if skip then Ok (skipped, e)
  else if dry_run then Ok (copied, print (DryCopy (src_path src) dst) e)
  else e' <- copy2 src dst e ;; Ok (copied, e').

(** ** Run statistics *)

Record RunStats := {
  systems_seen : nat;
  systems_processed : nat;
  games_kept : nat;
  games_total_in_master : nat;
  media_files_copied : nat;
  media_files_skipped : nat;
  media_categories_attempted : nat;
  media_categories_missing : nat;
  categories_ignored_empty_or_missing : nat;
  gamelists_written : nat
}.

Definition RunStats_init (seen : nat) : RunStats :=
  {| systems_seen := seen; systems_processed := 0; games_kept := 0;
     games_total_in_master := 0; media_files_copied := 0;
     media_files_skipped := 0; media_categories_attempted := 0;
     media_categories_missing := 0; categories_ignored_empty_or_missing := 0;
     gamelists_written := 0 |}.

(** A field name of [RunStats], for [stats.<field> += n]. *)
Inductive counter :=
| c_systems_processed | c_games_kept | c_games_total_in_master
| c_media_files_copied | c_media_files_skipped
| c_media_categories_attempted | c_media_categories_missing
| c_categories_ignored_empty_or_missing | c_gamelists_written.

Definition add_to (c : counter) (n : nat) (s : RunStats) : RunStats :=
  {| systems_seen := systems_seen s;
     systems_processed :=
       systems_processed s + match c with c_systems_processed => n | _ => 0 end;
     games_kept :=
       games_kept s + match c with c_games_kept => n | _ => 0 end;
     games_total_in_master :=
       games_total_in_master s
       + match c with c_games_total_in_master => n | _ => 0 end;
     media_files_copied :=
       media_files_copied s + match c with c_media_files_copied => n | _ => 0 end;
     media_files_skipped :=
       media_files_skipped s + match c with c_media_files_skipped => n | _ => 0 end;
     media_categories_attempted :=
       media_categories_attempted s
       + match c with c_media_categories_attempted => n | _ => 0 end;
     media_categories_missing :=
       media_categories_missing s
       + match c with c_media_categories_missing => n | _ => 0 end;
     categories_ignored_empty_or_missing :=
       categories_ignored_empty_or_missing s
       + match c with c_categories_ignored_empty_or_missing => n | _ => 0 end;
     gamelists_written :=
       gamelists_written s + match c with c_gamelists_written => n | _ => 0 end |}.

(** ** The per-system pass of sync mode *)

(** The indexes and the pruned category list built by the first loop of
    [filter_gamelist_and_sync_media]. *)
Record cat_indexes := {
  cat_exact_idx : dict media_index;
  cat_norm_idx : dict media_index;
  effective_categories : list str;
  ignored_count : nat
}.

(** Body of the first [for cat in media_categories: ...] *)
Definition index_category (w : world) (system : str) (fuzzy_media_match : bool)
  (acc : cat_indexes) (cat : str) : cat_indexes :=
  let '(exact_idx, norm_idx, total_files) :=
    build_media_index (nas_media_dir w system cat) fuzzy_media_match in
  {| cat_exact_idx := dict_set cat exact_idx (cat_exact_idx acc);
     cat_norm_idx := dict_set cat norm_idx (cat_norm_idx acc);
     effective_categories :=
       if Nat.ltb 0 total_files
       then effective_categories acc ++ [cat]
       else effective_categories acc;
     ignored_count :=
       if Nat.ltb 0 total_files
       then ignored_count acc
       else S (ignored_count acc) |}.

(** The index building and pruning loop. *)
Definition index_categories (w : world) (system : str)
  (media_categories : list str) (fuzzy_media_match : bool) : cat_indexes :=
  fold_left (index_category w system fuzzy_media_match) media_categories
    {| cat_exact_idx := []; cat_norm_idx := [];
       effective_categories := []; ignored_count := 0 |}.

(** [sorted(expected_from_xml) if expected_from_xml else list(effective_categories)] *)
Definition expected_categories_for (game : element) (system : str)
  (effective : list str) : list str :=
  match expected_categories_from_game_xml game system effective with
  | [] => effective
  | expected_from_xml => sorted expected_from_xml
  end.

(** The variables the loops of the pass update. *)
Record pass_state := {
  stats : RunStats;
  eff : effects;
  kept : nat;
  new_root : list element          (* children appended to the new <gameList> *)
}.

Record game_state := {
  g_stats : RunStats;
  g_eff : effects;
  matched_cats : list str;
  missed_cats : list str
}.

(** Body of [for src in matches: ...] *)
Definition copy_match (system cat : str) (dry_run : bool)
  (st : RunStats * effects) (src : media_file) : outcome (RunStats * effects) :=
  let '(stats, e) := st in
  let '(name, content) := src in
  r <- copy_file {| src_path := (system, cat, name); src_node := Some content |}
                 (system, cat, name) dry_run e ;;
  let '(result, e) := r in
  match result with
  | copied => Ok (add_to c_media_files_copied 1 stats, e)
  | skipped => Ok (add_to c_media_files_skipped 1 stats, e)
  end.

Definition copy_matches (system cat : str) (dry_run : bool)
  (matches : list media_file) (st : RunStats * effects)
  : outcome (RunStats * effects) :=
  for_each (copy_match system cat dry_run) matches st.

(** Body of [for cat in expected_categories: ...] *)
Definition sync_category (idx : cat_indexes) (system : str)
  (dry_run fuzzy_media_match : bool) (rom_stem rom_stem_norm : str)
  (g : game_state) (cat : str) : outcome game_state :=
  let stats := add_to c_media_categories_attempted 1 (g_stats g) in
  let matches :=
    find_matches (dict_get_or_empty cat (cat_exact_idx idx))
                 (dict_get_or_empty cat (cat_norm_idx idx))
                 fuzzy_media_match rom_stem rom_stem_norm in
  match matches with
  | [] =>
      Ok {| g_stats := add_to c_media_categories_missing 1 stats;
            g_eff := g_eff g;
            matched_cats := matched_cats g;
            missed_cats := missed_cats g ++ [cat] |}
  | _ =>
      r <- copy_matches system cat dry_run matches (stats, g_eff g) ;;
      Ok {| g_stats := fst r;
            g_eff := snd r;
            matched_cats := matched_cats g ++ [cat];
            missed_cats := missed_cats g |}
  end.

(** Whether the loop over the master's games keeps [game]: it has a
    [<path>] with non-empty text whose normalized name is on the device. *)
Definition keeps (rom_filenames : list str) (game : element) : bool :=
  match find_child (lit "path") game with
  | None => false
  | Some path_el =>
      match text path_el with
      | None | Some [] => false
      | Some t => mem (normalize_rom_filename_from_xml t) rom_filenames
      end
  end.

(** The normalized ROM filename of a game entry that has path text. *)
Definition rom_filename_of (game : element) : str :=
  match find_child (lit "path") game with
  | Some path_el =>
      match text path_el with
      | Some t => normalize_rom_filename_from_xml t
      | None => []
      end
  | None => []
  end.

(** Body of [for game in master_games: ...] *)
Definition sync_game (idx : cat_indexes) (system : str)
  (rom_filenames : list str) (dry_run fuzzy_media_match report : bool)
  (st : pass_state) (game : element) : outcome pass_state :=
  match find_child (lit "path") game with
  | None => Ok st
  | Some path_el =>
      match text path_el with
      | None | Some [] => Ok st
      | Some path_text =>
          let rom_filename := normalize_rom_filename_from_xml path_text in
          if negb (mem rom_filename rom_filenames) then Ok st
          else
            let stats := add_to c_games_kept 1 (stats st) in
            let rom_stem := lower (path_stem rom_filename) in
            let rom_stem_norm := normalize_stem_loose rom_stem in
            let expected_from_xml :=
              expected_categories_from_game_xml game system
                (effective_categories idx) in
            let expected_categories :=
              expected_categories_for game system (effective_categories idx) in
            g <- for_each
                   (sync_category idx system dry_run fuzzy_media_match
                                  rom_stem rom_stem_norm)
                   expected_categories
                   {| g_stats := stats; g_eff := eff st;
                      matched_cats := []; missed_cats := [] |} ;;
            let e :=
              if report
              then print (Report system (path_name rom_filename)
                                 (match expected_from_xml with
                                  | [] => false
                                  | _ => true
                                  end)
                                 (matched_cats g) (missed_cats g))
                         (g_eff g)
              else g_eff g in
            Ok {| stats := g_stats g;
                  eff := e;
                  kept := S (kept st);
                  new_root := new_root st ++ [game] |}
      end
  end.

(** The pass up to the end of the loop over the master's games: the
    state it leaves for the write step. *)
Definition reconcile (w : world) (system : str) (root : element)
  (rom_filenames media_categories : list str)
  (dry_run fuzzy_media_match report : bool)
  (stats0 : RunStats) (e0 : effects) : outcome pass_state :=
  let provider := find_child (lit "provider") root in
  let new_root0 :=
    match provider with
    | Some p => [p]
    | None => []
    end in
  let idx := index_categories w system media_categories fuzzy_media_match in
  let stats1 :=
    add_to c_categories_ignored_empty_or_missing (ignored_count idx) stats0 in
  let master_games := findall (lit "game") root in
  let stats2 := add_to c_games_total_in_master (List.length master_games) stats1 in
  for_each
    (sync_game idx system rom_filenames dry_run fuzzy_media_match report)
    master_games
    {| stats := stats2; eff := e0; kept := 0; new_root := new_root0 |}.

(** [ET.ElementTree(new_root).write(sd_out_gamelist, ...)] *)
Definition write_gamelist (system : str) (doc : element) (e : effects) : effects :=
  with_fs (fun s =>
    {| sd_dirs := sd_dirs s;
       sd_media := sd_media s;
       sd_gamelists := dict_set system doc (sd_gamelists s);
       sd_backups := sd_backups s |}) e.

(** [filter_gamelist_and_sync_media] *)
Definition filter_gamelist_and_sync_media (w : world) (system : str)
  (media_categories : list str)
  (dry_run backup_gamelist_flag fuzzy_media_match report : bool)
  (stats0 : RunStats) (e0 : effects) : outcome (RunStats * effects) :=
  match nas_gamelist w system with
  | None => Ok (stats0, print (WarnMissingGamelist system) e0)
  | Some xml =>
      let rom_filenames := iter_rom_files (sd_rom_dir w system) in
      match rom_filenames with
      | [] => Ok (stats0, print (InfoNoRoms system) e0)
      | _ =>
          match xml with
          | Malformed => Raise ParseError
          | WellFormed root =>
              st <- reconcile w system root rom_filenames media_categories
                              dry_run fuzzy_media_match report stats0 e0 ;;
              match kept st with
              | 0 => Ok (stats st, print (InfoZeroKept system) (eff st))
              | _ =>
                  let e := ensure_dir [lit "gamelists"; system] dry_run (eff st) in
                  let e :=
                    if backup_gamelist_flag then backup_file w system dry_run e
                    else e in
                  let '(stats, e) :=
                    if dry_run
                    then (stats st, print (DryWriteGamelist system (kept st)) e)
                    else (add_to c_gamelists_written 1 (stats st),
                          write_gamelist system
                            (Element (lit "gameList") None (new_root st)) e) in
                  let stats := add_to c_systems_processed 1 stats in
                  Ok (stats,
                      print (OkSystem system (kept st) (media_files_copied stats)) e)
              end
          end
      end
  end.

(** ** Audit mode *)

Record AuditItem := {
  ai_system : str;
  ai_rom_filename : str;
  in_master_gamelist : bool;
  missing_categories : list str;
  note : str
}.

(** [master_map[normalize_rom_filename_from_xml(p.text)] = game] over the
    master's games. *)
Definition build_master_map (master_games : list element) : dict element :=
  fold_left
    (fun master_map game =>
       match find_child (lit "path") game with
       | None => master_map
       | Some p =>
           match text p with
           | None | Some [] => master_map
           | Some t => dict_set (normalize_rom_filename_from_xml t) game master_map
           end
       end)
    master_games [].

(** The categories of [expected_categories] for which no tier finds a file. *)
Definition audit_missing_cats (idx : cat_indexes) (fuzzy_media_match : bool)
  (rom_stem rom_stem_norm : str) (expected_categories : list str) : list str :=
  filter
    (fun cat =>
       match find_matches (dict_get_or_empty cat (cat_exact_idx idx))
                          (dict_get_or_empty cat (cat_norm_idx idx))
                          fuzzy_media_match rom_stem rom_stem_norm with
       | [] => true
       | _ => false
       end)
    expected_categories.

(** Body of [for rom in sd_rom_files: ...] *)
Definition audit_rom (idx : cat_indexes) (master_map : dict element)
  (system : str) (fuzzy_media_match : bool)
  (all_items : list AuditItem) (rom : str) : list AuditItem :=
  match dict_get rom master_map with
  | None =>
      all_items ++
      [ {| ai_system := system; ai_rom_filename := rom;
           in_master_gamelist := false; missing_categories := [];
           note := lit "ROM not found in master gamelist.xml" |} ]
  | Some game =>
      let expected_categories :=
        expected_categories_for game system (effective_categories idx) in
      let rom_stem := lower (path_stem rom) in
      let rom_stem_norm := normalize_stem_loose rom_stem in
      match audit_missing_cats idx fuzzy_media_match rom_stem rom_stem_norm
                               expected_categories with
      | [] => all_items
      | missing_cats =>
          all_items ++
          [ {| ai_system := system; ai_rom_filename := rom;
               in_master_gamelist := true; missing_categories := missing_cats;
               note := lit "missing media categories in master cache" |} ]
      end
  end.

(** Body of [for system in systems: ...] of [audit_missing_master]. *)
Definition audit_system (w : world) (media_categories_selected : list str)
  (fuzzy_media_match : bool) (all_items : list AuditItem) (system : str)
  : outcome (list AuditItem) :=
  let sd_rom_files := sorted (iter_rom_files (sd_rom_dir w system)) in
  match sd_rom_files with
  | [] => Ok all_items
  | _ =>
      match nas_gamelist w system with
      | None =>
          Ok (all_items ++
              map (fun rom =>
                     {| ai_system := system; ai_rom_filename := rom;
                        in_master_gamelist := false; missing_categories := [];
                        note := lit "missing master gamelist.xml" |})
                  sd_rom_files)
      | Some Malformed => Raise ParseError
      | Some (WellFormed root) =>
          let master_map := build_master_map (findall (lit "game") root) in
          let idx :=
            index_categories w system media_categories_selected fuzzy_media_match in
          Ok (fold_left (audit_rom idx master_map system fuzzy_media_match)
                        sd_rom_files all_items)
      end
  end.

(** [audit_missing_master]: the problem records and the exit status. *)
Definition audit_missing_master (w : world) (systems media_categories_selected : list str)
  (fuzzy_media_match : bool) : outcome (list AuditItem * nat) :=
  all_items <- for_each (audit_system w media_categories_selected fuzzy_media_match)
                        systems [] ;;
  let problems :=
    List.length
      (filter (fun i => negb (in_master_gamelist i)
                        || match missing_categories i with [] => false | _ => true end)
              all_items) in
  Ok (all_items, if Nat.ltb 0 problems then 1 else 0).

(** ** Setup and [main] *)

Record arguments := {
  arg_profile : str;
  arg_media : str;
  arg_systems : str;
  arg_dry_run : bool;
  arg_backup_gamelist : bool;
  arg_fuzzy_media_match : bool;
  arg_report : bool;
  arg_audit_missing_master : bool
}.

(** [[m.strip() for m in text.split(",") if m.strip()]] *)
Definition split_csv (text : str) : list str :=
  filter (fun m => negb (str_eqb m [])) (map strip (split ","%char text)).

(** [validate_sd_root] *)
Definition validate_sd_root (w : world) : outcome unit :=
  match sd_roms w with
  | None => Raise (SystemExitMissingFolder (lit "ROMs"))
  | Some _ =>
      if sd_esde_exists w then Ok tt
      else Raise (SystemExitMissingFolder (lit "ES-DE"))
  end.

(** The first half of [resolve_media_categories]: the categories asked for
    by [--media], by the profile, or by default.  [profiles_file] is the
    parsed [profiles.json] when that file exists. *)
Definition requested_media_categories (args : arguments)
  (profiles_file : option (dict (list str))) : list str :=
  let profiles :=
    match profiles_file with
    | Some p => p
    | None => []
    end in
  match strip (arg_media args) with
  | _ :: _ => split_csv (arg_media args)
  | [] =>
      let prof_name :=
        match strip (arg_profile args) with
        | (_ :: _) as name => name
        | [] => if dict_has (lit "no_videos") profiles then lit "no_videos" else []
        end in
      match prof_name, dict_get prof_name profiles with
      | _ :: _, Some cats => cats
      | _, _ =>
          filter (fun m => negb (str_eqb m (lit "videos"))) MEDIA_CATEGORIES_ALL
      end
  end.

(** [resolve_media_categories] *)
Definition resolve_media_categories (args : arguments)
  (profiles_file : option (dict (list str))) : outcome (list str) :=
  let media_categories := requested_media_categories args profiles_file in
  let invalid :=
    filter (fun m => negb (mem m MEDIA_CATEGORIES_ALL)) media_categories in
  match invalid with
  | [] => Ok media_categories
  | _ => Raise (SystemExitInvalidCategories invalid)
  end.

(** [list_sd_systems] *)
Definition list_sd_systems (w : world) : list str :=
  match sd_roms w with
  | None => []
  | Some es => sorted (map entry_name (filter (fun p => negb (is_file p)) es))
  end.

(** [resolve_systems] *)
Definition resolve_systems (args : arguments) (w : world) : list str :=
  match strip (arg_systems args) with
  | _ :: _ => split_csv (arg_systems args)
  | [] => list_sd_systems w
  end.

(** The loop of [main] in sync mode. *)
Definition sync_systems (w : world) (systems media_categories : list str)
  (dry_run backup_gamelist_flag fuzzy_media_match report : bool)
  (stats0 : RunStats) (e0 : effects) : outcome (RunStats * effects) :=
  for_each
    (fun st system =>
       filter_gamelist_and_sync_media w system media_categories dry_run
         backup_gamelist_flag fuzzy_media_match report (fst st) (snd st))
    systems (stats0, e0).

Inductive run_result :=
| NothingToDo
| Audited (items : list AuditItem) (exit_status : nat)
| Synced (final : RunStats) (e : effects).

(** [main] *)
Definition main (args : arguments) (profiles_file : option (dict (list str)))
  (w : world) (e0 : effects) : outcome run_result :=
  _ <- validate_sd_root w ;;
  media_categories <- resolve_media_categories args profiles_file ;;
  let systems := resolve_systems args w in
  match systems with
  | [] => Ok NothingToDo
  | _ =>
      if arg_audit_missing_master args then
        r <- audit_missing_master w systems media_categories
                                  (arg_fuzzy_media_match args) ;;
        Ok (Audited (fst r) (snd r))
      else
        r <- sync_systems w systems media_categories (arg_dry_run args)
               (arg_backup_gamelist args) (arg_fuzzy_media_match args)
               (arg_report args) (RunStats_init (List.length systems)) e0 ;;
        Ok (Synced (fst r) (snd r))
  end.

(** ** Auxiliary notions used by the statements *)

(** The shape of a normalized stem: lower-case letters, digits and single
    spaces.  [prev] tells that the character before was a space. *)
Fixpoint tidy (prev : bool) (s : str) : bool :=
  match s with
  | [] => true
  | c :: t =>
      if is_space c then Ascii.eqb c space && negb prev && tidy true t
      else (is_lower c || is_digit c) && tidy false t
  end.

(** Changing the case of the ASCII letters selected by [mask]; a
    character that is not an ASCII letter stays as it is. *)
Definition swap_ascii_case (c : ascii) : ascii :=
  if is_upper c then to_lower c else to_upper c.

Fixpoint change_ascii_case (mask : list bool) (s : str) : str :=
  match s, mask with
  | c :: t, b :: m => (if b then swap_ascii_case c else c) :: change_ascii_case m t
  | _, _ => s
  end.

(** Text made of ASCII characters only. *)
Definition ascii_text (s : str) : Prop :=
  Forall (fun c => N.ltb (code c) 128 = true) s.

(** The letter U+00DF (sharp s) in UTF-8. *)
Definition eszett : str := [ascii_of_N 195; ascii_of_N 159].

(** [s.upper()] for text whose only characters outside ASCII are sharp s,
    which Python upper-cases to ["SS"]; [None] for other text, whose
    upper-casing is not modelled. *)
Fixpoint upper (s : str) : option str :=
  match s with
  | [] => Some []
  | c :: t =>
      if N.ltb (code c) 128 then option_map (cons (to_upper c)) (upper t)
      else
        match t with
        | d :: t' =>
            if N.eqb (code c) 195 && N.eqb (code d) 159
            then option_map (app (lit "SS")) (upper t')
            else None
        | [] => None
        end
  end.


(** Every key of an index holds at least one file. *)
Definition no_empty_bucket (d : media_index) : Prop :=
  Forall (fun kv => snd kv <> []) d.

(** The files the prefix tier collects: those filed under a key that
    starts with the stem, in index order. *)
Definition prefix_tier (exact_idx : media_index) (rom_stem : str) : list media_file :=
  flat_map (fun kv => if startswith rom_stem (fst kv) then snd kv else []) exact_idx.

(** *** Category rules as the specification words them

    Rule 1: a [downloaded_media] segment followed by a segment equal to the
    system (ignoring case) followed by a known category name.
    Rule 2: a segment equal to the system (ignoring case) followed
    immediately by a known category name.
    Rule 3: any segment that is a known category name (ignoring case).
    The first rule that matches gives the category. *)

Definition is_known (seg : str) : bool := mem (lower seg) MEDIA_CATEGORIES_ALL.

Fixpoint spec_rule1 (system : str) (parts : list str) : option str :=
  match parts with
  | [] => None
  | a :: rest =>
      match rest with
      | b :: c :: _ =>
          if str_eqb a (lit "downloaded_media")
             && str_eqb (lower b) (lower system) && is_known c
          then Some (lower c)
          else spec_rule1 system rest
      | _ => None
      end
  end.

Fixpoint spec_rule2 (system : str) (parts : list str) : option str :=
  match parts with
  | [] => None
  | a :: rest =>
      match rest with
      | b :: _ =>
          if str_eqb (lower a) (lower system) && is_known b
          then Some (lower b)
          else spec_rule2 system rest
      | _ => None
      end
  end.

Definition spec_rule3 (parts : list str) : option str :=
  find (fun p => mem p MEDIA_CATEGORIES_ALL) (map lower parts).

Definition spec_parse_category (text system : str) : option str :=
  let parts := ref_parts text in
  match spec_rule1 system parts with
  | Some c => Some c
  | None =>
      match spec_rule2 system parts with
      | Some c => Some c
      | None => spec_rule3 parts
      end
  end.

(** *** Category rules as the code applies them

    Rule 1 looks at the first [downloaded_media] segment only, rule 2 at the
    first segment equal to the system only; when the segment in category
    position is there, it decides the result, known category or not. *)

(** The first [downloaded_media] segment is followed by the system and by
    a further segment [c]. *)
Definition rule1_applies (parts : list str) (system c : str) : Prop :=
  exists pre s rest,
    parts = pre ++ lit "downloaded_media" :: s :: c :: rest
    /\ ~ In (lit "downloaded_media") pre
    /\ lower s = lower system.

(** The first segment equal to the system (ignoring case) is followed by a
    further segment, [c] in lower case. *)
Definition rule2_applies (parts : list str) (system c : str) : Prop :=
  exists pre rest,
    map lower parts = pre ++ lower system :: c :: rest
    /\ ~ In (lower system) pre.

(** A field of [game] from which [cat] is inferred for [system]. *)
Definition field_gives (game : element) (system cat : str) : Prop :=
  exists child raw,
    In child (children game)
    /\ text child = Some raw
    /\ looks_like_media_ref (strip raw) = true
    /\ parse_category_from_media_ref (strip raw) system = Some cat.

(** The category names as the specification spells them. *)
Definition spec_category_names : list str :=
  map lit
    [ "3d-boxes"; "back-covers"; "covers"; "custom"; "fan-art"; "manuals";
      "marquees"; "mix-images"; "physical-media"; "screenshots";
      "title-screens"; "videos" ]%string.

(** Command lines used in examples: only [--media] and the mode flags vary. *)
Definition args_with_media (media : str) (dry_run : bool) : arguments :=
  {| arg_profile := []; arg_media := media; arg_systems := [];
     arg_dry_run := dry_run; arg_backup_gamelist := false;
     arg_fuzzy_media_match := false; arg_report := false;
     arg_audit_missing_master := false |}.

(** What [shutil.copy2] leaves at the destination for a source file. *)
Definition copy_of (s : file) : file :=
  {| f_data := f_data s; f_mtime := f_mtime s; f_stat_ok := true |}.

(** The destination exists with a size that [stat()] reports equal to the
    source's. *)
Definition already_synced (e : effects) (dst : media_path) (s : file) : Prop :=
  exists d n,
    media_get dst (sd_media (fs e)) = Some d
    /\ stat_size d = Some n /\ stat_size s = Some n.

(** *** The plan of a pass

    What the pass decides for a system depends on the master tree and on
    the ROM names only: for every kept game, the expected categories and
    the files matched in each.  The statements below relate the counters
    and the written document to this plan. *)

Definition category_matches (idx : cat_indexes) (fuzzy_media_match : bool)
  (rom_filename cat : str) : list media_file :=
  let rom_stem := lower (path_stem rom_filename) in
  find_matches (dict_get_or_empty cat (cat_exact_idx idx))
               (dict_get_or_empty cat (cat_norm_idx idx))
               fuzzy_media_match rom_stem (normalize_stem_loose rom_stem).

(** Per expected category of [game], the files matched. *)
Definition game_plan (idx : cat_indexes) (system : str) (fuzzy_media_match : bool)
  (game : element) : list (str * list media_file) :=
  map (fun cat =>
         (cat, category_matches idx fuzzy_media_match (rom_filename_of game) cat))
      (expected_categories_for game system (effective_categories idx)).

Definition has_matches (p : str * list media_file) : bool :=
  match snd p with
  | [] => false
  | _ => true
  end.

Definition plan_matched (plan : list (str * list media_file)) : list str :=
  map fst (filter has_matches plan).

Definition plan_missed (plan : list (str * list media_file)) : list str :=
  map fst (filter (fun p => negb (has_matches p)) plan).

(** The destinations the copies of a plan write to. *)
Definition plan_targets (system : str) (plan : list (str * list media_file))
  : list media_path :=
  flat_map (fun p => map (fun m => (system, fst p, fst m)) (snd p)) plan.

(** The counters after a category / a game, every file counted as copied. *)
Definition account_category (s : RunStats) (p : str * list media_file) : RunStats :=
  let s := add_to c_media_categories_attempted 1 s in
  if has_matches p then add_to c_media_files_copied (List.length (snd p)) s
  else add_to c_media_categories_missing 1 s.

Definition account_game (s : RunStats) (plan : list (str * list media_file)) : RunStats :=
  fold_left account_category plan (add_to c_games_kept 1 s).

(** The games of the master a system keeps, and the plans of its pass. *)
Definition kept_games (w : world) (system : str) (root : element) : list element :=
  filter (keeps (iter_rom_files (sd_rom_dir w system))) (findall (lit "game") root).

Definition system_plans (w : world) (system : str) (media_categories : list str)
  (fuzzy_media_match : bool) (root : element) : list (list (str * list media_file)) :=
  let idx := index_categories w system media_categories fuzzy_media_match in
  map (game_plan idx system fuzzy_media_match) (kept_games w system root).

(** The counters a run is compared on: everything but the split of the
    handled files into copied and skipped, and the count of gamelists
    written. *)
Definition decisions (s : RunStats) : list nat :=
  [ systems_seen s; systems_processed s; games_kept s; games_total_in_master s;
    media_files_copied s + media_files_skipped s;
    media_categories_attempted s; media_categories_missing s;
    categories_ignored_empty_or_missing s ].

(** The per-ROM report lines among the printed messages:
    ROM name, matched categories, missed categories. *)
Definition report_lines (out : list message) : list (str * list str * list str) :=
  flat_map
    (fun m =>
       match m with
       | Report _ rom _ matched missed => [(rom, matched, missed)]
       | _ => []
       end)
    out.

(** Between two states of the device nothing but media files and
    directories changed, and no report line was printed. *)
Definition catalogs_kept (e e' : effects) : Prop :=
  sd_gamelists (fs e') = sd_gamelists (fs e)
  /\ sd_backups (fs e') = sd_backups (fs e)
  /\ report_lines (stdout e') = report_lines (stdout e).

(** The report line of a kept game. *)
Definition game_report_line (idx : cat_indexes) (system : str)
  (fuzzy_media_match : bool) (game : element) : str * list str * list str :=
  let plan := game_plan idx system fuzzy_media_match game in
  (path_name (rom_filename_of game), plan_matched plan, plan_missed plan).

(** The children the pass puts first in the new root. *)
Definition provider_children (root : element) : list element :=
  match find_child (lit "provider") root with
  | Some p => [p]
  | None => []
  end.

(** The counters after the pass over a system whose catalog is [root],
    every handled file counted as copied. *)
Definition account_system (w : world) (system : str) (media_categories : list str)
  (fuzzy_media_match : bool) (root : element) (s : RunStats) : RunStats :=
  let idx := index_categories w system media_categories fuzzy_media_match in
  let s := add_to c_categories_ignored_empty_or_missing (ignored_count idx) s in
  let s := add_to c_games_total_in_master
                  (List.length (findall (lit "game") root)) s in
  let s := fold_left account_game
                     (system_plans w system media_categories fuzzy_media_match root) s in
  match kept_games w system root with
  | [] => s
  | _ => add_to c_systems_processed 1 s
  end.

(** The document the pass writes for a system. *)
Definition output_document (w : world) (system : str) (root : element) : element :=
  Element (lit "gameList") None (provider_children root ++ kept_games w system root).



(** [x] comes before [y] in [l]. *)
Definition before {A} (x y : A) (l : list A) : Prop :=
  exists a b c, l = a ++ x :: b ++ y :: c.

(** A category directory of the master that is absent or holds no file. *)
Definition category_dir_empty (dir : option (list entry)) : bool :=
  match dir with
  | None => true
  | Some listing =>
      match filter is_file listing with
      | [] => true
      | _ => false
      end
  end.

Definition pruned (w : world) (system cat : str) : bool :=
  category_dir_empty (nas_media_dir w system cat).

(** *** How the pass treats a system *)

Inductive system_case :=
| SkipNoCatalog                 (* the master has no gamelist.xml for it *)
| SkipNoRoms                    (* its game directory holds no file *)
| Fails                         (* it has ROMs and its catalog does not parse *)
| Passes (root : element).      (* it has ROMs and its catalog is [root] *)

Definition classify (w : world) (system : str) : system_case :=
  match nas_gamelist w system with
  | None => SkipNoCatalog
  | Some xml =>
      match iter_rom_files (sd_rom_dir w system) with
      | [] => SkipNoRoms
      | _ =>
          match xml with
          | Malformed => Fails
          | WellFormed root => Passes root
          end
      end
  end.

(** Some system of the list has ROMs and a catalog that does not parse. *)
Definition run_raises (w : world) (systems : list str) : bool :=
  existsb (fun system =>
             match classify w system with
             | Fails => true
             | _ => false
             end) systems.

(** The counters after a run over [systems], every handled file counted
    as copied. *)
Definition account_run (w : world) (media_categories : list str)
  (fuzzy_media_match : bool) (systems : list str) (s : RunStats) : RunStats :=
  fold_left
    (fun s system =>
       match classify w system with
       | Passes root => account_system w system media_categories fuzzy_media_match root s
       | _ => s
       end)
    systems s.

(** The destinations a run copies to, in order. *)
Definition run_targets (w : world) (media_categories : list str)
  (fuzzy_media_match : bool) (systems : list str) : list media_path :=
  flat_map
    (fun system =>
       match classify w system with
       | Passes root =>
           flat_map (plan_targets system)
                    (system_plans w system media_categories fuzzy_media_match root)
       | _ => []
       end)
    systems.

(** ** A small installation used in the worked examples

    Master: catalogs for [switch] and [snes], a broken catalog for [gba];
    covers for both, an empty [videos] directory for [switch].
    Device: ROMs for the three systems, nothing under ES-DE yet. *)

Definition demo_file (data : string) : file :=
  {| f_data := lit data; f_mtime := 7; f_stat_ok := true |}.

Definition field (name value : string) : element :=
  Element (lit name) (Some (lit value)) [].

Definition game (fields : list element) : element :=
  Element (lit "game") None fields.

Definition switch_catalog : element :=
  Element (lit "gameList") None
    [ game [field "path" "./Celeste.xci"; field "name" "Celeste"];
      Element (lit "provider") None [field "System" "Nintendo Switch"];
      game [field "path" "./Mario.nsp"];
      game [field "path" ".\dlc\ZELDA.nsp";
            field "image" "./downloaded_media/switch/covers/Zelda.png"] ].

Definition snes_catalog : element :=
  Element (lit "gameList") None
    [ game [field "path" "./Zelda.sfc"];
      game [field "path" "./Zelda (Rev 1).sfc"] ].

Definition demo_world : world :=
  {| nas_gamelist := fun system =>
       if str_eqb system (lit "switch") then Some (WellFormed switch_catalog)
       else if str_eqb system (lit "snes") then Some (WellFormed snes_catalog)
       else if str_eqb system (lit "gba") then Some Malformed
       else None;
     nas_media_dir := fun system cat =>
       if str_eqb system (lit "switch") && str_eqb cat (lit "covers")
       then Some [ FileEntry (lit "Celeste.png") (demo_file "celeste-cover");
                   FileEntry (lit "Zelda.png") (demo_file "zelda-cover") ]
       else if str_eqb system (lit "switch") && str_eqb cat (lit "videos")
       then Some []
       else if str_eqb system (lit "snes") && str_eqb cat (lit "covers")
       then Some [ FileEntry (lit "Zelda (Rev 1).png") (demo_file "zelda-rev1") ]
       else None;
     sd_roms :=
       Some [ DirEntry (lit "gba") [FileEntry (lit "metroid.gba") (demo_file "rom")];
              DirEntry (lit "snes")
                [ FileEntry (lit "Zelda.sfc") (demo_file "rom");
                  FileEntry (lit "Zelda (Rev 1).sfc") (demo_file "rom") ];
              DirEntry (lit "switch")
                [ FileEntry (lit "celeste.xci") (demo_file "rom");
                  DirEntry (lit "dlc") [FileEntry (lit "Zelda.NSP") (demo_file "rom")] ] ];
     sd_esde_exists := true;
     backup_stamp := fun _ => lit "20240101-120000" |}.

Definition empty_device : effects :=
  {| fs := {| sd_dirs := []; sd_media := []; sd_gamelists := []; sd_backups := [] |};
     stdout := [] |}.

Definition demo_args (systems media : string) (dry_run fuzzy : bool) : arguments :=
  {| arg_profile := []; arg_media := lit media; arg_systems := lit systems;
     arg_dry_run := dry_run; arg_backup_gamelist := false;
     arg_fuzzy_media_match := fuzzy; arg_report := true;
     arg_audit_missing_master := false |}.

(** *** Counting with the device's initial media

    [copy_decision] is the answer of [copy_file] for a matched file when
    the destination is as [media] has it; the [tally_] functions count a
    plan with these answers. *)

Definition copy_decision (media : list (media_path * file)) (system cat : str)
  (m : media_file) : copy_result :=
  match media_get (system, cat, fst m) media with
  | Some d => if same_size d (snd m) then skipped else copied
  | None => copied
  end.

Definition tally_file (media : list (media_path * file)) (system cat : str)
  (s : RunStats) (m : media_file) : RunStats :=
  match copy_decision media system cat m with
  | copied => add_to c_media_files_copied 1 s
  | skipped => add_to c_media_files_skipped 1 s
  end.

Definition tally_category (media : list (media_path * file)) (system : str)
  (s : RunStats) (p : str * list media_file) : RunStats :=
  let s := add_to c_media_categories_attempted 1 s in
  if has_matches p then fold_left (tally_file media system (fst p)) (snd p) s
  else add_to c_media_categories_missing 1 s.

Definition tally_game (media : list (media_path * file)) (system : str)
  (s : RunStats) (plan : list (str * list media_file)) : RunStats :=
  fold_left (tally_category media system) plan (add_to c_games_kept 1 s).

Definition tally_system (media : list (media_path * file)) (w : world)
  (system : str) (media_categories : list str) (fuzzy_media_match : bool)
  (root : element) (s : RunStats) : RunStats :=
  let idx := index_categories w system media_categories fuzzy_media_match in
  let s := add_to c_categories_ignored_empty_or_missing (ignored_count idx) s in
  let s := add_to c_games_total_in_master
                  (List.length (findall (lit "game") root)) s in
  let s := fold_left (tally_game media system)
                     (system_plans w system media_categories fuzzy_media_match root) s in
  match kept_games w system root with
  | [] => s
  | _ => add_to c_systems_processed 1 s
  end.

Definition tally_run (media : list (media_path * file)) (w : world)
  (media_categories : list str) (fuzzy_media_match : bool)
  (systems : list str) (s : RunStats) : RunStats :=
  fold_left
    (fun s system =>
       match classify w system with
       | Passes root =>
           tally_system media w system media_categories fuzzy_media_match root s
       | _ => s
       end)
    systems s.

(** Every counter but [gamelists_written]. *)
Definition counters (s : RunStats) : list nat :=
  [ systems_seen s; systems_processed s; games_kept s; games_total_in_master s;
    media_files_copied s; media_files_skipped s;
    media_categories_attempted s; media_categories_missing s;
    categories_ignored_empty_or_missing s ].

(** Outside [touched], the device's media are still as [media0] has them. *)
Definition untouched (media0 : list (media_path * file))
  (touched : list media_path) (e : effects) : Prop :=
  forall k, ~ In k touched -> media_get k (sd_media (fs e)) = media_get k media0.

(** The destinations [targets] were not written before and, in a real
    run, are pairwise different. *)
Definition clear_of (dry_run : bool) (touched targets : list media_path) : Prop :=
  (forall k, In k targets -> ~ In k touched)
  /\ (dry_run = false -> NoDup targets).

Definition grow (dry_run : bool) (touched targets : list media_path)
  : list media_path :=
  if dry_run then touched else touched ++ targets.

(** ** Further notions used by the statements on the remaining code *)

(** A file name as a directory listing gives it: not empty, not ["."],
    without separator, and not ending in white space. *)
Definition plain_name (n : str) : Prop :=
  n <> [] /\ n <> [dot] /\ ~ In slash n /\ ~ In backslash n /\ rstrip n = n.

(** A character that is neither a letter (of either case) nor a digit. *)
Definition separator (c : ascii) : bool :=
  negb (is_lower (to_lower c) || is_digit c).

(** Two stems of the same length that agree, position by position, up to
    case, or hold a separator each. *)
Definition same_up_to_case_and_separators (s t : str) : Prop :=
  Forall2 (fun a b => to_lower a = to_lower b
                      \/ (separator a = true /\ separator b = true)) s t.

(** The class [[^a-z0-9]]. *)
Definition not_word (c : ascii) : bool := negb (is_lower c || is_digit c).

(** The keys under which [build_media_index] files a name. *)
Definition exact_key (name : str) : str := lower (name_stem name).
Definition loose_key (name : str) : str := normalize_stem_loose (name_stem name).

(** The files of a listing whose key is [k], in listing order. *)
Definition files_keyed (key : str -> str) (k : str) (listing : list entry)
  : list media_file :=
  flat_map
    (fun e =>
       match e with
       | FileEntry n f => if str_eqb (key n) k then [(n, f)] else []
       | DirEntry _ _ => []
       end)
    listing.

(** The listing of a category directory, empty when the directory is absent. *)
Definition category_listing (w : world) (system cat : str) : list entry :=
  match nas_media_dir w system cat with
  | Some listing => listing
  | None => []
  end.

(** [holds es dirs n f]: the directory whose listing is [es] holds the file
    [f] named [n] below the chain of sub-directories [dirs]. *)
Inductive holds : list entry -> list str -> str -> file -> Prop :=
| holds_here (es : list entry) (n : str) (f : file) :
    In (FileEntry n f) es -> holds es [] n f
| holds_deeper (es : list entry) (d : str) (kids : list entry)
    (dirs : list str) (n : str) (f : file) :
    In (DirEntry d kids) es -> holds kids dirs n f -> holds es (d :: dirs) n f.

(** A list of strings in ascending order, as [sorted] leaves it. *)
Fixpoint ascending (l : list str) : Prop :=
  match l with
  | [] => True
  | x :: r => (forall y, In y r -> str_leb x y = true) /\ ascending r
  end.

(** The counters [decisions] of [s] after adding to each of them. *)
Definition bump (s : RunStats)
  (processed kept total handled attempted missing ignored : nat) : list nat :=
  [ systems_seen s; systems_processed s + processed; games_kept s + kept;
    games_total_in_master s + total;
    media_files_copied s + media_files_skipped s + handled;
    media_categories_attempted s + attempted; media_categories_missing s + missing;
    categories_ignored_empty_or_missing s + ignored ].

(** The files a plan hands to [copy_file]. *)
Definition plan_files (plan : list (str * list media_file)) : list media_file :=
  flat_map snd plan.

(** Whether no file matches the ROM in the category. *)
Definition unmatched (idx : cat_indexes) (fuzzy_media_match : bool)
  (rom_filename cat : str) : bool :=
  match category_matches idx fuzzy_media_match rom_filename cat with
  | [] => true
  | _ => false
  end.

(** How the counters move over [n] systems: what was added to each, and
    how the additions compare. *)
Definition advances (dry_run : bool) (n : nat) (s s' : RunStats) : Prop :=
  exists p k t h a m i,
    decisions s' = bump s p k t h a m i
    /\ gamelists_written s' = gamelists_written s + (if dry_run then 0 else p)
    /\ p <= n /\ p <= k /\ k <= t /\ m <= a /\ a <= m + h.

(** The records the audit makes for one system. *)
Definition audit_records (w : world) (media_categories_selected : list str)
  (fuzzy_media_match : bool) (system : str) : list AuditItem :=
  match audit_system w media_categories_selected fuzzy_media_match [] system with
  | Ok items => items
  | Raise _ => []
  end.

(** What a record of the audit says about its ROM: the ROM is on the
    device; a record "in master" comes with a catalog entry the sync would
    keep for that ROM and lists, non-empty, the expected categories of that
    entry in which nothing matches; a record "not in master" lists nothing,
    and then the master has no catalog for the system or no entry of the
    catalog would be kept for the ROM. *)
Definition audit_record_sound (w : world) (media_categories_selected : list str)
  (fuzzy_media_match : bool) (i : AuditItem) : Prop :=
  let system := ai_system i in
  let rom := ai_rom_filename i in
  let idx :=
    index_categories w system media_categories_selected fuzzy_media_match in
  In rom (iter_rom_files (sd_rom_dir w system))
  /\ if in_master_gamelist i
     then missing_categories i <> []
          /\ exists root game,
               nas_gamelist w system = Some (WellFormed root)
               /\ In game (findall (lit "game") root)
               /\ keeps [rom] game = true
               /\ missing_categories i
                  = filter (unmatched idx fuzzy_media_match rom)
                      (expected_categories_for game system (effective_categories idx))
     else missing_categories i = []
          /\ match nas_gamelist w system with
             | None => True
             | Some Malformed => False
             | Some (WellFormed root) =>
                 forall game, In game (findall (lit "game") root) ->
                              keeps [rom] game = false
             end.

(** *** The copies of a run *)

(** A copy the pass makes: the destination and the source file. *)
Definition job := (media_path * file)%type.

Definition plan_jobs (system : str) (plan : list (str * list media_file)) : list job :=
  flat_map (fun p => map (fun m => ((system, fst p, fst m), snd m)) (snd p)) plan.

Definition system_jobs (w : world) (media_categories : list str)
  (fuzzy_media_match : bool) (system : str) : list job :=
  match classify w system with
  | Passes root =>
      flat_map (plan_jobs system)
               (system_plans w system media_categories fuzzy_media_match root)
  | _ => []
  end.

Definition run_jobs (w : world) (media_categories : list str)
  (fuzzy_media_match : bool) (systems : list str) : list job :=
  flat_map (system_jobs w media_categories fuzzy_media_match) systems.

(** Every destination of [jobs] holds a file whose size [stat()] reports
    equal to the size of the source. *)
Definition settled (media : list (media_path * file)) (jobs : list job) : Prop :=
  forall k s, In (k, s) jobs ->
    exists d, media_get k media = Some d /\ same_size d s = true.

(** * Properties *)

Unset Implicit Arguments.

(** ** Worked inputs *)

Example normalize_rom_filename_celeste :
  normalize_rom_filename_from_xml (lit "./Celeste.xci") = lit "celeste.xci".
Proof. reflexivity. Qed.

Example normalize_rom_filename_nested :
  normalize_rom_filename_from_xml (lit "  .\Sub\Dir\Zelda.NSP ") = lit "zelda.nsp".
Proof. reflexivity. Qed.

Example normalize_stem_loose_mario :
  normalize_stem_loose (lit "super-mario_bros") = lit "super mario bros"
  /\ normalize_stem_loose (lit "Super Mario Bros") = lit "super mario bros"
  /\ normalize_stem_loose (lit "  Game!! (USA)  [v1.0] ") = lit "game usa v1 0".
Proof. repeat split; reflexivity. Qed.

Example name_stem_examples :
  name_stem (lit "celeste.xci") = lit "celeste"
  /\ name_stem (lit "a.tar.gz") = lit "a.tar"
  /\ name_stem (lit ".hidden") = lit ".hidden"
  /\ name_stem (lit "noext") = lit "noext".
Proof. repeat split; reflexivity. Qed.

Example parse_category_examples :
  parse_category_from_media_ref
    (lit "./downloaded_media/switch/covers/Celeste.png") (lit "switch")
  = Some (lit "covers")
  /\ parse_category_from_media_ref (lit "media/Switch/Videos/a.mp4") (lit "switch")
     = Some (lit "videos")
  /\ parse_category_from_media_ref (lit "art/Marquees/a.png") (lit "switch")
     = Some (lit "marquees")
  /\ parse_category_from_media_ref (lit "Celeste") (lit "switch") = None.
Proof. repeat split; reflexivity. Qed.

(** The example installation: [switch] keeps two of its three catalog
    entries, copies one cover for each, and ignores the empty [videos]
    directory. *)
Example sync_switch_run :
  exists s e,
    main (demo_args "switch" "covers,videos" false false) None demo_world empty_device
    = Ok (Synced s e)
    /\ games_total_in_master s = 3 /\ games_kept s = 2
    /\ media_files_copied s = 2 /\ media_files_skipped s = 0
    /\ media_categories_attempted s = 2 /\ media_categories_missing s = 0
    /\ categories_ignored_empty_or_missing s = 1
    /\ gamelists_written s = 1.
Proof. do 2 eexists. split; [vm_compute; reflexivity|]. repeat split. Qed.

(** Audit of [switch] and [snes]: without fuzzy matching [zelda.sfc] has no
    cover; with it, the prefix tier finds one. *)
Example audit_snes_run :
  (exists items,
     audit_missing_master demo_world [lit "switch"; lit "snes"]
       [lit "covers"; lit "videos"] false = Ok (items, 1)
     /\ map ai_rom_filename items = [lit "zelda.sfc"]
     /\ map missing_categories items = [[lit "covers"]])
  /\ audit_missing_master demo_world [lit "switch"; lit "snes"]
       [lit "covers"; lit "videos"] true = Ok ([], 0).
Proof.
  split; [|vm_compute; reflexivity].
  eexists. split; [vm_compute; reflexivity|]. split; reflexivity.
Qed.

(** ** Characters *)

Ltac each_char c := destruct c as [[] [] [] [] [] [] [] []].

Lemma to_lower_upper (c : ascii) : to_lower (to_upper c) = to_lower c.
Proof. each_char c; reflexivity. Qed.

Lemma word_char_lower_fixed (c : ascii) :
  is_lower c || is_digit c || is_space c = true -> to_lower c = c.
Proof. each_char c; intros H; try reflexivity; discriminate H. Qed.

Lemma str_eqb_eq (a b : str) : str_eqb a b = true <-> a = b.
Proof.
  revert b; induction a as [|x a IH]; intros [|y b]; simpl; split; intros H;
    try reflexivity; try discriminate.
  - apply andb_true_iff in H as [Hx Hr].
    apply Ascii.eqb_eq in Hx. apply IH in Hr. congruence.
  - injection H as -> ->. rewrite Ascii.eqb_refl. simpl. now apply IH.
Qed.

Lemma str_eqb_refl (a : str) : str_eqb a a = true.
Proof. now apply str_eqb_eq. Qed.

Lemma str_eqb_neq (a b : str) : str_eqb a b = false <-> a <> b.
Proof.
  split; intros H.
  - intros ->. rewrite str_eqb_refl in H. discriminate.
  - destruct (str_eqb a b) eqn:E; [|reflexivity].
    apply str_eqb_eq in E. contradiction.
Qed.

Lemma str_eqb_sym (a b : str) : str_eqb a b = str_eqb b a.
Proof.
  destruct (str_eqb a b) eqn:E.
  - apply str_eqb_eq in E. subst. now rewrite str_eqb_refl.
  - symmetry. apply str_eqb_neq. apply str_eqb_neq in E. congruence.
Qed.

Lemma mem_In (x : str) (l : list str) : mem x l = true <-> In x l.
Proof.
  unfold mem. rewrite existsb_exists. split.
  - intros [y [Hy E]]. apply str_eqb_eq in E. now subst.
  - intros H. exists x. split; [assumption|apply str_eqb_refl].
Qed.

Lemma mem_not_In (x : str) (l : list str) : mem x l = false <-> ~ In x l.
Proof.
  split; intros H.
  - intros Hin. apply mem_In in Hin. congruence.
  - destruct (mem x l) eqn:E; [|reflexivity]. apply mem_In in E. contradiction.
Qed.

(** ** [normalize_stem_loose] *)

Lemma sub_runs_keeps_class (b : bool) (s : str) :
  Forall (fun c => is_lower c || is_digit c || is_space c = true)
         (sub_runs not_word_or_space b s).
Proof.
  revert b; induction s as [|c t IH]; intros b; simpl; [constructor|].
  unfold not_word_or_space at 1.
  destruct (is_lower c || is_digit c || is_space c) eqn:E; simpl.
  - constructor; [assumption|apply IH].
  - destruct b; [apply IH|]. constructor; [reflexivity|apply IH].
Qed.

Lemma sub_runs_space_tidy (b : bool) (s : str) :
  Forall (fun c => is_lower c || is_digit c || is_space c = true) s ->
  tidy b (sub_runs is_space b s) = true.
Proof.
  intros H; revert b; induction H as [|c t Hc _ IH]; intros b; simpl; [reflexivity|].
  destruct (is_space c) eqn:E.
  - destruct b; [apply IH|]. simpl. apply IH.
  - simpl. rewrite E. rewrite orb_false_r in Hc. rewrite Hc. apply IH.
Qed.

Lemma lstrip_tidy (b : bool) (s : str) :
  tidy b s = true -> tidy false (lstrip s) = true.
Proof.
  revert b; induction s as [|c t IH]; intros b H; simpl; [reflexivity|].
  simpl in H. destruct (is_space c) eqn:E.
  - apply andb_true_iff in H as [_ H]. now apply IH in H.
  - simpl. now rewrite E.
Qed.

Lemma rstrip_tidy (b : bool) (s : str) :
  tidy b s = true -> tidy b (rstrip s) = true.
Proof.
  revert b; induction s as [|c t IH]; intros b H; simpl; [reflexivity|].
  simpl in H. destruct (is_space c) eqn:E.
  - apply andb_true_iff in H as [H1 H2]. specialize (IH _ H2).
    destruct (rstrip t) as [|d u] eqn:R; [reflexivity|].
    cbn [tidy]. rewrite E, H1. exact IH.
  - apply andb_true_iff in H as [H1 H2]. specialize (IH _ H2).
    destruct (rstrip t) as [|d u] eqn:R.
    + cbn [tidy]. now rewrite E, H1.
    + cbn [tidy]. rewrite E, H1. exact IH.
Qed.

Lemma rstrip_idem (s : str) : rstrip (rstrip s) = rstrip s.
Proof.
  induction s as [|c t IH]; simpl; [reflexivity|].
  destruct (rstrip t) as [|d u] eqn:R.
  - destruct (is_space c) eqn:E; simpl; [reflexivity|now rewrite E].
  - cbn [rstrip]. cbn [rstrip] in IH. rewrite IH. reflexivity.
Qed.

Lemma lstrip_head (s : str) :
  match lstrip s with
  | [] => True
  | c :: _ => is_space c = false
  end.
Proof.
  induction s as [|c t IH]; simpl; [trivial|].
  destruct (is_space c) eqn:E; [exact IH|exact E].
Qed.

Lemma rstrip_head (s : str) :
  match s with
  | [] => True
  | c :: _ => is_space c = false
  end ->
  match rstrip s with
  | [] => s = []
  | c :: _ => is_space c = false
  end.
Proof.
  destruct s as [|c t]; simpl; [trivial|].
  intros E. rewrite E. destruct (rstrip t); exact E.
Qed.

Lemma strip_idem (s : str) : strip (strip s) = strip s.
Proof.
  unfold strip.
  pose proof (rstrip_head (lstrip s) (lstrip_head s)) as H.
  destruct (rstrip (lstrip s)) as [|c u] eqn:R; [reflexivity|].
  cbn [lstrip]. rewrite H. rewrite <- R. apply rstrip_idem.
Qed.

Lemma tidy_fixed_lower (b : bool) (s : str) : tidy b s = true -> lower s = s.
Proof.
  revert b; induction s as [|c t IH]; intros b H; simpl; [reflexivity|].
  simpl in H. destruct (is_space c) eqn:E.
  - apply andb_true_iff in H as [_ H]. rewrite (IH _ H).
    rewrite word_char_lower_fixed; [reflexivity|]. rewrite E. apply orb_true_r.
  - apply andb_true_iff in H as [Hc H]. rewrite (IH _ H).
    rewrite word_char_lower_fixed; [reflexivity|]. now rewrite Hc.
Qed.

Lemma tidy_fixed_punct (b b' : bool) (s : str) :
  tidy b s = true -> sub_runs not_word_or_space b' s = s.
Proof.
  revert b b'; induction s as [|c t IH]; intros b b' H; simpl; [reflexivity|].
  simpl in H. unfold not_word_or_space at 1. destruct (is_space c) eqn:E.
  - apply andb_true_iff in H as [_ H]. rewrite orb_true_r. simpl.
    now rewrite (IH _ _ H).
  - apply andb_true_iff in H as [Hc H]. rewrite Hc. simpl.
    now rewrite (IH _ _ H).
Qed.

Lemma tidy_fixed_spaces (b : bool) (s : str) :
  tidy b s = true -> sub_runs is_space b s = s.
Proof.
  revert b; induction s as [|c t IH]; intros b H; simpl; [reflexivity|].
  simpl in H. destruct (is_space c) eqn:E.
  - apply andb_true_iff in H as [H1 H]. apply andb_true_iff in H1 as [Hc Hb].
    apply Ascii.eqb_eq in Hc. destruct b; [discriminate|].
    rewrite (IH _ H). now rewrite Hc.
  - apply andb_true_iff in H as [_ H]. now rewrite (IH _ H).
Qed.

Lemma normalize_stem_loose_tidy (s : str) :
  tidy false (normalize_stem_loose s) = true.
Proof.
  unfold normalize_stem_loose, strip.
  apply rstrip_tidy. apply (@lstrip_tidy false).
  apply sub_runs_space_tidy. apply sub_runs_keeps_class.
Qed.

Lemma to_lower_swap_ascii_case (c : ascii) : to_lower (swap_ascii_case c) = to_lower c.
Proof. each_char c; reflexivity. Qed.

Lemma lower_change_ascii_case (mask : list bool) (s : str) :
  lower (change_ascii_case mask s) = lower s.
Proof.
  revert mask; induction s as [|c t IH]; intros [|b m]; simpl; try reflexivity.
  rewrite IH. destruct b; [now rewrite to_lower_swap_ascii_case|reflexivity].
Qed.

(** C9 (as the code has it).  [normalize_stem_loose] is idempotent on
    every string, and it does not see the case of ASCII letters: changing
    the case of any ASCII letters of [s] (those selected by [mask], or
    upper-casing all of them) leaves the result unchanged, whatever else
    [s] holds. *)
Theorem normalize_stem_loose_idempotent_ascii_caseless :
  (forall s, normalize_stem_loose (normalize_stem_loose s) = normalize_stem_loose s)
  /\ (forall mask s,
        normalize_stem_loose (change_ascii_case mask s) = normalize_stem_loose s)
  /\ (forall s, normalize_stem_loose (map to_upper s) = normalize_stem_loose s).
Proof.
  split; [|split].
  - intros s. pose proof (normalize_stem_loose_tidy s) as T.
    set (r := normalize_stem_loose s) in *.
    assert (S : strip r = r).
    { subst r. unfold normalize_stem_loose. apply strip_idem. }
    unfold normalize_stem_loose at 1.
    rewrite (tidy_fixed_lower _ _ T), (tidy_fixed_punct _ false _ T),
      (tidy_fixed_spaces _ _ T).
    exact S.
  - intros mask s. unfold normalize_stem_loose. now rewrite lower_change_ascii_case.
  - intros s. unfold normalize_stem_loose. f_equal. f_equal. f_equal.
    unfold lower. rewrite map_map. apply map_ext. apply to_lower_upper.
Qed.

(** C9, the claim as worded fails for letters outside ASCII: the upper-case
    form of [Stra\195\159e] (sharp s, as Python's [upper] gives it) is
    [STRASSE], and the two have different normalized stems, because the
    lower-case sharp s is not in [a-z] and becomes a space. *)
Lemma sharp_s_case_changes_stem :
  let s := lit "Stra" ++ eszett ++ lit "e" in
  upper s = Some (lit "STRASSE")
  /\ normalize_stem_loose s = lit "stra e"
  /\ normalize_stem_loose (lit "STRASSE") = lit "strasse"
  /\ normalize_stem_loose s <> normalize_stem_loose (lit "STRASSE").
Proof.
  cbv zeta. split; [reflexivity|]. split; [reflexivity|]. split; [reflexivity|].
  vm_compute. discriminate.
Qed.

(** ** Dictionaries *)

Lemma dict_get_In {V} (k : str) (d : dict V) (v : V) :
  dict_get k d = Some v -> In (k, v) d.
Proof.
  induction d as [|[k' v'] r IH]; simpl; [discriminate|].
  destruct (str_eqb k' k) eqn:E.
  - intros [= ->]. apply str_eqb_eq in E. subst. now left.
  - intros H. right. now apply IH.
Qed.

Lemma dict_get_set_same {V} (k : str) (v : V) (d : dict V) :
  dict_get k (dict_set k v d) = Some v.
Proof.
  induction d as [|[k' v'] r IH]; simpl.
  - now rewrite str_eqb_refl.
  - destruct (str_eqb k' k) eqn:E; simpl; rewrite E; [reflexivity|exact IH].
Qed.

Lemma dict_append_no_empty_bucket (k : str) (x : media_file) (d : media_index) :
  no_empty_bucket d -> no_empty_bucket (dict_append k x d).
Proof.
  unfold no_empty_bucket. induction 1 as [|[k' xs] r Hx IH0 IH]; simpl.
  - constructor; [simpl; discriminate|constructor].
  - destruct (str_eqb k' k).
    + constructor; [|exact IH0]. simpl. now destruct xs.
    + constructor; [exact Hx|apply IH].
Qed.

(** ** Media index *)

Lemma index_files_buckets (fuzzy : bool) (listing : list entry)
  (acc : media_index * media_index * nat) :
  no_empty_bucket (fst (fst acc)) /\ no_empty_bucket (snd (fst acc)) ->
  no_empty_bucket (fst (fst (fold_left (index_file fuzzy) listing acc)))
  /\ no_empty_bucket (snd (fst (fold_left (index_file fuzzy) listing acc))).
Proof.
  revert acc. induction listing as [|f rest IH]; intros acc H; simpl; [exact H|].
  apply IH. destruct acc as [[ex nm] tot]. destruct f as [name content|]; [|exact H].
  simpl in *. destruct H as [H1 H2]. split.
  - now apply dict_append_no_empty_bucket.
  - destruct fuzzy; [now apply dict_append_no_empty_bucket|assumption].
Qed.

Lemma build_media_index_buckets (dir : option (list entry)) (fuzzy : bool) :
  no_empty_bucket (fst (fst (build_media_index dir fuzzy)))
  /\ no_empty_bucket (snd (fst (build_media_index dir fuzzy))).
Proof.
  unfold build_media_index. destruct dir as [listing|]; [|split; constructor].
  apply index_files_buckets. split; constructor.
Qed.

(** ** Matching tiers *)

Lemma prefix_tier_In (exact_idx : media_index) (rom_stem : str) (f : media_file) :
  In f (prefix_tier exact_idx rom_stem) <->
  exists k files, In (k, files) exact_idx /\ startswith rom_stem k = true /\ In f files.
Proof.
  unfold prefix_tier. rewrite in_flat_map. split.
  - intros [[k files] [Hin Hf]]. simpl in Hf.
    destruct (startswith rom_stem k) eqn:E; [|contradiction].
    now exists k, files.
  - intros [k [files [Hin [E Hf]]]]. exists (k, files). split; [assumption|].
    simpl. now rewrite E.
Qed.

(** C6. The tiers are tried in order and the first non-empty one is the
    result: the exact-stem bucket; then, only with fuzzy matching on and
    an empty exact tier, the normalized-stem bucket; then, only if that is
    empty too, the files of every exact-index key that starts with the stem.
    For an index built by [build_media_index], a stem that is a key of the
    exact index gets exactly its bucket, which is not empty. *)
Theorem find_matches_tiers
  (exact_idx norm_idx : media_index) (fuzzy : bool) (rom_stem rom_stem_norm : str) :
  let exact := dict_get_or_empty rom_stem exact_idx in
  let norm := dict_get_or_empty rom_stem_norm norm_idx in
  let result := find_matches exact_idx norm_idx fuzzy rom_stem rom_stem_norm in
  (exact <> [] -> result = exact)
  /\ (exact = [] -> fuzzy = false -> result = [])
  /\ (exact = [] -> fuzzy = true -> norm <> [] -> result = norm)
  /\ (exact = [] -> fuzzy = true -> norm = [] ->
      result = prefix_tier exact_idx rom_stem
      /\ forall f, In f result <->
           exists k files, In (k, files) exact_idx
                           /\ startswith rom_stem k = true /\ In f files)
  /\ (forall dir fz,
        exact_idx = fst (fst (build_media_index dir fz)) ->
        dict_has rom_stem exact_idx = true ->
        result = exact /\ result <> []).
Proof.
  cbv zeta. unfold find_matches.
  split; [|split; [|split; [|split]]].
  - destruct (dict_get_or_empty rom_stem exact_idx); congruence.
  - intros -> ->. reflexivity.
  - intros -> -> H. destruct (dict_get_or_empty rom_stem_norm norm_idx); congruence.
  - intros -> -> ->. split; [reflexivity|]. intros f. apply prefix_tier_In.
  - intros dir fz H E. unfold dict_has, dict_get_or_empty in *.
    destruct (dict_get rom_stem exact_idx) as [v|] eqn:G; [|discriminate].
    apply dict_get_In in G.
    pose proof (proj1 (build_media_index_buckets dir fz)) as B.
    rewrite <- H in B. unfold no_empty_bucket in B. rewrite Forall_forall in B.
    specialize (B _ G). simpl in B.
    destruct v; [contradiction|]. split; [reflexivity|discriminate].
Qed.

(** ** Category inference *)

Lemma index_of_app (x : str) (pre tail : list str) :
  ~ In x pre ->
  index_of x (pre ++ x :: tail) = List.length pre
  /\ mem x (pre ++ x :: tail) = true.
Proof.
  intros N. split.
  - induction pre as [|y pre IH]; simpl.
    + now rewrite str_eqb_refl.
    + destruct (str_eqb y x) eqn:E.
      * apply str_eqb_eq in E. subst. exfalso. apply N. now left.
      * f_equal. apply IH. intros H. apply N. now right.
  - apply mem_In. apply in_or_app. right. now left.
Qed.

Lemma index_of_split (x : str) (l : list str) :
  mem x l = true ->
  exists pre tail,
    l = pre ++ x :: tail /\ ~ In x pre /\ index_of x l = List.length pre.
Proof.
  induction l as [|y l IH]; simpl; [discriminate|].
  rewrite (str_eqb_sym x y).
  destruct (str_eqb y x) eqn:E; simpl.
  - intros _. apply str_eqb_eq in E. subst.
    exists [], l. repeat split. intros [].
  - intros H. destruct (IH H) as [pre [tail [-> [N I]]]].
    exists (y :: pre), tail. repeat split.
    + intros [->|Hin]; [|contradiction].
      rewrite str_eqb_refl in E. discriminate.
    + simpl. now rewrite I.
Qed.

Lemma nth_after_prefix (pre : list str) (k : nat) (l : list str) :
  nth (List.length pre + k) (pre ++ l) [] = nth k l [].
Proof.
  induction pre as [|y pre IH]; simpl; [reflexivity|exact IH].
Qed.

Lemma known_or_none_known (c r : str) :
  known_or_none c = Some r -> r = c /\ In r MEDIA_CATEGORIES_ALL.
Proof.
  unfold known_or_none. destruct (mem c MEDIA_CATEGORIES_ALL) eqn:E; [|discriminate].
  intros [= <-]. split; [reflexivity|now apply mem_In].
Qed.

(** Whatever rule answers, the answer is one of the known categories. *)
Lemma parse_category_known (text system cat : str) :
  parse_category_from_media_ref text system = Some cat ->
  In cat MEDIA_CATEGORIES_ALL.
Proof.
  unfold parse_category_from_media_ref. destruct text as [|c0 t0]; [discriminate|].
  set (parts := ref_parts (c0 :: t0)).
  destruct (mem (lit "downloaded_media") parts
            && (index_of (lit "downloaded_media") parts + 2 <? List.length parts)
            && str_eqb (lower (nth (index_of (lit "downloaded_media") parts + 1) parts []))
                       (lower system)).
  - intros H. now apply known_or_none_known in H.
  - destruct (mem (lower system) (map lower parts)
              && (index_of (lower system) (map lower parts) + 1
                  <? List.length (map lower parts))).
    + intros H. now apply known_or_none_known in H.
    + intros H. apply find_some in H as [_ H]. now apply mem_In.
Qed.

Lemma known_categories_nonempty (cat : str) :
  In cat MEDIA_CATEGORIES_ALL -> cat <> [].
Proof.
  intros H E. subst. apply mem_In in H. vm_compute in H. discriminate.
Qed.

(** The guard of rule 1 in the code holds exactly when [rule1_applies]. *)
Lemma rule1_guard (parts : list str) (system : str) :
  let i := index_of (lit "downloaded_media") parts in
  mem (lit "downloaded_media") parts
  && (i + 2 <? List.length parts)
  && str_eqb (lower (nth (i + 1) parts [])) (lower system) = true
  <-> rule1_applies parts system (nth (i + 2) parts []).
Proof.
  cbv zeta. split.
  - intros H. apply andb_true_iff in H as [H Hs]. apply andb_true_iff in H as [Hm Hl].
    apply Nat.ltb_lt in Hl. apply str_eqb_eq in Hs.
    destruct (index_of_split _ _ Hm) as [pre [tail [E [N I]]]].
    rewrite I in *. rewrite E in Hl. rewrite length_app in Hl. simpl in Hl.
    destruct tail as [|s [|c rest]]; simpl in Hl; try lia.
    subst parts. rewrite (nth_after_prefix pre 1) in Hs. simpl in Hs.
    rewrite (nth_after_prefix pre 2). simpl.
    exists pre, s, rest. repeat split; assumption.
  - intros [pre [s [rest [E [N Hs]]]]].
    remember (nth (index_of (lit "downloaded_media") parts + 2) parts []) as c eqn:Hc.
    clear Hc. subst parts.
    destruct (index_of_app _ _ (s :: c :: rest) N) as [I M].
    rewrite M, I. simpl.
    apply andb_true_iff. split.
    + apply Nat.ltb_lt. rewrite length_app. simpl. lia.
    + apply str_eqb_eq. rewrite (nth_after_prefix pre 1). exact Hs.
Qed.

Lemma rule1_applies_unique (parts : list str) (system c : str) :
  rule1_applies parts system c ->
  c = nth (index_of (lit "downloaded_media") parts + 2) parts [].
Proof.
  intros [pre [s [rest [E [N Hs]]]]].
  destruct (index_of_app _ _ (s :: c :: rest) N) as [I _].
  rewrite <- E in I. rewrite I. rewrite E.
  now rewrite (nth_after_prefix pre 2).
Qed.

Lemma rule2_guard (parts : list str) (system : str) :
  let lowered := map lower parts in
  let j := index_of (lower system) lowered in
  mem (lower system) lowered && (j + 1 <? List.length lowered) = true
  <-> rule2_applies parts system (nth (j + 1) lowered []).
Proof.
  cbv zeta. split.
  - intros H. apply andb_true_iff in H as [Hm Hl]. apply Nat.ltb_lt in Hl.
    destruct (index_of_split _ _ Hm) as [pre [tail [E [N I]]]].
    rewrite I in *. rewrite E in Hl. rewrite length_app in Hl. simpl in Hl.
    destruct tail as [|c rest]; simpl in Hl; try lia.
    rewrite E. rewrite (nth_after_prefix pre 1). simpl.
    exists pre, rest. split; assumption.
  - intros [pre [rest [E N]]].
    remember (nth (index_of (lower system) (map lower parts) + 1) (map lower parts) []) as c eqn:Hc.
    clear Hc. rewrite E.
    destruct (index_of_app _ _ (c :: rest) N) as [I M].
    rewrite M, I. simpl.
    apply Nat.ltb_lt. rewrite length_app. simpl. lia.
Qed.

Lemma rule2_applies_unique (parts : list str) (system c : str) :
  rule2_applies parts system c ->
  c = nth (index_of (lower system) (map lower parts) + 1) (map lower parts) [].
Proof.
  intros [pre [rest [E N]]].
  destruct (index_of_app _ _ (c :: rest) N) as [I _].
  rewrite <- E in I. rewrite I. rewrite E.
  now rewrite (nth_after_prefix pre 1).
Qed.

Lemma set_add_In (x c : str) (s : list str) :
  In c (set_add x s) <-> c = x \/ In c s.
Proof.
  unfold set_add. destruct (mem x s) eqn:E.
  - split; [now right|]. intros [->|H]; [now apply mem_In|assumption].
  - rewrite in_app_iff. simpl. split.
    + intros [H|[H|[]]]; [now right|now left].
    + intros [H|H]; [right; now left|now left].
Qed.

Lemma expected_step_In (system : str) (selected acc : list str)
  (child : element) (cat : str) :
  In cat (expected_step system selected acc child)
  <-> In cat acc
      \/ (In cat selected
          /\ exists raw,
               text child = Some raw
               /\ looks_like_media_ref (strip raw) = true
               /\ parse_category_from_media_ref (strip raw) system = Some cat).
Proof.
  unfold expected_step.
  destruct (text child) as [raw|] eqn:T.
  2:{ split; [now left|]. intros [H|[_ [r [H _]]]]; [assumption|discriminate]. }
  cbv zeta. destruct (strip raw) as [|c0 t0] eqn:S.
  { split; [now left|]. intros [H|[_ [r [[= <-] [_ P]]]]]; [assumption|].
    rewrite S in P. discriminate. }
  destruct (looks_like_media_ref (c0 :: t0)) eqn:L; cbn [negb].
  2:{ split; [now left|]. intros [H|[_ [r [[= <-] [L' _]]]]]; [assumption|].
      rewrite S in L'. congruence. }
  destruct (parse_category_from_media_ref (c0 :: t0) system) as [found|] eqn:P.
  2:{ split; [now left|]. intros [H|[_ [r [[= <-] [_ P']]]]]; [assumption|].
      rewrite S in P'. congruence. }
  assert (Tr : truthy (Some found) = true).
  { pose proof (known_categories_nonempty _ (parse_category_known _ _ _ P)) as NE.
    destruct found; [contradiction|reflexivity]. }
  rewrite Tr. cbn [andb].
  destruct (mem found selected) eqn:M.
  - rewrite set_add_In. split.
    + intros [->|H]; [|now left]. right. split; [now apply mem_In|].
      exists raw. rewrite S. auto.
    + intros [H|[_ [r [[= <-] [_ P']]]]]; [now right|].
      rewrite S in P'. left. congruence.
  - split; [now left|]. intros [H|[Hs [r [[= <-] [_ P']]]]]; [assumption|].
    rewrite S in P'. assert (found = cat) by congruence. subst.
    apply mem_In in Hs. congruence.
Qed.

Lemma expected_fold_In (system : str) (selected : list str)
  (fields : list element) (acc : list str) (cat : str) :
  In cat (fold_left (expected_step system selected) fields acc)
  <-> In cat acc
      \/ (In cat selected
          /\ exists child raw,
               In child fields
               /\ text child = Some raw
               /\ looks_like_media_ref (strip raw) = true
               /\ parse_category_from_media_ref (strip raw) system = Some cat).
Proof.
  revert acc. induction fields as [|child rest IH]; intros acc; simpl.
  - split; [now left|]. intros [H|[_ [c [r [[] _]]]]]. exact H.
  - rewrite IH, expected_step_In. clear IH. split.
    + intros [[H|[Hs [raw H]]]|[Hs [c [raw [Hin H]]]]].
      * now left.
      * right. split; [assumption|]. exists child, raw. split; [now left|assumption].
      * right. split; [assumption|]. exists c, raw. split; [now right|assumption].
    + intros [H|[Hs [c [raw [[<-|Hin] H]]]]].
      * left. now left.
      * left. right. split; [assumption|]. now exists raw.
      * right. split; [assumption|]. now exists c, raw.
Qed.

Lemma expected_categories_In (game : element) (system : str)
  (selected : list str) (cat : str) :
  In cat (expected_categories_from_game_xml game system selected)
  <-> field_gives game system cat /\ In cat selected.
Proof.
  unfold expected_categories_from_game_xml, field_gives.
  rewrite expected_fold_In. simpl. split.
  - intros [[]|[Hs [c [r H]]]]. split; [|assumption]. now exists c, r.
  - intros [[c [r H]] Hs]. right. split; [assumption|]. now exists c, r.
Qed.

(** C4 (as the code has it).  Three rules, tried in order.  Rule 1: when
    the first [downloaded_media] segment is followed by a segment equal to
    the system (ignoring case) and by a further segment, that further
    segment, lower-cased, is the answer if it is a known category and there
    is no answer otherwise.  Rule 2: else, when the first segment equal to
    the system (ignoring case) is followed by a further segment, that
    segment decides in the same way.  Rule 3: else the first segment that is
    a known category (ignoring case); so some category is found whenever
    rules 1 and 2 do not apply and a segment is a known category.  A
    category is in the expected set of a game exactly when a field of the
    game resolves to it and it is selected. *)
Theorem parse_category_ordered_rules (system : str) :
  (forall text c, text <> [] ->
     rule1_applies (ref_parts text) system c ->
     parse_category_from_media_ref text system = known_or_none (lower c))
  /\ (forall text c, text <> [] ->
        (forall c1, ~ rule1_applies (ref_parts text) system c1) ->
        rule2_applies (ref_parts text) system c ->
        parse_category_from_media_ref text system = known_or_none c)
  /\ (forall text, text <> [] ->
        (forall c1, ~ rule1_applies (ref_parts text) system c1) ->
        (forall c2, ~ rule2_applies (ref_parts text) system c2) ->
        parse_category_from_media_ref text system
        = find (fun p => mem p MEDIA_CATEGORIES_ALL) (map lower (ref_parts text))
        /\ forall seg, In seg (ref_parts text) -> is_known seg = true ->
             exists cat, parse_category_from_media_ref text system = Some cat
                         /\ In cat (map lower (ref_parts text))
                         /\ In cat MEDIA_CATEGORIES_ALL)
  /\ (forall game selected cat,
        In cat (expected_categories_from_game_xml game system selected)
        <-> field_gives game system cat /\ In cat selected).
Proof.
  split; [|split; [|split]].
  - intros text c NE R1. unfold parse_category_from_media_ref.
    destruct text as [|c0 t0]; [contradiction|].
    rewrite (rule1_applies_unique _ _ _ R1) in R1 |- *.
    apply rule1_guard in R1. cbv zeta in R1. cbv zeta. now rewrite R1.
  - intros text c NE N1 R2. unfold parse_category_from_media_ref.
    destruct text as [|c0 t0]; [contradiction|]. cbv zeta.
    destruct (mem (lit "downloaded_media") (ref_parts (c0 :: t0)) && _ && _) eqn:G1.
    { apply rule1_guard in G1. now apply N1 in G1. }
    rewrite (rule2_applies_unique _ _ _ R2) in R2 |- *.
    apply rule2_guard in R2. cbv zeta in R2. now rewrite R2.
  - intros text NE N1 N2. unfold parse_category_from_media_ref.
    destruct text as [|c0 t0]; [contradiction|]. cbv zeta.
    destruct (mem (lit "downloaded_media") (ref_parts (c0 :: t0)) && _ && _) eqn:G1.
    { apply rule1_guard in G1. now apply N1 in G1. }
    destruct (mem (lower system) (map lower (ref_parts (c0 :: t0))) && _) eqn:G2.
    { apply rule2_guard in G2. now apply N2 in G2. }
    split; [reflexivity|]. intros seg Hin K.
    destruct (find (fun p => mem p MEDIA_CATEGORIES_ALL)
                   (map lower (ref_parts (c0 :: t0)))) as [cat|] eqn:F.
    + apply find_some in F as [F1 F2]. exists cat. repeat split;
        [assumption|now apply mem_In].
    + exfalso. unfold is_known in K.
      rewrite (find_none _ _ F (lower seg)) in K; [discriminate|].
      now apply in_map.
  - intros game selected cat. apply expected_categories_In.
Qed.

(** C4, the claim as worded fails: with rules 1 and 2 read as in the
    specification, neither matches the text below and the segment [covers] is
    a known category, so rule 3 should answer [covers]; the code stops at
    rule 2 (the segment after the system, [extras], is not a category) and
    answers nothing. *)
Lemma parse_category_rule3_shadowed :
  let text := lit "switch/extras/covers/a.png" in
  let system := lit "switch" in
  spec_rule1 system (ref_parts text) = None
  /\ spec_rule2 system (ref_parts text) = None
  /\ In (lit "covers") (ref_parts text)
  /\ In (lit "covers") MEDIA_CATEGORIES_ALL
  /\ spec_parse_category text system = Some (lit "covers")
  /\ parse_category_from_media_ref text system = None.
Proof.
  cbv zeta. repeat split; try reflexivity.
  - vm_compute. tauto.
  - vm_compute. tauto.
Qed.

(** ** Category selection *)

Lemma filter_nil_iff {A} (p : A -> bool) (l : list A) :
  filter p l = [] <-> forall x, In x l -> p x = false.
Proof.
  induction l as [|a l IH]; simpl.
  - split; [intros _ x []|reflexivity].
  - destruct (p a) eqn:E.
    + split; [discriminate|]. intros H. specialize (H a (or_introl eq_refl)). congruence.
    + rewrite IH. split.
      * intros H x [<-|Hin]; [assumption|now apply H].
      * intros H x Hin. apply H. now right.
Qed.

(** C8 (as the code has it).  The recognized names are the twelve names
    below, spelled without hyphens.  A selection made only of them is
    returned as it is; a selection with any other name raises [SystemExit]
    listing the offending names, and then [main] ends with an exception
    before it looks at any system. *)
Theorem resolve_media_categories_enumeration :
  MEDIA_CATEGORIES_ALL
  = map lit [ "3dboxes"; "backcovers"; "covers"; "custom"; "fanart"; "manuals";
              "marquees"; "miximages"; "physicalmedia"; "screenshots";
              "titlescreens"; "videos" ]%string
  /\ (forall args profiles_file,
        (forall m, In m (requested_media_categories args profiles_file) ->
                   In m MEDIA_CATEGORIES_ALL) ->
        resolve_media_categories args profiles_file
        = Ok (requested_media_categories args profiles_file))
  /\ (forall args profiles_file m,
        In m (requested_media_categories args profiles_file) ->
        ~ In m MEDIA_CATEGORIES_ALL ->
        let invalid :=
          filter (fun m => negb (mem m MEDIA_CATEGORIES_ALL))
                 (requested_media_categories args profiles_file) in
        In m invalid
        /\ resolve_media_categories args profiles_file
           = Raise (SystemExitInvalidCategories invalid)
        /\ forall w e0,
             main args profiles_file w e0
             = match validate_sd_root w with
               | Ok _ => Raise (SystemExitInvalidCategories invalid)
               | Raise missing_folder => Raise missing_folder
               end).
Proof.
  split; [reflexivity|split].
  - intros args pf H. unfold resolve_media_categories.
    replace (filter (fun m => negb (mem m MEDIA_CATEGORIES_ALL))
                    (requested_media_categories args pf)) with (@nil str);
      [reflexivity|].
    symmetry. apply filter_nil_iff. intros x Hx.
    apply H in Hx. apply mem_In in Hx. now rewrite Hx.
  - intros args pf m Hin Hbad.
    assert (Hf : In m (filter (fun m => negb (mem m MEDIA_CATEGORIES_ALL))
                              (requested_media_categories args pf))).
    { apply filter_In. split; [assumption|]. apply mem_not_In in Hbad. now rewrite Hbad. }
    assert (R : resolve_media_categories args pf
                = Raise (SystemExitInvalidCategories
                           (filter (fun m => negb (mem m MEDIA_CATEGORIES_ALL))
                                   (requested_media_categories args pf)))).
    { unfold resolve_media_categories.
      destruct (filter (fun m => negb (mem m MEDIA_CATEGORIES_ALL))
                       (requested_media_categories args pf)); [contradiction|reflexivity]. }
    cbv zeta. split; [exact Hf|]. split; [exact R|].
    intros w e0. unfold main.
    destruct (validate_sd_root w) as [[]|e]; simpl; [|reflexivity].
    rewrite R. reflexivity.
Qed.

(** C8, the claim as worded fails: [3d-boxes], a name of the specification's
    enumeration, is not accepted; the run stops with [SystemExit]. *)
Lemma hyphenated_category_rejected :
  In (lit "3d-boxes") spec_category_names
  /\ resolve_media_categories (args_with_media (lit "3d-boxes") false) None
     = Raise (SystemExitInvalidCategories [lit "3d-boxes"]).
Proof.
  split; [now left|reflexivity].
Qed.

(** A selection made through [--profile]: the profile is looked up under
    its full name; a profile that lists an unknown name is rejected; a
    profile name the file does not have gives the default selection. *)
Example profile_selection_examples :
  let profiles :=
    Some [ (lit "full", [lit "covers"; lit "videos"]);
           (lit "bad", [lit "covers"; lit "cover-art"]) ] in
  let with_profile (name : string) :=
    {| arg_profile := lit name; arg_media := []; arg_systems := [];
       arg_dry_run := false; arg_backup_gamelist := false;
       arg_fuzzy_media_match := false; arg_report := false;
       arg_audit_missing_master := false |} in
  resolve_media_categories (with_profile " full "%string) profiles
  = Ok [lit "covers"; lit "videos"]
  /\ resolve_media_categories (with_profile "bad"%string) profiles
     = Raise (SystemExitInvalidCategories [lit "cover-art"])
  /\ resolve_media_categories (with_profile "xfull"%string) profiles
     = Ok (filter (fun m => negb (str_eqb m (lit "videos"))) MEDIA_CATEGORIES_ALL).
Proof. cbv zeta. repeat split. Qed.

(** ** The device's media store *)

Lemma media_path_eqb_eq (a b : media_path) : media_path_eqb a b = true <-> a = b.
Proof.
  destruct a as [[s1 c1] n1], b as [[s2 c2] n2]. simpl.
  rewrite !andb_true_iff, !str_eqb_eq. split.
  - intros [[-> ->] ->]. reflexivity.
  - intros [= -> -> ->]. auto.
Qed.

Lemma media_path_eqb_refl (a : media_path) : media_path_eqb a a = true.
Proof. now apply media_path_eqb_eq. Qed.

Lemma media_path_eqb_neq (a b : media_path) : media_path_eqb a b = false <-> a <> b.
Proof.
  split; intros H.
  - intros ->. rewrite media_path_eqb_refl in H. discriminate.
  - destruct (media_path_eqb a b) eqn:E; [|reflexivity].
    apply media_path_eqb_eq in E. contradiction.
Qed.

Lemma media_get_put_same (k : media_path) (f : file) (m : list (media_path * file)) :
  media_get k (media_put k f m) = Some f.
Proof.
  induction m as [|[k' f'] r IH]; simpl.
  - now rewrite media_path_eqb_refl.
  - destruct (media_path_eqb k' k) eqn:E; simpl; rewrite E; [reflexivity|exact IH].
Qed.

Lemma media_get_put_other (k k0 : media_path) (f : file) (m : list (media_path * file)) :
  k0 <> k -> media_get k (media_put k0 f m) = media_get k m.
Proof.
  intros N. induction m as [|[k' f'] r IH]; simpl.
  - apply media_path_eqb_neq in N. now rewrite N.
  - destruct (media_path_eqb k' k0) eqn:E; simpl.
    + apply media_path_eqb_eq in E. subst k'.
      apply media_path_eqb_neq in N. now rewrite N.
    + now rewrite IH.
Qed.

(** ** [copy_file] *)

Lemma ensure_dir_frame (p : list str) (dry_run : bool) (e : effects) :
  sd_media (fs (ensure_dir p dry_run e)) = sd_media (fs e)
  /\ sd_gamelists (fs (ensure_dir p dry_run e)) = sd_gamelists (fs e)
  /\ sd_backups (fs (ensure_dir p dry_run e)) = sd_backups (fs e)
  /\ stdout (ensure_dir p dry_run e) = stdout e.
Proof. unfold ensure_dir. destruct dry_run; simpl; auto. Qed.

Lemma same_size_spec (d s : file) :
  same_size d s = true <-> exists n, stat_size d = Some n /\ stat_size s = Some n.
Proof.
  unfold same_size. destruct (stat_size d) as [a|], (stat_size s) as [b|].
  - rewrite Nat.eqb_eq. split.
    + intros ->. now exists b.
    + intros [n [[= ->] [= ->]]]. reflexivity.
  - split; [discriminate|]. intros [n [_ H]]. discriminate.
  - split; [discriminate|]. intros [n [H _]]. discriminate.
  - split; [discriminate|]. intros [n [H _]]. discriminate.
Qed.

(** The skip test of [copy_file] on an existing source. *)
Lemma copy_file_skip_test (e : effects) (dst : media_path) (s : file) (p : list str)
  (dry_run : bool) :
  match media_get dst (sd_media (fs (ensure_dir p dry_run e))) with
  | Some d => same_size d s
  | None => false
  end = true
  <-> already_synced e dst s.
Proof.
  destruct (ensure_dir_frame p dry_run e) as [-> _].
  unfold already_synced. destruct (media_get dst (sd_media (fs e))) as [d|].
  - rewrite same_size_spec. split.
    + intros [n H]. now exists d, n.
    + intros [d' [n [[= <-] H]]]. now exists n.
  - split; [discriminate|]. intros [d [n [H _]]]. discriminate.
Qed.

(** C7. For a source file [s] and a destination [dst]:
    - when the destination exists and its size equals the source's,
      [copy_file] answers [skipped] and the device's files are unchanged;
    - when the destination exists but a [stat()] of the comparison raises
      [OSError], this is not a skip;
    - when it is not a skip, [copy_file] answers [copied]; outside preview
      mode the destination then holds the source's bytes and modification
      time and no other file changed (in preview mode the copy is only
      announced and nothing changes). *)
Theorem copy_file_skip_or_copy
  (path : media_path) (s : file) (dst : media_path) (dry_run : bool) (e : effects) :
  let src := {| src_path := path; src_node := Some s |} in
  (already_synced e dst s ->
     exists e', copy_file src dst dry_run e = Ok (skipped, e')
                /\ sd_media (fs e') = sd_media (fs e))
  /\ (forall d, media_get dst (sd_media (fs e)) = Some d ->
        stat_size d = None \/ stat_size s = None ->
        ~ already_synced e dst s)
  /\ (~ already_synced e dst s ->
        exists e', copy_file src dst dry_run e = Ok (copied, e')
          /\ (dry_run = false ->
                media_get dst (sd_media (fs e')) = Some (copy_of s)
                /\ f_data (copy_of s) = f_data s
                /\ f_mtime (copy_of s) = f_mtime s
                /\ forall k, k <> dst ->
                     media_get k (sd_media (fs e')) = media_get k (sd_media (fs e)))
          /\ (dry_run = true -> fs e' = fs e)).
Proof.
  cbv zeta. destruct dst as [[system cat] name].
  pose proof (copy_file_skip_test e (system, cat, name) s
                [lit "downloaded_media"; system; cat] dry_run) as T.
  split; [|split].
  - intros A. apply T in A. unfold copy_file. cbn [src_node].
    rewrite A. eexists. split; [reflexivity|]. apply ensure_dir_frame.
  - intros d Hd [H|H] [d' [n [Hd' [H1 H2]]]].
    + rewrite Hd in Hd'. injection Hd' as <-. congruence.
    + congruence.
  - intros A. unfold copy_file. cbn [src_node].
    destruct (match media_get (system, cat, name)
                      (sd_media (fs (ensure_dir [lit "downloaded_media"; system; cat] dry_run e)))
              with Some d => same_size d s | None => false end) eqn:B.
    { exfalso. apply A. now apply T. }
    clear T. destruct dry_run.
    + eexists. split; [reflexivity|]. split; [discriminate|]. intros _. reflexivity.
    + unfold copy2. cbn [src_node bind]. eexists. split; [reflexivity|].
      split; [|discriminate]. intros _. cbn [with_fs fs sd_media].
      destruct (ensure_dir_frame [lit "downloaded_media"; system; cat] false e) as [-> _].
      repeat split.
      * apply media_get_put_same.
      * intros k N. apply media_get_put_other. congruence.
Qed.

(** ** Counters *)

Ltac decisions_eq :=
  unfold decisions; simpl;
  repeat (apply (f_equal2 (@cons nat)); [lia|]); reflexivity.

Lemma decisions_add_to (c : counter) (n : nat) (s1 s2 : RunStats) :
  decisions s1 = decisions s2 ->
  decisions (add_to c n s1) = decisions (add_to c n s2).
Proof.
  unfold decisions. intros H. injection H as H1 H2 H3 H4 H5 H6 H7 H8.
  destruct c; decisions_eq.
Qed.

Lemma decisions_written (n : nat) (s : RunStats) :
  decisions (add_to c_gamelists_written n s) = decisions s.
Proof. decisions_eq. Qed.

Lemma decisions_account_category (s1 s2 : RunStats) (p : str * list media_file) :
  decisions s1 = decisions s2 ->
  decisions (account_category s1 p) = decisions (account_category s2 p).
Proof.
  intros H. unfold account_category.
  destruct (has_matches p); now repeat apply decisions_add_to.
Qed.

Lemma decisions_fold_account (plan : list (str * list media_file)) (s1 s2 : RunStats) :
  decisions s1 = decisions s2 ->
  decisions (fold_left account_category plan s1)
  = decisions (fold_left account_category plan s2).
Proof.
  revert s1 s2. induction plan as [|p plan IH]; intros s1 s2 H; simpl; [exact H|].
  apply IH. now apply decisions_account_category.
Qed.

(** ** Frames *)

Lemma catalogs_kept_refl (e : effects) : catalogs_kept e e.
Proof. unfold catalogs_kept. auto. Qed.

Lemma catalogs_kept_trans (e1 e2 e3 : effects) :
  catalogs_kept e1 e2 -> catalogs_kept e2 e3 -> catalogs_kept e1 e3.
Proof.
  unfold catalogs_kept. intros [A [B C]] [A' [B' C']]. repeat split; congruence.
Qed.

Lemma report_lines_app (a b : list message) :
  report_lines (a ++ b) = report_lines a ++ report_lines b.
Proof. unfold report_lines. apply flat_map_app. Qed.

(** [copy_file] from the index: the source exists, so the call returns. *)
Lemma copy_file_returns (path : media_path) (s : file) (dst : media_path)
  (dry_run : bool) (e : effects) :
  exists r e',
    copy_file {| src_path := path; src_node := Some s |} dst dry_run e = Ok (r, e')
    /\ catalogs_kept e e'.
Proof.
  destruct dst as [[system cat] name]. unfold copy_file. cbn [src_node].
  destruct (ensure_dir_frame [lit "downloaded_media"; system; cat] dry_run e)
    as [_ [G [B O]]].
  destruct (match media_get (system, cat, name) _ with
            | Some d => same_size d s | None => false end).
  - do 2 eexists. split; [reflexivity|]. unfold catalogs_kept. now rewrite G, B, O.
  - destruct dry_run.
    + do 2 eexists. split; [reflexivity|]. unfold catalogs_kept, print. simpl.
      rewrite report_lines_app. simpl. now rewrite app_nil_r.
    + unfold copy2. cbn [src_node bind]. do 2 eexists. split; [reflexivity|].
      unfold catalogs_kept. cbn [with_fs fs stdout sd_gamelists sd_backups].
      now rewrite G, B, O.
Qed.

Lemma copy_matches_returns (system cat : str) (dry_run : bool)
  (matches : list media_file) (s : RunStats) (e : effects) :
  exists s' e',
    copy_matches system cat dry_run matches (s, e) = Ok (s', e')
    /\ decisions s' = decisions (add_to c_media_files_copied (List.length matches) s)
    /\ gamelists_written s' = gamelists_written s
    /\ catalogs_kept e e'.
Proof.
  unfold copy_matches. revert s e.
  induction matches as [|[name content] rest IH]; intros s e.
  - exists s, e. simpl. repeat split; try apply catalogs_kept_refl.
    decisions_eq.
  - cbn [for_each]. unfold copy_match at 1.
    destruct (copy_file_returns (system, cat, name) content (system, cat, name) dry_run e)
      as [r [e1 [C K]]].
    rewrite C. cbn [bind].
    destruct r.
    + cbn [bind].
      destruct (IH (add_to c_media_files_copied 1 s) e1) as [s' [e' [R [D [W K']]]]].
      exists s', e'. split; [exact R|]. split; [|split].
      * rewrite D. decisions_eq.
      * rewrite W. simpl. lia.
      * eapply catalogs_kept_trans; eassumption.
    + cbn [bind].
      destruct (IH (add_to c_media_files_skipped 1 s) e1) as [s' [e' [R [D [W K']]]]].
      exists s', e'. split; [exact R|]. split; [|split].
      * rewrite D. decisions_eq.
      * rewrite W. simpl. lia.
      * eapply catalogs_kept_trans; eassumption.
Qed.

(** ** The loops of the pass *)

Lemma sync_category_returns (idx : cat_indexes) (system : str)
  (dry_run fuzzy : bool) (rom_filename : str) (g : game_state) (cat : str) :
  let rom_stem := lower (path_stem rom_filename) in
  let p := (cat, category_matches idx fuzzy rom_filename cat) in
  exists g',
    sync_category idx system dry_run fuzzy rom_stem (normalize_stem_loose rom_stem) g cat
    = Ok g'
    /\ decisions (g_stats g') = decisions (account_category (g_stats g) p)
    /\ gamelists_written (g_stats g') = gamelists_written (g_stats g)
    /\ matched_cats g' = matched_cats g ++ plan_matched [p]
    /\ missed_cats g' = missed_cats g ++ plan_missed [p]
    /\ catalogs_kept (g_eff g) (g_eff g').
Proof.
  cbv zeta. unfold sync_category, category_matches, account_category,
    plan_matched, plan_missed, has_matches. cbn [filter snd fst map].
  destruct (find_matches _ _ fuzzy _ _) as [|m ms] eqn:F.
  - eexists. split; [reflexivity|]. cbn [g_stats matched_cats missed_cats g_eff negb map].
    rewrite app_nil_r. repeat split; try apply catalogs_kept_refl.
    simpl. lia.
  - destruct (copy_matches_returns system cat dry_run (m :: ms)
                (add_to c_media_categories_attempted 1 (g_stats g)) (g_eff g))
      as [s' [e' [R [D [W K]]]]].
    rewrite R. cbn [bind fst snd]. eexists. split; [reflexivity|].
    cbn [g_stats matched_cats missed_cats g_eff negb map].
    rewrite app_nil_r. destruct K as [K1 [K2 K3]].
    repeat split; try assumption.
    rewrite W. simpl. lia.
Qed.

Lemma plan_matched_app (a b : list (str * list media_file)) :
  plan_matched (a ++ b) = plan_matched a ++ plan_matched b.
Proof. unfold plan_matched. now rewrite filter_app, map_app. Qed.

Lemma plan_missed_app (a b : list (str * list media_file)) :
  plan_missed (a ++ b) = plan_missed a ++ plan_missed b.
Proof. unfold plan_missed. now rewrite filter_app, map_app. Qed.

Lemma sync_categories_return (idx : cat_indexes) (system : str)
  (dry_run fuzzy : bool) (rom_filename : str) (cats : list str) (g : game_state) :
  let rom_stem := lower (path_stem rom_filename) in
  let plan := map (fun cat => (cat, category_matches idx fuzzy rom_filename cat)) cats in
  exists g',
    for_each
      (sync_category idx system dry_run fuzzy rom_stem (normalize_stem_loose rom_stem))
      cats g = Ok g'
    /\ decisions (g_stats g') = decisions (fold_left account_category plan (g_stats g))
    /\ gamelists_written (g_stats g') = gamelists_written (g_stats g)
    /\ matched_cats g' = matched_cats g ++ plan_matched plan
    /\ missed_cats g' = missed_cats g ++ plan_missed plan
    /\ catalogs_kept (g_eff g) (g_eff g').
Proof.
  cbv zeta. revert g. induction cats as [|cat rest IH]; intros g.
  - exists g. simpl. rewrite !app_nil_r. repeat split.
  - cbn [for_each map].
    destruct (sync_category_returns idx system dry_run fuzzy rom_filename g cat)
      as [g1 [R1 [D1 [W1 [M1 [X1 K1]]]]]].
    cbv zeta in R1. rewrite R1. cbn [bind].
    destruct (IH g1) as [g' [R [D [W [M [X K]]]]]].
    exists g'. split; [exact R|]. repeat split.
    + rewrite D. cbn [fold_left]. now apply decisions_fold_account.
    + congruence.
    + rewrite M, M1. rewrite <- app_assoc. f_equal.
      change (?a :: ?l) with ([a] ++ l) at 2. now rewrite plan_matched_app.
    + rewrite X, X1. rewrite <- app_assoc. f_equal.
      change (?a :: ?l) with ([a] ++ l) at 2. now rewrite plan_missed_app.
    + destruct K as [? [? ?]], K1 as [? [? ?]]. congruence.
    + destruct K as [? [? ?]], K1 as [? [? ?]]. congruence.
    + destruct K as [? [? ?]], K1 as [? [? ?]]. congruence.
Qed.

Lemma sync_game_skips (idx : cat_indexes) (system : str) (roms : list str)
  (dry_run fuzzy report : bool) (st : pass_state) (game : element) :
  keeps roms game = false ->
  sync_game idx system roms dry_run fuzzy report st game = Ok st.
Proof.
  unfold keeps, sync_game.
  destruct (find_child (lit "path") game) as [p|]; [|reflexivity].
  destruct (text p) as [[|c t]|]; try reflexivity.
  intros ->. reflexivity.
Qed.

Lemma sync_game_keeps (idx : cat_indexes) (system : str) (roms : list str)
  (dry_run fuzzy report : bool) (st : pass_state) (game : element) :
  keeps roms game = true ->
  exists st',
    sync_game idx system roms dry_run fuzzy report st game = Ok st'
    /\ new_root st' = new_root st ++ [game]
    /\ kept st' = S (kept st)
    /\ decisions (stats st')
       = decisions (account_game (stats st) (game_plan idx system fuzzy game))
    /\ gamelists_written (stats st') = gamelists_written (stats st)
    /\ sd_gamelists (fs (eff st')) = sd_gamelists (fs (eff st))
    /\ sd_backups (fs (eff st')) = sd_backups (fs (eff st))
    /\ report_lines (stdout (eff st'))
       = report_lines (stdout (eff st))
         ++ (if report then [game_report_line idx system fuzzy game] else []).
Proof.
  unfold keeps, sync_game, game_report_line, game_plan, rom_filename_of, account_game.
  destruct (find_child (lit "path") game) as [p|]; [|discriminate].
  destruct (text p) as [[|c t]|]; try discriminate.
  intros ->. cbn [negb]. cbv zeta.
  set (rom := normalize_rom_filename_from_xml (c :: t)).
  destruct (sync_categories_return idx system dry_run fuzzy rom
              (expected_categories_for game system (effective_categories idx))
              {| g_stats := add_to c_games_kept 1 (stats st); g_eff := eff st;
                 matched_cats := []; missed_cats := [] |})
    as [g' [R [D [W [M [X [K1 [K2 K3]]]]]]]].
  cbv zeta in R. rewrite R. cbn [bind]. eexists. split; [reflexivity|].
  cbn [new_root kept stats eff g_stats g_eff matched_cats missed_cats] in *.
  repeat split; try assumption.
  - rewrite W. simpl. lia.
  - destruct report; cbn [print fs]; assumption.
  - destruct report; cbn [print fs]; assumption.
  - destruct report; cbn [print stdout].
    + rewrite report_lines_app, K3. cbn [report_lines flat_map app].
      rewrite M, X. reflexivity.
    + rewrite K3. now rewrite app_nil_r.
Qed.

Lemma sync_games_return (idx : cat_indexes) (system : str) (roms : list str)
  (dry_run fuzzy report : bool) (games : list element) (st : pass_state) :
  let keep := filter (keeps roms) games in
  exists st',
    for_each (sync_game idx system roms dry_run fuzzy report) games st = Ok st'
    /\ new_root st' = new_root st ++ keep
    /\ kept st' = kept st + List.length keep
    /\ decisions (stats st')
       = decisions (fold_left account_game
                      (map (game_plan idx system fuzzy) keep) (stats st))
    /\ gamelists_written (stats st') = gamelists_written (stats st)
    /\ sd_gamelists (fs (eff st')) = sd_gamelists (fs (eff st))
    /\ sd_backups (fs (eff st')) = sd_backups (fs (eff st))
    /\ report_lines (stdout (eff st'))
       = report_lines (stdout (eff st))
         ++ (if report then map (game_report_line idx system fuzzy) keep else []).
Proof.
  cbv zeta. revert st. induction games as [|game rest IH]; intros st.
  - exists st. simpl. rewrite !app_nil_r. repeat split; try lia.
    destruct report; now rewrite app_nil_r.
  - cbn [for_each filter]. destruct (keeps roms game) eqn:K.
    + destruct (sync_game_keeps idx system roms dry_run fuzzy report st game K)
        as [st1 [R1 [N1 [C1 [D1 [W1 [G1 [B1 P1]]]]]]]].
      rewrite R1. cbn [bind].
      destruct (IH st1) as [st' [R [N [C [D [W [G [B P]]]]]]]].
      exists st'. split; [exact R|]. repeat split.
      * rewrite N, N1. now rewrite <- app_assoc.
      * rewrite C, C1. simpl. lia.
      * rewrite D. cbn [map fold_left].
        assert (Hf : forall plans s1 s2, decisions s1 = decisions s2 ->
                       decisions (fold_left account_game plans s1)
                       = decisions (fold_left account_game plans s2)).
        { clear. induction plans as [|pl plans IHp]; intros s1 s2 H; simpl; [exact H|].
          apply IHp. unfold account_game. apply decisions_fold_account.
          now apply decisions_add_to. }
        now apply Hf.
      * congruence.
      * congruence.
      * congruence.
      * rewrite P, P1. rewrite <- app_assoc. f_equal. now destruct report.
    + rewrite (sync_game_skips idx system roms dry_run fuzzy report st game K).
      cbn [bind]. apply IH.
Qed.

Lemma decisions_fold_account_game (plans : list (list (str * list media_file)))
  (s1 s2 : RunStats) :
  decisions s1 = decisions s2 ->
  decisions (fold_left account_game plans s1)
  = decisions (fold_left account_game plans s2).
Proof.
  revert s1 s2. induction plans as [|pl plans IH]; intros s1 s2 H; simpl; [exact H|].
  apply IH. unfold account_game. apply decisions_fold_account.
  now apply decisions_add_to.
Qed.

Lemma reconcile_returns (w : world) (system : str) (root : element)
  (media_categories : list str) (dry_run fuzzy report : bool)
  (stats0 : RunStats) (e0 : effects) :
  let roms := iter_rom_files (sd_rom_dir w system) in
  let idx := index_categories w system media_categories fuzzy in
  let keep := kept_games w system root in
  exists st,
    reconcile w system root roms media_categories dry_run fuzzy report stats0 e0 = Ok st
    /\ new_root st = provider_children root ++ keep
    /\ kept st = List.length keep
    /\ decisions (stats st)
       = decisions
           (fold_left account_game
              (system_plans w system media_categories fuzzy root)
              (add_to c_games_total_in_master (List.length (findall (lit "game") root))
                 (add_to c_categories_ignored_empty_or_missing (ignored_count idx) stats0)))
    /\ gamelists_written (stats st) = gamelists_written stats0
    /\ sd_gamelists (fs (eff st)) = sd_gamelists (fs e0)
    /\ sd_backups (fs (eff st)) = sd_backups (fs e0)
    /\ report_lines (stdout (eff st))
       = report_lines (stdout e0)
         ++ (if report then map (game_report_line idx system fuzzy) keep else []).
Proof.
  cbv zeta. unfold reconcile, system_plans, kept_games.
  destruct (sync_games_return
              (index_categories w system media_categories fuzzy) system
              (iter_rom_files (sd_rom_dir w system)) dry_run fuzzy report
              (findall (lit "game") root)
              {| stats := add_to c_games_total_in_master
                            (List.length (findall (lit "game") root))
                            (add_to c_categories_ignored_empty_or_missing
                               (ignored_count (index_categories w system media_categories fuzzy))
                               stats0);
                 eff := e0; kept := 0;
                 new_root := match find_child (lit "provider") root with
                             | Some p => [p]
                             | None => []
                             end |})
    as [st [R [N [C [D [W [G [B P]]]]]]]].
  exists st. split; [exact R|].
  cbn [new_root kept stats eff] in *.
  repeat split; try assumption.
  rewrite W. simpl. lia.
Qed.

(** What the pass does for a system that reaches the catalog, in sync
    mode: it returns; its decisions are those of the plan; outside preview
    mode the output document is written when a game is kept, and the
    device's gamelists are untouched otherwise. *)
Lemma system_pass_returns (w : world) (system : str) (root : element)
  (media_categories : list str) (dry_run backup fuzzy report : bool)
  (stats0 : RunStats) (e0 : effects) :
  nas_gamelist w system = Some (WellFormed root) ->
  iter_rom_files (sd_rom_dir w system) <> [] ->
  exists s' e',
    filter_gamelist_and_sync_media w system media_categories dry_run backup
      fuzzy report stats0 e0 = Ok (s', e')
    /\ decisions s'
       = decisions (account_system w system media_categories fuzzy root stats0)
    /\ sd_gamelists (fs e')
       = (if dry_run then sd_gamelists (fs e0)
          else match kept_games w system root with
               | [] => sd_gamelists (fs e0)
               | _ => dict_set system (output_document w system root)
                               (sd_gamelists (fs e0))
               end)
    /\ report_lines (stdout e')
       = report_lines (stdout e0)
         ++ (if report
             then map (game_report_line
                         (index_categories w system media_categories fuzzy)
                         system fuzzy)
                      (kept_games w system root)
             else []).
Proof.
  intros G NE. unfold filter_gamelist_and_sync_media. rewrite G.
  destruct (iter_rom_files (sd_rom_dir w system)) as [|r0 rs] eqn:Roms; [contradiction|].
  rewrite <- Roms.
  destruct (reconcile_returns w system root media_categories dry_run fuzzy report stats0 e0)
    as [st [R [N [C [D [W [GL [B P]]]]]]]].
  cbv zeta in R. rewrite R. cbn [bind]. unfold account_system, output_document.
  rewrite C. destruct (kept_games w system root) as [|k ks] eqn:K.
  - cbn [List.length]. do 2 eexists. split; [reflexivity|].
    cbn [print fs stdout]. rewrite report_lines_app. cbn [report_lines flat_map app].
    rewrite app_nil_r. repeat split; try assumption.
    destruct dry_run; assumption.
  - cbn [List.length].
    set (e1 := ensure_dir [lit "gamelists"; system] dry_run (eff st)).
    set (e2 := if backup then backup_file w system dry_run e1 else e1).
    assert (F : sd_gamelists (fs e2) = sd_gamelists (fs e0)
                /\ report_lines (stdout e2) = report_lines (stdout e0)
                   ++ (if report
                       then map (game_report_line
                                   (index_categories w system media_categories fuzzy)
                                   system fuzzy) (k :: ks)
                       else [])).
    { subst e2 e1.
      destruct (ensure_dir_frame [lit "gamelists"; system] dry_run (eff st))
        as [_ [G1 [_ O1]]].
      destruct backup; [|now rewrite G1, O1].
      unfold backup_file. rewrite G1.
      destruct (dict_get system (sd_gamelists (fs (eff st)))); [|now rewrite G1, O1].
      destruct dry_run; cbn [print with_fs fs stdout sd_gamelists].
      - rewrite report_lines_app. cbn [report_lines flat_map app].
        rewrite app_nil_r. now rewrite G1, O1.
      - now rewrite G1, O1. }
    destruct F as [F1 F2].
    destruct dry_run.
    + do 2 eexists. split; [reflexivity|].
      cbn [print fs stdout]. rewrite !report_lines_app. cbn [report_lines flat_map app].
      rewrite !app_nil_r. repeat split; try assumption.
      apply decisions_add_to. exact D.
    + do 2 eexists. split; [reflexivity|].
      cbn [print write_gamelist with_fs fs stdout sd_gamelists].
      rewrite !report_lines_app. cbn [report_lines flat_map app].
      rewrite !app_nil_r. rewrite N, F1. repeat split; try assumption.
      apply decisions_add_to. rewrite decisions_written. exact D.
Qed.

(** ** The filtered catalog *)

Lemma set_of_list_In (x : str) (l : list str) : In x (set_of_list l) <-> In x l.
Proof.
  unfold set_of_list.
  assert (G : forall acc, In x (fold_left (fun s y => set_add y s) l acc)
                          <-> In x acc \/ In x l).
  { induction l as [|y l IH]; intros acc; simpl.
    - tauto.
    - rewrite IH, set_add_In. intuition congruence. }
  rewrite G. simpl. tauto.
Qed.

Lemma iter_rom_files_In (dir : option (list entry)) (x : str) :
  In x (iter_rom_files dir)
  <-> exists es e, dir = Some es /\ In e (rglob es) /\ is_file e = true
                   /\ x = lower (entry_name e).
Proof.
  unfold iter_rom_files. destruct dir as [es|].
  - rewrite set_of_list_In, in_map_iff. split.
    + intros [e [<- H]]. apply filter_In in H as [H1 H2]. now exists es, e.
    + intros [es' [e [[= <-] [H1 [H2 ->]]]]]. exists e. split; [reflexivity|].
      now apply filter_In.
  - split; [intros []|]. intros [es [e [H _]]]. discriminate.
Qed.




Lemma filter_all {A} (p : A -> bool) (l : list A) :
  (forall x, In x l -> p x = true) -> filter p l = l.
Proof.
  induction l as [|a l IH]; simpl; intros H; [reflexivity|].
  rewrite (H a (or_introl eq_refl)). f_equal. apply IH. intros x Hx. apply H. now right.
Qed.

(** The games of the assembled document are the kept games: the provider
    node is not a game and every kept entry is one. *)
Lemma games_of_new_root (w : world) (system : str) (root : element) :
  filter (fun c => str_eqb (tag c) (lit "game"))
         (provider_children root ++ kept_games w system root)
  = kept_games w system root.
Proof.
  rewrite filter_app.
  replace (filter (fun c => str_eqb (tag c) (lit "game")) (provider_children root))
    with (@nil element).
  - simpl. apply filter_all. intros g Hg. unfold kept_games in Hg.
    apply filter_In in Hg as [Hg _]. unfold findall in Hg.
    now apply filter_In in Hg as [_ Hg].
  - unfold provider_children, find_child.
    destruct (find _ (children root)) as [p|] eqn:F; [|reflexivity].
    apply find_some in F as [_ F]. apply str_eqb_eq in F. simpl. now rewrite F.
Qed.

Lemma kept_games_need_roms (w : world) (system : str) (root : element) :
  iter_rom_files (sd_rom_dir w system) = [] -> kept_games w system root = [].
Proof.
  intros E. unfold kept_games. rewrite E. apply filter_nil_iff.
  intros g _. unfold keeps. destruct (find_child (lit "path") g) as [p|]; [|reflexivity].
  now destruct (text p) as [[|c t]|].
Qed.


(** ** Order of the output *)

Lemma filter_split {A} (p : A -> bool) (l a r : list A) (x : A) :
  filter p l = a ++ x :: r ->
  exists a' r', l = a' ++ x :: r' /\ filter p a' = a /\ filter p r' = r.
Proof.
  revert a. induction l as [|h t IH]; intros a; simpl.
  - destruct a; discriminate.
  - destruct (p h) eqn:E.
    + destruct a as [|a0 a1]; simpl; intros [= -> H].
      * exists [], t. auto.
      * destruct (IH _ H) as [a' [r' [-> [Ha Hr]]]].
        exists (a0 :: a'), r'. simpl. rewrite E, Ha. auto.
    + intros H. destruct (IH _ H) as [a' [r' [-> [Ha Hr]]]].
      exists (h :: a'), r'. simpl. rewrite E. auto.
Qed.

Lemma before_filter {A} (p : A -> bool) (l : list A) (x y : A) :
  before x y (filter p l) -> before x y l.
Proof.
  intros [a [b [c E]]].
  destruct (filter_split p l a (b ++ y :: c) x E) as [a' [r' [-> [_ Hr]]]].
  destruct (filter_split p r' b c y Hr) as [b' [c' [-> _]]].
  now exists a', b', c'.
Qed.

(** C10. In sync mode the written document keeps the master's order: its
    children are the provider node, when the master has one, followed by
    the kept games in the order the master lists them; two games written
    one before the other stand in that order in the master too. *)
Theorem written_gamelist_keeps_order
  (w : world) (system : str) (media_categories : list str)
  (backup fuzzy report : bool) (stats0 : RunStats) (e0 : effects) (root : element) :
  nas_gamelist w system = Some (WellFormed root) ->
  kept_games w system root <> [] ->
  exists s' e' doc,
    filter_gamelist_and_sync_media w system media_categories false backup
      fuzzy report stats0 e0 = Ok (s', e')
    /\ dict_get system (sd_gamelists (fs e')) = Some doc
    /\ findall (lit "game") doc = kept_games w system root
    /\ (forall g1 g2, before g1 g2 (findall (lit "game") doc) ->
                      before g1 g2 (findall (lit "game") root)
                      /\ before g1 g2 (children root))
    /\ match find_child (lit "provider") root with
       | Some p => children doc = p :: kept_games w system root
       | None => children doc = kept_games w system root
       end.
Proof.
  intros G K.
  assert (NE : iter_rom_files (sd_rom_dir w system) <> []).
  { intros E. apply K. now apply kept_games_need_roms. }
  destruct (system_pass_returns w system root media_categories false backup
              fuzzy report stats0 e0 G NE) as [s' [e' [R [_ [GL _]]]]].
  exists s', e', (output_document w system root).
  split; [exact R|]. cbn [negb] in GL.
  assert (F : findall (lit "game") (output_document w system root)
              = kept_games w system root).
  { unfold output_document, findall at 1. cbn [children]. apply games_of_new_root. }
  split; [|split; [|split]].
  - rewrite GL. destruct (kept_games w system root); [contradiction|].
    apply dict_get_set_same.
  - exact F.
  - intros g1 g2 B. rewrite F in B. unfold kept_games in B.
    apply before_filter in B. split; [exact B|].
    unfold findall in B. now apply before_filter in B.
  - unfold output_document, provider_children. cbn [children].
    now destruct (find_child (lit "provider") root).
Qed.

(** ** Category pruning *)

Lemma index_files_total (fuzzy : bool) (listing : list entry)
  (acc : media_index * media_index * nat) :
  snd (fold_left (index_file fuzzy) listing acc)
  = snd acc + List.length (filter is_file listing).
Proof.
  revert acc. induction listing as [|f rest IH]; intros acc; simpl; [lia|].
  rewrite IH. destruct acc as [[ex nm] tot]. destruct f; simpl; lia.
Qed.

Lemma build_media_index_total (dir : option (list entry)) (fuzzy : bool) :
  snd (build_media_index dir fuzzy)
  = match dir with
    | None => 0
    | Some listing => List.length (filter is_file listing)
    end.
Proof.
  unfold build_media_index. destruct dir as [listing|]; [|reflexivity].
  now rewrite index_files_total.
Qed.

Lemma pruned_total (w : world) (system cat : str) (fuzzy : bool) :
  (0 <? snd (build_media_index (nas_media_dir w system cat) fuzzy))
  = negb (pruned w system cat).
Proof.
  rewrite build_media_index_total. unfold pruned, category_dir_empty.
  destruct (nas_media_dir w system cat) as [listing|]; [|reflexivity].
  now destruct (filter is_file listing).
Qed.

Lemma index_category_pruning (w : world) (system : str) (fuzzy : bool)
  (acc : cat_indexes) (cat : str) :
  effective_categories (index_category w system fuzzy acc cat)
  = effective_categories acc ++ (if pruned w system cat then [] else [cat])
  /\ ignored_count (index_category w system fuzzy acc cat)
     = ignored_count acc + (if pruned w system cat then 1 else 0).
Proof.
  unfold index_category.
  pose proof (pruned_total w system cat fuzzy) as T.
  destruct (build_media_index (nas_media_dir w system cat) fuzzy) as [[ex nm] tot].
  cbn [snd] in T. cbn [effective_categories ignored_count]. rewrite T.
  destruct (pruned w system cat); cbn [negb].
  - rewrite app_nil_r. split; [reflexivity|lia].
  - split; [reflexivity|lia].
Qed.

Lemma index_categories_fold (w : world) (system : str) (fuzzy : bool)
  (media_categories : list str) (acc : cat_indexes) :
  let r := fold_left (index_category w system fuzzy) media_categories acc in
  effective_categories r
  = effective_categories acc
    ++ filter (fun cat => negb (pruned w system cat)) media_categories
  /\ ignored_count r
     = ignored_count acc + List.length (filter (pruned w system) media_categories).
Proof.
  cbv zeta. revert acc.
  induction media_categories as [|cat rest IH]; intros acc; simpl.
  - rewrite app_nil_r. split; [reflexivity|lia].
  - destruct (IH (index_category w system fuzzy acc cat)) as [E I].
    destruct (index_category_pruning w system fuzzy acc cat) as [E1 I1].
    rewrite E, I, E1, I1.
    destruct (pruned w system cat); cbn [negb List.length].
    + rewrite app_nil_r. split; [reflexivity|lia].
    + rewrite <- app_assoc. split; [reflexivity|lia].
Qed.

Lemma index_categories_pruning (w : world) (system : str)
  (media_categories : list str) (fuzzy : bool) :
  let idx := index_categories w system media_categories fuzzy in
  effective_categories idx
  = filter (fun cat => negb (pruned w system cat)) media_categories
  /\ ignored_count idx = List.length (filter (pruned w system) media_categories).
Proof.
  cbv zeta. unfold index_categories.
  destruct (index_categories_fold w system fuzzy media_categories
              {| cat_exact_idx := []; cat_norm_idx := [];
                 effective_categories := []; ignored_count := 0 |}) as [E I].
  cbv zeta in E, I. now rewrite E, I.
Qed.

Lemma insert_sorted_In (x y : str) (l : list str) :
  In y (insert_sorted x l) <-> y = x \/ In y l.
Proof.
  induction l as [|z l IH]; simpl.
  - intuition congruence.
  - destruct (str_leb x z); simpl; [intuition congruence|].
    rewrite IH. intuition congruence.
Qed.

Lemma sorted_In (y : str) (l : list str) : In y (sorted l) <-> In y l.
Proof.
  unfold sorted. induction l as [|x l IH]; simpl; [tauto|].
  rewrite insert_sorted_In, IH. intuition congruence.
Qed.

Lemma expected_categories_for_within (game : element) (system : str)
  (effective : list str) (cat : str) :
  In cat (expected_categories_for game system effective) -> In cat effective.
Proof.
  unfold expected_categories_for.
  destruct (expected_categories_from_game_xml game system effective) as [|c0 cs] eqn:E;
    [trivial|].
  rewrite sorted_In, <- E. intros H. now apply expected_categories_In in H.
Qed.

Lemma game_plan_cats (idx : cat_indexes) (system : str) (fuzzy : bool)
  (game : element) (cat : str) :
  In cat (plan_matched (game_plan idx system fuzzy game))
  \/ In cat (plan_missed (game_plan idx system fuzzy game)) ->
  In cat (expected_categories_for game system (effective_categories idx)).
Proof.
  unfold plan_matched, plan_missed, game_plan.
  intros [H|H]; apply in_map_iff in H as [[c ms] [<- H]];
    apply filter_In in H as [H _]; apply in_map_iff in H as [c' [[= <- _] H]];
    exact H.
Qed.

(** C5. For a system that reaches the category step (its master catalog
    parses and it has ROMs): the effective categories are the selected ones
    whose master directory holds at least one file.  A selected category
    whose directory is absent or holds no file is in no game's expected
    set, neither the inferred one nor the fallback, is in no report line of
    the pass, and adds one to the ignored-categories counter. *)
Theorem pruned_categories_never_expected
  (w : world) (system : str) (media_categories : list str)
  (dry_run backup fuzzy report : bool) (stats0 : RunStats) (e0 : effects)
  (root : element) :
  nas_gamelist w system = Some (WellFormed root) ->
  iter_rom_files (sd_rom_dir w system) <> [] ->
  let idx := index_categories w system media_categories fuzzy in
  effective_categories idx
  = filter (fun cat => negb (pruned w system cat)) media_categories
  /\ (forall cat game,
        pruned w system cat = true ->
        ~ In cat (expected_categories_from_game_xml game system (effective_categories idx))
        /\ ~ In cat (expected_categories_for game system (effective_categories idx)))
  /\ exists s' e' lines,
       filter_gamelist_and_sync_media w system media_categories dry_run backup
         fuzzy report stats0 e0 = Ok (s', e')
       /\ report_lines (stdout e') = report_lines (stdout e0) ++ lines
       /\ (report = true -> List.length lines = List.length (kept_games w system root))
       /\ (forall cat rom matched missed,
             pruned w system cat = true ->
             In (rom, matched, missed) lines ->
             ~ In cat missed /\ ~ In cat matched)
       /\ categories_ignored_empty_or_missing s'
          = categories_ignored_empty_or_missing stats0
            + List.length (filter (pruned w system) media_categories).
Proof.
  intros G NE. cbv zeta.
  destruct (index_categories_pruning w system media_categories fuzzy) as [E I].
  cbv zeta in E, I.
  assert (Out : forall cat, pruned w system cat = true ->
                  ~ In cat (effective_categories
                              (index_categories w system media_categories fuzzy))).
  { intros cat P Hin. rewrite E in Hin. apply filter_In in Hin as [_ Hin].
    rewrite P in Hin. discriminate. }
  split; [exact E|split].
  - intros cat game P. split; intros Hin.
    + apply expected_categories_In in Hin as [_ Hin]. now apply (Out cat P).
    + apply expected_categories_for_within in Hin. now apply (Out cat P).
  - destruct (system_pass_returns w system root media_categories dry_run backup
                fuzzy report stats0 e0 G NE) as [s' [e' [R [D [_ P]]]]].
    exists s', e'. eexists. split; [exact R|]. split; [exact P|]. split; [|split].
    + intros ->. apply length_map.
    + intros cat rom matched missed Pr Hin.
      destruct report; [|contradiction].
      apply in_map_iff in Hin as [game [L _]].
      unfold game_report_line in L. injection L as _ <- <-.
      split; intros H; apply (Out cat Pr);
        apply (expected_categories_for_within game system);
        apply (game_plan_cats _ system fuzzy); auto.
    + unfold decisions in D. injection D as _ _ _ _ _ _ _ D. rewrite D.
      unfold account_system. rewrite <- I.
      set (s1 := add_to c_games_total_in_master _ _).
      assert (F : forall plans s,
                categories_ignored_empty_or_missing (fold_left account_game plans s)
                = categories_ignored_empty_or_missing s).
      { clear. induction plans as [|pl plans IH]; intros s; simpl; [reflexivity|].
        rewrite IH. unfold account_game.
        assert (F2 : forall plan s,
                  categories_ignored_empty_or_missing (fold_left account_category plan s)
                  = categories_ignored_empty_or_missing s).
        { clear. induction plan as [|p plan IH]; intros s; simpl; [reflexivity|].
          rewrite IH. unfold account_category. destruct (has_matches p); simpl; lia. }
        rewrite F2. simpl. lia. }
      destruct (kept_games w system root); [|cbn [add_to categories_ignored_empty_or_missing]];
        rewrite F; subst s1; simpl; lia.
Qed.

(** ** Systems that are skipped, systems that fail *)

Lemma for_each_app {A S} (body : S -> A -> outcome S) (xs ys : list A) (s : S) :
  for_each body (xs ++ ys) s = (s' <- for_each body xs s ;; for_each body ys s').
Proof.
  revert s. induction xs as [|x xs IH]; intros s; simpl; [reflexivity|].
  destruct (body s x); simpl; [apply IH|reflexivity].
Qed.

Lemma decisions_account_system (w : world) (system : str) (mc : list str)
  (fuzzy : bool) (root : element) (s1 s2 : RunStats) :
  decisions s1 = decisions s2 ->
  decisions (account_system w system mc fuzzy root s1)
  = decisions (account_system w system mc fuzzy root s2).
Proof.
  intros H. unfold account_system.
  assert (D : decisions
                (fold_left account_game (system_plans w system mc fuzzy root)
                   (add_to c_games_total_in_master (List.length (findall (lit "game") root))
                      (add_to c_categories_ignored_empty_or_missing
                         (ignored_count (index_categories w system mc fuzzy)) s1)))
              = decisions
                  (fold_left account_game (system_plans w system mc fuzzy root)
                     (add_to c_games_total_in_master (List.length (findall (lit "game") root))
                        (add_to c_categories_ignored_empty_or_missing
                           (ignored_count (index_categories w system mc fuzzy)) s2)))).
  { apply decisions_fold_account_game. now repeat apply decisions_add_to. }
  destruct (kept_games w system root); [exact D|now apply decisions_add_to].
Qed.

(** The pass on one system, by case. *)
Lemma system_pass_by_case (w : world) (system : str) (mc : list str)
  (dry_run backup fuzzy report : bool) (s : RunStats) (e : effects) :
  match classify w system with
  | SkipNoCatalog | SkipNoRoms =>
      exists e',
        filter_gamelist_and_sync_media w system mc dry_run backup fuzzy report s e
        = Ok (s, e')
        /\ fs e' = fs e
  | Fails =>
      filter_gamelist_and_sync_media w system mc dry_run backup fuzzy report s e
      = Raise ParseError
  | Passes root =>
      exists s' e',
        filter_gamelist_and_sync_media w system mc dry_run backup fuzzy report s e
        = Ok (s', e')
        /\ decisions s' = decisions (account_system w system mc fuzzy root s)
  end.
Proof.
  unfold classify.
  destruct (nas_gamelist w system) as [xml|] eqn:G.
  - destruct (iter_rom_files (sd_rom_dir w system)) as [|r0 rs] eqn:Roms.
    + unfold filter_gamelist_and_sync_media. rewrite G, Roms.
      eexists. split; reflexivity.
    + destruct xml as [|root].
      * unfold filter_gamelist_and_sync_media. now rewrite G, Roms.
      * assert (NE : iter_rom_files (sd_rom_dir w system) <> [])
          by (rewrite Roms; discriminate).
        destruct (system_pass_returns w system root mc dry_run backup fuzzy report s e G NE)
          as [s' [e' [R [D _]]]].
        now exists s', e'.
  - unfold filter_gamelist_and_sync_media. rewrite G. eexists. split; reflexivity.
Qed.

Lemma run_decisions (w : world) (mc : list str) (dry_run backup fuzzy report : bool)
  (systems : list str) (s : RunStats) (e : effects) :
  if run_raises w systems
  then sync_systems w systems mc dry_run backup fuzzy report s e = Raise ParseError
  else exists s' e',
         sync_systems w systems mc dry_run backup fuzzy report s e = Ok (s', e')
         /\ decisions s' = decisions (account_run w mc fuzzy systems s).
Proof.
  unfold sync_systems. revert s e.
  induction systems as [|system rest IH]; intros s e.
  - simpl. now exists s, e.
  - cbn [run_raises existsb for_each account_run fold_left fst snd].
    pose proof (system_pass_by_case w system mc dry_run backup fuzzy report s e) as C.
    destruct (classify w system) as [| | |root]; cbn [orb].
    + destruct C as [e' [-> _]]. cbn [bind]. apply IH.
    + destruct C as [e' [-> _]]. cbn [bind]. apply IH.
    + now rewrite C.
    + destruct C as [s' [e' [-> D]]]. cbn [bind]. specialize (IH s' e').
      fold (run_raises w rest) in *. destruct (run_raises w rest); [exact IH|].
      destruct IH as [s2 [e2 [R D2]]]. exists s2, e2. split; [exact R|].
      rewrite D2. fold (account_run w mc fuzzy rest s').
      fold (account_run w mc fuzzy rest (account_system w system mc fuzzy root s)).
      clear -D. revert D. generalize (account_system w system mc fuzzy root s).
      revert s'. induction rest as [|x rest IH]; intros s1 s2 D; simpl; [exact D|].
      apply IH. destruct (classify w x); try exact D.
      now apply decisions_account_system.
Qed.

Lemma sorted_nil (l : list str) : sorted l = [] -> l = [].
Proof.
  destruct l as [|x l]; [reflexivity|]. unfold sorted. simpl.
  destruct (fold_right insert_sorted [] l) as [|y r]; simpl; [discriminate|].
  destruct (str_leb x y); discriminate.
Qed.

Lemma audit_system_by_case (w : world) (mc : list str) (fuzzy : bool)
  (items : list AuditItem) (system : str) :
  match classify w system with
  | Fails => audit_system w mc fuzzy items system = Raise ParseError
  | _ => exists items', audit_system w mc fuzzy items system = Ok items'
  end.
Proof.
  unfold classify, audit_system.
  destruct (nas_gamelist w system) as [[|root]|];
    destruct (iter_rom_files (sd_rom_dir w system)) as [|r0 rs] eqn:Roms;
    try (simpl; eexists; reflexivity);
    destruct (sorted (r0 :: rs)) eqn:S;
    try (apply sorted_nil in S; discriminate);
    try reflexivity; eexists; reflexivity.
Qed.

(** C3 (as the code has it).  A system without a master catalog or
    without ROMs is skipped: the step returns normally, counters and
    device unchanged, and the loop goes on.  Nothing catches an exception
    inside the step: for a system that has ROMs and a catalog that does not
    parse, the step raises [ParseError], and so does the whole loop over any
    list in which such a system follows systems that do not fail; the
    systems after it are not processed.  The audit loop behaves alike. *)
Theorem parse_error_ends_the_run
  (w : world) (mc : list str) (dry_run backup fuzzy report : bool) :
  (forall system rest s e,
     classify w system = SkipNoCatalog \/ classify w system = SkipNoRoms ->
     exists e',
       filter_gamelist_and_sync_media w system mc dry_run backup fuzzy report s e
       = Ok (s, e')
       /\ fs e' = fs e
       /\ sync_systems w (system :: rest) mc dry_run backup fuzzy report s e
          = sync_systems w rest mc dry_run backup fuzzy report s e')
  /\ (forall system s e,
        classify w system = Fails ->
        filter_gamelist_and_sync_media w system mc dry_run backup fuzzy report s e
        = Raise ParseError)
  /\ (forall front system rest s e,
        run_raises w front = false ->
        classify w system = Fails ->
        sync_systems w (front ++ system :: rest) mc dry_run backup fuzzy report s e
        = Raise ParseError)
  /\ (forall front system rest,
        run_raises w front = false ->
        classify w system = Fails ->
        audit_missing_master w (front ++ system :: rest) mc fuzzy = Raise ParseError).
Proof.
  split; [|split; [|split]].
  - intros system rest s e H.
    pose proof (system_pass_by_case w system mc dry_run backup fuzzy report s e) as C.
    assert (S : exists e',
              filter_gamelist_and_sync_media w system mc dry_run backup fuzzy report s e
              = Ok (s, e') /\ fs e' = fs e)
      by (destruct H as [H|H]; rewrite H in C; exact C).
    destruct S as [e' [R F]]. exists e'. split; [exact R|]. split; [exact F|].
    unfold sync_systems. cbn [for_each fst snd]. now rewrite R.
  - intros system s e H.
    pose proof (system_pass_by_case w system mc dry_run backup fuzzy report s e) as C.
    now rewrite H in C.
  - intros front system rest s e F H.
    pose proof (run_decisions w mc dry_run backup fuzzy report front s e) as R.
    rewrite F in R. destruct R as [s' [e' [R _]]].
    unfold sync_systems in *. rewrite for_each_app, R. cbn [bind for_each fst snd].
    pose proof (system_pass_by_case w system mc dry_run backup fuzzy report s' e') as C.
    rewrite H in C. now rewrite C.
  - intros front system rest F H. unfold audit_missing_master.
    assert (A : forall items, exists items',
                for_each (audit_system w mc fuzzy) front items = Ok items').
    { clear -F. induction front as [|x front IH]; intros items.
      - now exists items.
      - cbn [run_raises existsb] in F. apply orb_false_iff in F as [F1 F2].
        cbn [for_each].
        pose proof (audit_system_by_case w mc fuzzy items x) as C.
        destruct (classify w x); try discriminate;
          destruct C as [items1 ->]; cbn [bind]; now apply IH. }
    destruct (A []) as [items' R].
    rewrite for_each_app, R. cbn [bind for_each].
    pose proof (audit_system_by_case w mc fuzzy items' system) as C.
    rewrite H in C. now rewrite C.
Qed.

(** C3, the claim as worded fails: the catalog of [gba] does not parse; a
    run over [gba, switch] ends with [ParseError], although [switch] on its
    own is processed and gets its gamelist. *)
Lemma malformed_catalog_halts_batch :
  main (demo_args "gba,switch" "covers" false false) None demo_world empty_device
  = Raise ParseError
  /\ exists s e,
       main (demo_args "switch" "covers" false false) None demo_world empty_device
       = Ok (Synced s e)
       /\ systems_processed s = 1
       /\ dict_has (lit "switch") (sd_gamelists (fs e)) = true.
Proof.
  split; [vm_compute; reflexivity|].
  eexists. eexists. split; [vm_compute; reflexivity|]. split; reflexivity.
Qed.


(** ** Preview runs and real runs *)

Lemma NoDup_app_parts {A} (a b : list A) :
  NoDup (a ++ b) -> NoDup a /\ NoDup b /\ forall k, In k b -> ~ In k a.
Proof.
  induction a as [|x a IH]; simpl; intros H.
  - repeat split; [constructor|assumption|intros k _ []].
  - inversion H as [|y l Hn Hd]; subst. destruct (IH Hd) as [Na [Nb D]].
    repeat split.
    + constructor; [|assumption]. intros Hin. apply Hn. apply in_or_app. now left.
    + assumption.
    + intros k Hk [->|Hin].
      * apply Hn. apply in_or_app. now right.
      * now apply (D k).
Qed.

Lemma clear_of_app (dry_run : bool) (touched a b : list media_path) :
  clear_of dry_run touched (a ++ b) ->
  clear_of dry_run touched a /\ clear_of dry_run (grow dry_run touched a) b.
Proof.
  intros [D N]. split; split.
  - intros k Hk. apply D. apply in_or_app. now left.
  - intros E. apply N in E. now apply NoDup_app_parts in E.
  - intros k Hk. unfold grow. destruct dry_run.
    + apply D. apply in_or_app. now right.
    + intros Hin. apply in_app_or in Hin as [Hin|Hin].
      * revert Hin. apply D. apply in_or_app. now right.
      * destruct (NoDup_app_parts _ _ (N eq_refl)) as [_ [_ X]]. now apply (X k).
  - intros E. apply N in E. now apply NoDup_app_parts in E.
Qed.

Lemma grow_app (dry_run : bool) (touched a b : list media_path) :
  grow dry_run (grow dry_run touched a) b = grow dry_run touched (a ++ b).
Proof. unfold grow. destruct dry_run; [reflexivity|now rewrite <- app_assoc]. Qed.

Lemma grow_nil (dry_run : bool) (touched : list media_path) :
  grow dry_run touched [] = touched.
Proof. unfold grow. destruct dry_run; [reflexivity|apply app_nil_r]. Qed.

Lemma untouched_grow (media0 : list (media_path * file)) (dry_run : bool)
  (touched ts : list media_path) (e e' : effects) :
  untouched media0 touched e ->
  sd_media (fs e') = sd_media (fs e) ->
  untouched media0 (grow dry_run touched ts) e'.
Proof.
  intros U M k Hk. rewrite M. apply U. intros Hin. apply Hk.
  unfold grow. destruct dry_run; [assumption|]. apply in_or_app. now left.
Qed.

Section ForEachTally.

Variables A S : Type.
Variable body : S -> A -> outcome S.
Variable targets : A -> list media_path.
Variable eff_of : S -> effects.
Variable stat_of : S -> RunStats.
Variable step : RunStats -> A -> RunStats.
Variable media0 : list (media_path * file).
Variable dry_run : bool.

Hypothesis body_ok :
  forall touched s x,
    untouched media0 touched (eff_of s) ->
    clear_of dry_run touched (targets x) ->
    exists s',
      body s x = Ok s'
      /\ stat_of s' = step (stat_of s) x
      /\ untouched media0 (grow dry_run touched (targets x)) (eff_of s')
      /\ (dry_run = true -> fs (eff_of s') = fs (eff_of s)).

Lemma for_each_tally (xs : list A) :
  forall touched s,
    untouched media0 touched (eff_of s) ->
    clear_of dry_run touched (flat_map targets xs) ->
    exists s',
      for_each body xs s = Ok s'
      /\ stat_of s' = fold_left step xs (stat_of s)
      /\ untouched media0 (grow dry_run touched (flat_map targets xs)) (eff_of s')
      /\ (dry_run = true -> fs (eff_of s') = fs (eff_of s)).
Proof.
  induction xs as [|x rest IH]; intros touched s U C; simpl.
  - exists s. rewrite grow_nil. auto.
  - apply clear_of_app in C as [C1 C2].
    destruct (body_ok touched s x U C1) as [s1 [R1 [T1 [U1 F1]]]].
    rewrite R1. cbn [bind].
    destruct (IH _ s1 U1 C2) as [s' [R [T [U' F]]]].
    exists s'. split; [exact R|]. split; [now rewrite T, T1|].
    split; [now rewrite <- grow_app|].
    intros E. rewrite (F E). now apply F1.
Qed.

End ForEachTally.

Lemma copy_file_tally (media0 : list (media_path * file)) (dry_run : bool)
  (path : media_path) (s : file) (system cat name : str)
  (touched : list media_path) (e : effects) :
  untouched media0 touched e ->
  ~ In (system, cat, name) touched ->
  exists e',
    copy_file {| src_path := path; src_node := Some s |} (system, cat, name) dry_run e
    = Ok (copy_decision media0 system cat (name, s), e')
    /\ untouched media0 (grow dry_run touched [(system, cat, name)]) e'
    /\ (dry_run = true -> fs e' = fs e).
Proof.
  intros U N. unfold copy_file, copy_decision. cbn [src_node fst snd].
  destruct (ensure_dir_frame [lit "downloaded_media"; system; cat] dry_run e) as [M _].
  rewrite M, (U _ N).
  assert (Copy :
    exists e',
      (if dry_run
       then Ok (copied,
                print (DryCopy path (system, cat, name))
                      (ensure_dir [lit "downloaded_media"; system; cat] dry_run e))
       else e' <- copy2 {| src_path := path; src_node := Some s |} (system, cat, name)
                        (ensure_dir [lit "downloaded_media"; system; cat] dry_run e) ;;
            Ok (copied, e'))
      = Ok (copied, e')
      /\ untouched media0 (grow dry_run touched [(system, cat, name)]) e'
      /\ (dry_run = true -> fs e' = fs e)).
  { destruct dry_run.
    - eexists. split; [reflexivity|]. split; [|reflexivity].
      apply (untouched_grow media0 true touched _ e); [assumption|reflexivity].
    - unfold copy2. cbn [src_node bind]. eexists. split; [reflexivity|].
      split; [|discriminate]. intros k Hk. cbn [with_fs fs sd_media].
      rewrite media_get_put_other.
      + rewrite M. apply U. intros Hin. apply Hk. unfold grow. apply in_or_app. now left.
      + intros <-. apply Hk. unfold grow. apply in_or_app. right. now left. }
  destruct (media_get (system, cat, name) media0) as [d|]; [|exact Copy].
  destruct (same_size d s); [|exact Copy].
  eexists. split; [reflexivity|]. split.
  - apply (untouched_grow media0 dry_run touched _ e); assumption.
  - intros ->. reflexivity.
Qed.

Lemma copy_match_tally (media0 : list (media_path * file)) (dry_run : bool)
  (system cat : str) (touched : list media_path)
  (st : RunStats * effects) (m : media_file) :
  untouched media0 touched (snd st) ->
  clear_of dry_run touched [(system, cat, fst m)] ->
  exists st',
    copy_match system cat dry_run st m = Ok st'
    /\ fst st' = tally_file media0 system cat (fst st) m
    /\ untouched media0 (grow dry_run touched [(system, cat, fst m)]) (snd st')
    /\ (dry_run = true -> fs (snd st') = fs (snd st)).
Proof.
  destruct st as [s e], m as [name content]. cbn [fst snd]. intros U [C _].
  destruct (copy_file_tally media0 dry_run (system, cat, name) content system cat name
              touched e U (C _ (or_introl eq_refl))) as [e' [R [U' F]]].
  unfold copy_match, tally_file. rewrite R. cbn [bind].
  destruct (copy_decision media0 system cat (name, content));
    eexists; (split; [reflexivity|]); cbn [fst snd]; auto.
Qed.

Lemma flat_map_singleton {A B} (f : A -> B) (l : list A) :
  flat_map (fun x => [f x]) l = map f l.
Proof. induction l as [|x l IH]; simpl; [reflexivity|now rewrite IH]. Qed.

Lemma copy_matches_tally (media0 : list (media_path * file)) (dry_run : bool)
  (system cat : str) (matches : list media_file) (touched : list media_path)
  (s : RunStats) (e : effects) :
  untouched media0 touched e ->
  clear_of dry_run touched (map (fun m => (system, cat, fst m)) matches) ->
  exists s' e',
    copy_matches system cat dry_run matches (s, e) = Ok (s', e')
    /\ s' = fold_left (tally_file media0 system cat) matches s
    /\ untouched media0
         (grow dry_run touched (map (fun m => (system, cat, fst m)) matches)) e'
    /\ (dry_run = true -> fs e' = fs e).
Proof.
  intros U C. rewrite <- flat_map_singleton in *.
  destruct (for_each_tally _ _ (copy_match system cat dry_run)
              (fun m => [(system, cat, fst m)]) snd fst
              (tally_file media0 system cat) media0 dry_run
              (fun touched st m => copy_match_tally media0 dry_run system cat touched st m)
              matches touched (s, e) U C) as [[s' e'] [R [T [U' F]]]].
  exists s', e'. auto.
Qed.

Lemma sync_category_tally (media0 : list (media_path * file)) (dry_run : bool)
  (idx : cat_indexes) (system : str) (fuzzy : bool) (rom : str)
  (touched : list media_path) (g : game_state) (cat : str) :
  let ms := category_matches idx fuzzy rom cat in
  untouched media0 touched (g_eff g) ->
  clear_of dry_run touched (map (fun m => (system, cat, fst m)) ms) ->
  exists g',
    sync_category idx system dry_run fuzzy (lower (path_stem rom))
      (normalize_stem_loose (lower (path_stem rom))) g cat = Ok g'
    /\ g_stats g' = tally_category media0 system (g_stats g) (cat, ms)
    /\ untouched media0
         (grow dry_run touched (map (fun m => (system, cat, fst m)) ms)) (g_eff g')
    /\ (dry_run = true -> fs (g_eff g') = fs (g_eff g)).
Proof.
  cbv zeta. unfold sync_category, tally_category, has_matches, category_matches.
  cbn [fst snd].
  destruct (find_matches _ _ fuzzy _ _) as [|m ms] eqn:F; intros U C.
  - eexists. split; [reflexivity|]. cbn [g_stats g_eff map]. rewrite grow_nil. auto.
  - destruct (copy_matches_tally media0 dry_run system cat (m :: ms) touched
                (add_to c_media_categories_attempted 1 (g_stats g)) (g_eff g) U C)
      as [s' [e' [R [T [U' F']]]]].
    rewrite R. cbn [bind fst snd]. eexists. split; [reflexivity|].
    cbn [g_stats g_eff]. auto.
Qed.

Lemma fold_left_map {A B C} (f : C -> B -> C) (g : A -> B) (l : list A) (s : C) :
  fold_left f (map g l) s = fold_left (fun s x => f s (g x)) l s.
Proof. revert s. induction l as [|x l IH]; intros s; simpl; [reflexivity|apply IH]. Qed.

Lemma flat_map_map {A B C} (f : B -> list C) (g : A -> B) (l : list A) :
  flat_map f (map g l) = flat_map (fun x => f (g x)) l.
Proof. induction l as [|x l IH]; simpl; [reflexivity|now rewrite IH]. Qed.

Lemma fold_left_filter {A C} (f : C -> A -> C) (p : A -> bool) (l : list A) (s : C) :
  fold_left (fun s x => if p x then f s x else s) l s = fold_left f (filter p l) s.
Proof.
  revert s. induction l as [|x l IH]; intros s; simpl; [reflexivity|].
  destruct (p x); simpl; apply IH.
Qed.

Lemma flat_map_filter {A C} (f : A -> list C) (p : A -> bool) (l : list A) :
  flat_map (fun x => if p x then f x else []) l = flat_map f (filter p l).
Proof.
  induction l as [|x l IH]; simpl; [reflexivity|].
  destruct (p x); simpl; now rewrite IH.
Qed.

Lemma game_plan_targets (idx : cat_indexes) (system : str) (fuzzy : bool)
  (game : element) :
  plan_targets system (game_plan idx system fuzzy game)
  = flat_map
      (fun cat => map (fun m => (system, cat, fst m))
                      (category_matches idx fuzzy (rom_filename_of game) cat))
      (expected_categories_for game system (effective_categories idx)).
Proof. unfold plan_targets, game_plan. now rewrite flat_map_map. Qed.

Lemma sync_game_tally (media0 : list (media_path * file)) (dry_run : bool)
  (idx : cat_indexes) (system : str) (roms : list str) (fuzzy report : bool)
  (touched : list media_path) (st : pass_state) (game : element) :
  let targets :=
    if keeps roms game then plan_targets system (game_plan idx system fuzzy game)
    else [] in
  untouched media0 touched (eff st) ->
  clear_of dry_run touched targets ->
  exists st',
    sync_game idx system roms dry_run fuzzy report st game = Ok st'
    /\ stats st'
       = (if keeps roms game
          then tally_game media0 system (stats st) (game_plan idx system fuzzy game)
          else stats st)
    /\ untouched media0 (grow dry_run touched targets) (eff st')
    /\ (dry_run = true -> fs (eff st') = fs (eff st)).
Proof.
  cbv zeta. destruct (keeps roms game) eqn:K; intros U C.
  2:{ rewrite (sync_game_skips idx system roms dry_run fuzzy report st game K).
      exists st. rewrite grow_nil. auto. }
  rewrite game_plan_targets in *.
  unfold keeps in K. unfold sync_game, tally_game, game_plan, rom_filename_of in *.
  destruct (find_child (lit "path") game) as [p|]; [|discriminate].
  destruct (text p) as [[|c t]|]; try discriminate.
  rewrite K. cbn [negb]. cbv zeta.
  set (rom := normalize_rom_filename_from_xml (c :: t)) in *.
  destruct (for_each_tally _ _
              (sync_category idx system dry_run fuzzy (lower (path_stem rom))
                 (normalize_stem_loose (lower (path_stem rom))))
              (fun cat => map (fun m => (system, cat, fst m))
                              (category_matches idx fuzzy rom cat))
              g_eff g_stats
              (fun s cat => tally_category media0 system s
                              (cat, category_matches idx fuzzy rom cat))
              media0 dry_run
              (fun touched g cat =>
                 sync_category_tally media0 dry_run idx system fuzzy rom touched g cat)
              (expected_categories_for game system (effective_categories idx))
              touched
              {| g_stats := add_to c_games_kept 1 (stats st); g_eff := eff st;
                 matched_cats := []; missed_cats := [] |} U C)
    as [g' [R [T [U' F]]]].
  rewrite R. cbn [bind]. eexists. split; [reflexivity|].
  cbn [stats eff g_stats g_eff] in *. split; [|split].
  - rewrite T. now rewrite fold_left_map.
  - destruct report; [|exact U'].
    intros k Hk. cbn [print fs]. now apply U'.
  - intros E. destruct report; cbn [print fs]; now apply F.
Qed.

Lemma reconcile_tally (media0 : list (media_path * file)) (dry_run : bool)
  (w : world) (system : str) (root : element) (mc : list str)
  (fuzzy report : bool) (touched : list media_path) (s : RunStats) (e : effects) :
  let targets := flat_map (plan_targets system) (system_plans w system mc fuzzy root) in
  untouched media0 touched e ->
  clear_of dry_run touched targets ->
  exists st,
    reconcile w system root (iter_rom_files (sd_rom_dir w system)) mc dry_run
              fuzzy report s e = Ok st
    /\ stats st
       = fold_left (tally_game media0 system) (system_plans w system mc fuzzy root)
           (add_to c_games_total_in_master (List.length (findall (lit "game") root))
              (add_to c_categories_ignored_empty_or_missing
                 (ignored_count (index_categories w system mc fuzzy)) s))
    /\ untouched media0 (grow dry_run touched targets) (eff st)
    /\ (dry_run = true -> fs (eff st) = fs e).
Proof.
  cbv zeta. unfold system_plans, kept_games, reconcile.
  rewrite flat_map_map, <- flat_map_filter, fold_left_map, <- fold_left_filter.
  intros U C.
  set (idx := index_categories w system mc fuzzy) in *.
  set (roms := iter_rom_files (sd_rom_dir w system)) in *.
  apply (for_each_tally _ _
           (sync_game idx system roms dry_run fuzzy report)
           (fun game => if keeps roms game
                        then plan_targets system (game_plan idx system fuzzy game)
                        else [])
           eff stats
           (fun s game => if keeps roms game
                          then tally_game media0 system s (game_plan idx system fuzzy game)
                          else s)
           media0 dry_run
           (fun touched st game =>
              sync_game_tally media0 dry_run idx system roms fuzzy report touched st game)
           (findall (lit "game") root) touched
           {| stats := add_to c_games_total_in_master
                         (List.length (findall (lit "game") root))
                         (add_to c_categories_ignored_empty_or_missing
                            (ignored_count idx) s);
              eff := e; kept := 0;
              new_root := match find_child (lit "provider") root with
                          | Some p => [p]
                          | None => []
                          end |} U C).
Qed.

Ltac counters_eq :=
  unfold counters; simpl;
  repeat (apply (f_equal2 (@cons nat)); [lia|]); reflexivity.

Lemma counters_add_to (c : counter) (n : nat) (s1 s2 : RunStats) :
  counters s1 = counters s2 ->
  counters (add_to c n s1) = counters (add_to c n s2).
Proof.
  unfold counters. intros H. injection H as H1 H2 H3 H4 H5 H6 H7 H8 H9.
  destruct c; counters_eq.
Qed.

Lemma counters_written (n : nat) (s : RunStats) :
  counters (add_to c_gamelists_written n s) = counters s.
Proof. counters_eq. Qed.

Lemma counters_tally_files (media0 : list (media_path * file)) (system cat : str)
  (ms : list media_file) (s1 s2 : RunStats) :
  counters s1 = counters s2 ->
  counters (fold_left (tally_file media0 system cat) ms s1)
  = counters (fold_left (tally_file media0 system cat) ms s2).
Proof.
  revert s1 s2. induction ms as [|m ms IH]; intros s1 s2 H; simpl; [exact H|].
  apply IH. unfold tally_file.
  destruct (copy_decision media0 system cat m); now apply counters_add_to.
Qed.

Lemma counters_tally_categories (media0 : list (media_path * file)) (system : str)
  (plan : list (str * list media_file)) (s1 s2 : RunStats) :
  counters s1 = counters s2 ->
  counters (fold_left (tally_category media0 system) plan s1)
  = counters (fold_left (tally_category media0 system) plan s2).
Proof.
  revert s1 s2. induction plan as [|p plan IH]; intros s1 s2 H; simpl; [exact H|].
  apply IH. unfold tally_category. destruct (has_matches p).
  - apply counters_tally_files. now apply counters_add_to.
  - now repeat apply counters_add_to.
Qed.

Lemma counters_tally_games (media0 : list (media_path * file)) (system : str)
  (plans : list (list (str * list media_file))) (s1 s2 : RunStats) :
  counters s1 = counters s2 ->
  counters (fold_left (tally_game media0 system) plans s1)
  = counters (fold_left (tally_game media0 system) plans s2).
Proof.
  revert s1 s2. induction plans as [|pl plans IH]; intros s1 s2 H; simpl; [exact H|].
  apply IH. unfold tally_game. apply counters_tally_categories.
  now apply counters_add_to.
Qed.

Lemma counters_tally_system (media0 : list (media_path * file)) (w : world)
  (system : str) (mc : list str) (fuzzy : bool) (root : element) (s1 s2 : RunStats) :
  counters s1 = counters s2 ->
  counters (tally_system media0 w system mc fuzzy root s1)
  = counters (tally_system media0 w system mc fuzzy root s2).
Proof.
  intros H. unfold tally_system.
  assert (D : counters
                (fold_left (tally_game media0 system) (system_plans w system mc fuzzy root)
                   (add_to c_games_total_in_master (List.length (findall (lit "game") root))
                      (add_to c_categories_ignored_empty_or_missing
                         (ignored_count (index_categories w system mc fuzzy)) s1)))
              = counters
                  (fold_left (tally_game media0 system) (system_plans w system mc fuzzy root)
                     (add_to c_games_total_in_master (List.length (findall (lit "game") root))
                        (add_to c_categories_ignored_empty_or_missing
                           (ignored_count (index_categories w system mc fuzzy)) s2)))).
  { apply counters_tally_games. now repeat apply counters_add_to. }
  destruct (kept_games w system root); [exact D|now apply counters_add_to].
Qed.

Lemma counters_tally_run (media0 : list (media_path * file)) (w : world)
  (mc : list str) (fuzzy : bool) (systems : list str) (s1 s2 : RunStats) :
  counters s1 = counters s2 ->
  counters (tally_run media0 w mc fuzzy systems s1)
  = counters (tally_run media0 w mc fuzzy systems s2).
Proof.
  unfold tally_run. revert s1 s2.
  induction systems as [|x rest IH]; intros s1 s2 H; simpl; [exact H|].
  apply IH. destruct (classify w x); try exact H.
  now apply counters_tally_system.
Qed.

Lemma classify_passes (w : world) (system : str) (root : element) :
  classify w system = Passes root ->
  nas_gamelist w system = Some (WellFormed root)
  /\ iter_rom_files (sd_rom_dir w system) <> [].
Proof.
  unfold classify. destruct (nas_gamelist w system) as [xml|]; [|discriminate].
  destruct (iter_rom_files (sd_rom_dir w system)); [discriminate|].
  destruct xml; [discriminate|]. intros [= ->]. split; [reflexivity|discriminate].
Qed.

Lemma backup_file_frame (w : world) (system : str) (dry_run : bool) (e : effects) :
  sd_media (fs (backup_file w system dry_run e)) = sd_media (fs e)
  /\ (dry_run = true -> fs (backup_file w system dry_run e) = fs e).
Proof.
  unfold backup_file. destruct (dict_get system (sd_gamelists (fs e))); [|auto].
  destruct dry_run; simpl; auto. split; [reflexivity|discriminate].
Qed.

Lemma system_pass_tally (media0 : list (media_path * file)) (dry_run : bool)
  (w : world) (system : str) (root : element) (mc : list str)
  (backup fuzzy report : bool) (touched : list media_path)
  (s : RunStats) (e : effects) :
  let targets := flat_map (plan_targets system) (system_plans w system mc fuzzy root) in
  classify w system = Passes root ->
  untouched media0 touched e ->
  clear_of dry_run touched targets ->
  exists s' e',
    filter_gamelist_and_sync_media w system mc dry_run backup fuzzy report s e
    = Ok (s', e')
    /\ counters s' = counters (tally_system media0 w system mc fuzzy root s)
    /\ untouched media0 (grow dry_run touched targets) e'
    /\ (dry_run = true -> fs e' = fs e).
Proof.
  cbv zeta. intros P U C. apply classify_passes in P as [G NE].
  destruct (reconcile_tally media0 dry_run w system root mc fuzzy report touched s e U C)
    as [st [R [T [U' F]]]].
  destruct (reconcile_returns w system root mc dry_run fuzzy report s e)
    as [st2 [R2 [_ [K _]]]].
  cbv zeta in R2. rewrite R in R2. injection R2 as <-.
  unfold filter_gamelist_and_sync_media, tally_system. rewrite G.
  destruct (iter_rom_files (sd_rom_dir w system)) as [|r0 rs] eqn:Roms; [contradiction|].
  rewrite <- Roms in R |- *. rewrite R. cbn [bind]. rewrite K.
  destruct (kept_games w system root) as [|k ks]; cbn [List.length].
  - do 2 eexists. split; [reflexivity|]. rewrite T. split; [reflexivity|].
    split; [|exact F]. intros x Hx. cbn [print fs]. now apply U'.
  - set (e1 := ensure_dir [lit "gamelists"; system] dry_run (eff st)).
    set (e2 := if backup then backup_file w system dry_run e1 else e1).
    assert (M2 : sd_media (fs e2) = sd_media (fs (eff st))
                 /\ (dry_run = true -> fs e2 = fs (eff st))).
    { subst e2 e1.
      destruct (ensure_dir_frame [lit "gamelists"; system] dry_run (eff st)) as [M1 _].
      destruct backup.
      - destruct (backup_file_frame w system dry_run
                    (ensure_dir [lit "gamelists"; system] dry_run (eff st))) as [B1 B2].
        split; [congruence|]. intros ->. now rewrite (B2 eq_refl).
      - split; [exact M1|]. intros ->. reflexivity. }
    destruct M2 as [M2 D2].
    destruct dry_run.
    + do 2 eexists. split; [reflexivity|]. rewrite T. split; [reflexivity|].
      split.
      * intros x Hx. cbn [print fs]. rewrite M2. now apply U'.
      * intros _. cbn [print fs]. rewrite (D2 eq_refl). now apply F.
    + do 2 eexists. split; [reflexivity|]. split; [|split; [|discriminate]].
      * apply counters_add_to. rewrite counters_written. now rewrite T.
      * intros x Hx. cbn [print write_gamelist with_fs fs sd_media].
        rewrite M2. now apply U'.
Qed.

Lemma run_tally (media0 : list (media_path * file)) (dry_run : bool)
  (w : world) (mc : list str) (backup fuzzy report : bool)
  (systems : list str) :
  forall touched s e,
    run_raises w systems = false ->
    untouched media0 touched e ->
    clear_of dry_run touched (run_targets w mc fuzzy systems) ->
    exists s' e',
      sync_systems w systems mc dry_run backup fuzzy report s e = Ok (s', e')
      /\ counters s' = counters (tally_run media0 w mc fuzzy systems s)
      /\ (dry_run = true -> fs e' = fs e).
Proof.
  unfold sync_systems.
  induction systems as [|system rest IH]; intros touched s e NR U C.
  - exists s, e. simpl. auto.
  - cbn [run_raises existsb] in NR. apply orb_false_iff in NR as [N1 N2].
    cbn [run_targets flat_map] in C. apply clear_of_app in C as [C1 C2].
    cbn [for_each fst snd tally_run fold_left].
    pose proof (system_pass_by_case w system mc dry_run backup fuzzy report s e) as Case.
    destruct (classify w system) as [| | |root] eqn:Cl; try discriminate.
    + destruct Case as [e' [-> Fs]]. cbn [bind]. rewrite grow_nil in C2.
      destruct (IH touched s e' N2) as [s2 [e2 [R [Cn F]]]]; [|exact C2|].
      { intros k Hk. rewrite Fs. now apply U. }
      exists s2, e2. split; [exact R|]. split; [exact Cn|].
      intros E. rewrite (F E). exact Fs.
    + destruct Case as [e' [-> Fs]]. cbn [bind]. rewrite grow_nil in C2.
      destruct (IH touched s e' N2) as [s2 [e2 [R [Cn F]]]]; [|exact C2|].
      { intros k Hk. rewrite Fs. now apply U. }
      exists s2, e2. split; [exact R|]. split; [exact Cn|].
      intros E. rewrite (F E). exact Fs.
    + clear Case.
      destruct (system_pass_tally media0 dry_run w system root mc backup fuzzy report
                  touched s e Cl U C1) as [s1 [e1 [R1 [Cn1 [U1 F1]]]]].
      rewrite R1. cbn [bind].
      destruct (IH _ s1 e1 N2 U1 C2) as [s2 [e2 [R [Cn F]]]].
      exists s2, e2. split; [exact R|]. split.
      * rewrite Cn. fold (tally_run media0 w mc fuzzy rest s1).
        fold (tally_run media0 w mc fuzzy rest
                (tally_system media0 w system mc fuzzy root s)).
        now apply counters_tally_run.
      * intros E. rewrite (F E). now apply F1.
Qed.


(** ** The statements at work on the example installation *)


(** The [switch] catalog: the written games are the kept games, in order. *)
Lemma written_gamelist_keeps_order_witness :
  nas_gamelist demo_world (lit "switch") = Some (WellFormed switch_catalog)
  /\ kept_games demo_world (lit "switch") switch_catalog <> []
  /\ exists s' e' doc,
       filter_gamelist_and_sync_media demo_world (lit "switch") [lit "covers"]
         false false false true (RunStats_init 1) empty_device = Ok (s', e')
       /\ dict_get (lit "switch") (sd_gamelists (fs e')) = Some doc
       /\ findall (lit "game") doc = kept_games demo_world (lit "switch") switch_catalog.
Proof.
  assert (H1 : nas_gamelist demo_world (lit "switch") = Some (WellFormed switch_catalog))
    by reflexivity.
  assert (H2 : kept_games demo_world (lit "switch") switch_catalog <> [])
    by (vm_compute; discriminate).
  split; [exact H1|]. split; [exact H2|].
  destruct (written_gamelist_keeps_order demo_world (lit "switch") [lit "covers"]
              false false true (RunStats_init 1) empty_device switch_catalog H1 H2)
    as [s' [e' [doc [R [D [F _]]]]]].
  exists s', e', doc. split; [exact R|]. split; [exact D|exact F].
Defined.

(** For [switch], [videos] is pruned and [covers] stays. *)
Lemma pruned_categories_never_expected_witness :
  nas_gamelist demo_world (lit "switch") = Some (WellFormed switch_catalog)
  /\ iter_rom_files (sd_rom_dir demo_world (lit "switch")) <> []
  /\ pruned demo_world (lit "switch") (lit "videos") = true
  /\ effective_categories
       (index_categories demo_world (lit "switch") [lit "covers"; lit "videos"] false)
     = filter (fun cat => negb (pruned demo_world (lit "switch") cat))
              [lit "covers"; lit "videos"].
Proof.
  assert (H1 : nas_gamelist demo_world (lit "switch") = Some (WellFormed switch_catalog))
    by reflexivity.
  assert (H2 : iter_rom_files (sd_rom_dir demo_world (lit "switch")) <> [])
    by (vm_compute; discriminate).
  split; [exact H1|]. split; [exact H2|]. split; [reflexivity|].
  exact (proj1 (pruned_categories_never_expected demo_world (lit "switch")
                  [lit "covers"; lit "videos"] false false false true
                  (RunStats_init 1) empty_device switch_catalog H1 H2)).
Defined.

(** The same stem in both indexes under different files: the exact one wins. *)
Lemma find_matches_tiers_witness :
  let exact_file := (lit "Celeste.png", demo_file "exact") in
  let loose_file := (lit "CELESTE!.png", demo_file "loose") in
  let exact_idx := [(lit "celeste", [exact_file])] in
  let norm_idx := [(lit "celeste", [loose_file])] in
  dict_get_or_empty (lit "celeste") exact_idx <> []
  /\ find_matches exact_idx norm_idx true (lit "celeste") (lit "celeste") = [exact_file].
Proof.
  cbv zeta.
  assert (H : dict_get_or_empty (lit "celeste")
                [(lit "celeste", [(lit "Celeste.png", demo_file "exact")])] <> [])
    by (vm_compute; discriminate).
  split; [exact H|].
  exact (proj1 (find_matches_tiers
                  [(lit "celeste", [(lit "Celeste.png", demo_file "exact")])]
                  [(lit "celeste", [(lit "CELESTE!.png", demo_file "loose")])]
                  true (lit "celeste") (lit "celeste")) H).
Defined.

(** A first copy to an empty device. *)
Lemma copy_file_skip_or_copy_witness :
  let s := demo_file "celeste-cover" in
  let dst := (lit "switch", lit "covers", lit "Celeste.png") in
  ~ already_synced empty_device dst s
  /\ exists e',
       copy_file {| src_path := dst; src_node := Some s |} dst false empty_device
       = Ok (copied, e')
       /\ media_get dst (sd_media (fs e')) = Some (copy_of s).
Proof.
  cbv zeta.
  assert (H : ~ already_synced empty_device
                  (lit "switch", lit "covers", lit "Celeste.png")
                  (demo_file "celeste-cover")).
  { intros [d [n [G _]]]. vm_compute in G. discriminate. }
  split; [exact H|].
  destruct (proj2 (proj2 (copy_file_skip_or_copy
                            (lit "switch", lit "covers", lit "Celeste.png")
                            (demo_file "celeste-cover")
                            (lit "switch", lit "covers", lit "Celeste.png")
                            false empty_device)) H) as [e' [R [C _]]].
  exists e'. split; [exact R|]. exact (proj1 (C eq_refl)).
Defined.

(** The reference of the docstring resolves by rule 1. *)
Lemma parse_category_ordered_rules_witness :
  let text := lit "./downloaded_media/switch/covers/Celeste.png" in
  text <> []
  /\ rule1_applies (ref_parts text) (lit "switch") (lit "covers")
  /\ parse_category_from_media_ref text (lit "switch") = Some (lit "covers").
Proof.
  cbv zeta.
  assert (H1 : lit "./downloaded_media/switch/covers/Celeste.png" <> [])
    by (vm_compute; discriminate).
  assert (H2 : rule1_applies (ref_parts (lit "./downloaded_media/switch/covers/Celeste.png"))
                             (lit "switch") (lit "covers")).
  { exists [], (lit "switch"), [lit "Celeste.png"].
    split; [reflexivity|]. split; [intros []|reflexivity]. }
  split; [exact H1|]. split; [exact H2|].
  exact (proj1 (parse_category_ordered_rules (lit "switch")) _ _ H1 H2).
Defined.

(** [--media "covers, videos"] is accepted. *)
Lemma resolve_media_categories_enumeration_witness :
  let args := args_with_media (lit "covers, videos") false in
  (forall m, In m (requested_media_categories args None) -> In m MEDIA_CATEGORIES_ALL)
  /\ resolve_media_categories args None = Ok [lit "covers"; lit "videos"].
Proof.
  cbv zeta.
  assert (H : forall m,
            In m (requested_media_categories (args_with_media (lit "covers, videos") false) None) ->
            In m MEDIA_CATEGORIES_ALL).
  { intros m Hm. vm_compute in Hm. destruct Hm as [<-|[<-|[]]]; vm_compute; tauto. }
  split; [exact H|].
  exact (proj1 (proj2 resolve_media_categories_enumeration) _ _ H).
Defined.

(** [switch] passes, [gba] fails, [snes] is never reached. *)
Lemma parse_error_ends_the_run_witness :
  run_raises demo_world [lit "switch"] = false
  /\ classify demo_world (lit "gba") = Fails
  /\ sync_systems demo_world ([lit "switch"] ++ lit "gba" :: [lit "snes"])
       [lit "covers"] false false false true (RunStats_init 3) empty_device
     = Raise ParseError.
Proof.
  assert (H1 : run_raises demo_world [lit "switch"] = false) by reflexivity.
  assert (H2 : classify demo_world (lit "gba") = Fails) by reflexivity.
  split; [exact H1|]. split; [exact H2|].
  exact (proj1 (proj2 (proj2 (parse_error_ends_the_run demo_world [lit "covers"]
                                false false false true)))
               [lit "switch"] (lit "gba") [lit "snes"] (RunStats_init 3) empty_device
               H1 H2).
Defined.


(** * Properties of the remaining code *)

(** ** Splitting and stripping *)

Lemma split_not_nil (sep : ascii) (s : str) : split sep s <> [].
Proof.
  induction s as [|c t IH]; simpl; [discriminate|].
  destruct (Ascii.eqb c sep); [discriminate|].
  destruct (split sep t); [contradiction|discriminate].
Qed.

Lemma split_app (sep : ascii) (a b : str) :
  split sep (a ++ sep :: b) = split sep a ++ split sep b.
Proof.
  induction a as [|c a IH]; simpl.
  - now rewrite Ascii.eqb_refl.
  - destruct (Ascii.eqb c sep); [now rewrite IH|].
    rewrite IH. pose proof (split_not_nil sep a) as N.
    destruct (split sep a) as [|h r]; [contradiction|reflexivity].
Qed.

Lemma split_no_sep (sep : ascii) (n : str) : ~ In sep n -> split sep n = [n].
Proof.
  induction n as [|c t IH]; simpl; intros H; [reflexivity|].
  destruct (Ascii.eqb c sep) eqn:E.
  - apply Ascii.eqb_eq in E. subst. exfalso. apply H. now left.
  - rewrite IH; [reflexivity|]. intros Hin. apply H. now right.
Qed.

Lemma lstrip_app_stop (d t : str) (c : ascii) :
  is_space c = false -> lstrip (d ++ c :: t) = lstrip d ++ c :: t.
Proof.
  intros E. induction d as [|x d IH]; simpl; [now rewrite E|].
  destruct (is_space x); [exact IH|reflexivity].
Qed.

Lemma rstrip_app_keep (x n : str) :
  n <> [] -> rstrip n = n -> rstrip (x ++ n) = x ++ n.
Proof.
  intros NE R. induction x as [|a x IH]; simpl; [exact R|].
  rewrite IH. destruct (x ++ n) eqn:E; [|reflexivity].
  apply app_eq_nil in E as [_ E]. contradiction.
Qed.

Lemma replace_backslash_app (a b : str) :
  replace_backslash (a ++ b) = replace_backslash a ++ replace_backslash b.
Proof. unfold replace_backslash. apply map_app. Qed.

Lemma replace_backslash_none (n : str) :
  ~ In backslash n -> replace_backslash n = n.
Proof.
  induction n as [|c t IH]; simpl; intros H; [reflexivity|].
  destruct (Ascii.eqb c backslash) eqn:E.
  - apply Ascii.eqb_eq in E. subst. exfalso. apply H. now left.
  - rewrite IH; [reflexivity|]. intros Hin. apply H. now right.
Qed.

Lemma path_name_plain (n : str) :
  n <> [] -> n <> [dot] -> ~ In slash n -> path_name n = n.
Proof.
  intros NE ND NS. unfold path_name, path_parts. rewrite (split_no_sep _ _ NS).
  simpl. apply str_eqb_neq in NE, ND. now rewrite NE, ND.
Qed.

Lemma path_name_after_slash (x n : str) :
  n <> [] -> n <> [dot] -> ~ In slash n -> path_name (x ++ slash :: n) = n.
Proof.
  intros NE ND NS. unfold path_name, path_parts.
  rewrite split_app, (split_no_sep _ _ NS), filter_app. simpl.
  apply str_eqb_neq in NE, ND. rewrite NE, ND. simpl. apply last_last.
Qed.

(** Dropping a leading ["./"] keeps the last component. *)
Lemma path_name_skip_dot_slash (x n : str) :
  n <> [] -> n <> [dot] -> ~ In slash n ->
  path_name (if startswith (lit "./") (x ++ slash :: n)
             then skipn 2 (x ++ slash :: n) else x ++ slash :: n)
  = n.
Proof.
  intros NE ND NS.
  destruct (startswith (lit "./") (x ++ slash :: n)) eqn:S;
    [|now apply path_name_after_slash].
  destruct x as [|a [|b x]].
  - simpl in S. discriminate.
  - simpl in *. destruct n as [|n0 n1]; [contradiction|].
    now apply path_name_plain.
  - simpl in *. now apply path_name_after_slash.
Qed.

Lemma normalize_rom_filename_of_path (d n : str) (sep : ascii) :
  sep = slash \/ sep = backslash ->
  plain_name n ->
  normalize_rom_filename_from_xml (d ++ sep :: n) = lower n.
Proof.
  intros Sep [NE [ND [NS [NB R]]]]. unfold normalize_rom_filename_from_xml, strip.
  assert (Sp : is_space sep = false) by (destruct Sep; subst; reflexivity).
  rewrite (lstrip_app_stop d n sep Sp).
  replace (lstrip d ++ sep :: n) with ((lstrip d ++ [sep]) ++ n)
    by (rewrite <- app_assoc; reflexivity).
  rewrite (rstrip_app_keep _ n NE R), <- app_assoc.
  rewrite replace_backslash_app. cbn [app].
  assert (RB : replace_backslash (sep :: n) = slash :: n).
  { unfold replace_backslash at 1. cbn [map]. fold (replace_backslash n).
    rewrite (replace_backslash_none n NB).
    destruct Sep; subst; reflexivity. }
  rewrite RB. cbv zeta. f_equal. now apply path_name_skip_dot_slash.
Qed.

(** X1. The normalized ROM filename of a catalog path is its last component
    in lower case, whatever directories come before it and whichever
    separator is used: for a plain file name [n], the paths [d/n] and [d\n]
    (any prefix [d], in particular ["."]) give [lower n]. *)
Theorem normalize_rom_filename_drops_directories (d n : str) :
  plain_name n ->
  normalize_rom_filename_from_xml (d ++ slash :: n) = lower n
  /\ normalize_rom_filename_from_xml (d ++ backslash :: n) = lower n
  /\ normalize_rom_filename_from_xml (lit "./" ++ n) = lower n.
Proof.
  intros P. split; [|split].
  - apply normalize_rom_filename_of_path; auto.
  - apply normalize_rom_filename_of_path; auto.
  - apply (normalize_rom_filename_of_path [dot] n slash); auto.
Qed.

(** The catalog path [./roms\Celeste.XCI] names the file [Celeste.XCI]. *)
Lemma normalize_rom_filename_drops_directories_witness :
  plain_name (lit "Celeste.XCI")
  /\ normalize_rom_filename_from_xml (lit "./roms" ++ backslash :: lit "Celeste.XCI")
     = lit "celeste.xci".
Proof.
  assert (P : plain_name (lit "Celeste.XCI")).
  { unfold plain_name. repeat split; try discriminate;
      vm_compute; intros H; repeat (destruct H as [H|H]; [discriminate H|]); exact H. }
  split; [exact P|].
  exact (proj1 (proj2 (normalize_rom_filename_drops_directories (lit "./roms")
                         (lit "Celeste.XCI") P))).
Defined.

(** X2. A catalog entry that names a file of the device is written: when
    some file [n] lies anywhere under the system's ROM directory and an
    entry of the master catalog has the path [d/n'] or [d\n'] with [n']
    equal to [n] up to case, the real pass writes a gamelist for the system
    and this entry is one of its children. *)
Theorem device_file_entry_is_written
  (w : world) (system : str) (mc : list str) (backup fuzzy report : bool)
  (stats0 : RunStats) (e0 : effects) (root : element)
  (es : list entry) (n : str) (f : file) (d n' : str) (sep : ascii)
  (entry_ path_el : element) :
  nas_gamelist w system = Some (WellFormed root) ->
  sd_rom_dir w system = Some es ->
  In (FileEntry n f) (rglob es) ->
  In entry_ (findall (lit "game") root) ->
  find_child (lit "path") entry_ = Some path_el ->
  sep = slash \/ sep = backslash ->
  text path_el = Some (d ++ sep :: n') ->
  plain_name n' ->
  lower n' = lower n ->
  exists s' e' doc,
    filter_gamelist_and_sync_media w system mc false backup fuzzy report stats0 e0
    = Ok (s', e')
    /\ dict_get system (sd_gamelists (fs e')) = Some doc
    /\ In entry_ (children doc).
Proof.
  intros G D F Hg Hp Sep Ht P L.
  assert (Rom : In (lower n) (iter_rom_files (sd_rom_dir w system))).
  { apply iter_rom_files_In. exists es, (FileEntry n f). auto. }
  assert (K : keeps (iter_rom_files (sd_rom_dir w system)) entry_ = true).
  { unfold keeps. rewrite Hp, Ht.
    assert (N : normalize_rom_filename_from_xml (d ++ sep :: n') = lower n').
    { apply normalize_rom_filename_of_path; auto. }
    destruct (d ++ sep :: n') as [|c t] eqn:E.
    - destruct d; discriminate.
    - rewrite N, L. now apply mem_In. }
  assert (Kin : In entry_ (kept_games w system root)).
  { unfold kept_games. apply filter_In. auto. }
  assert (NE : iter_rom_files (sd_rom_dir w system) <> []).
  { intros E. rewrite E in Rom. contradiction. }
  destruct (system_pass_returns w system root mc false backup fuzzy report stats0 e0 G NE)
    as [s' [e' [R [_ [GL _]]]]].
  exists s', e', (output_document w system root).
  split; [exact R|]. split.
  - rewrite GL. destruct (kept_games w system root); [contradiction|].
    apply dict_get_set_same.
  - unfold output_document. cbn [children]. apply in_or_app. now right.
Qed.

(** The [switch] catalog lists [.\dlc\ZELDA.nsp]; the device holds
    [dlc/Zelda.NSP]. *)
Lemma device_file_entry_is_written_witness :
  let zelda := game [field "path" ".\dlc\ZELDA.nsp";
                     field "image" "./downloaded_media/switch/covers/Zelda.png"] in
  plain_name (lit "ZELDA.nsp")
  /\ In zelda (findall (lit "game") switch_catalog)
  /\ exists s' e' doc,
       filter_gamelist_and_sync_media demo_world (lit "switch") [lit "covers"]
         false false false true (RunStats_init 1) empty_device = Ok (s', e')
       /\ dict_get (lit "switch") (sd_gamelists (fs e')) = Some doc
       /\ In zelda (children doc).
Proof.
  cbv zeta.
  assert (P : plain_name (lit "ZELDA.nsp")).
  { unfold plain_name. repeat split; try discriminate;
      vm_compute; intros H; repeat (destruct H as [H|H]; [discriminate H|]); exact H. }
  assert (I : In (game [field "path" ".\dlc\ZELDA.nsp";
                        field "image" "./downloaded_media/switch/covers/Zelda.png"])
                 (findall (lit "game") switch_catalog)).
  { vm_compute. right. right. left. reflexivity. }
  split; [exact P|]. split; [exact I|].
  exact (device_file_entry_is_written demo_world (lit "switch") [lit "covers"]
           false false true (RunStats_init 1) empty_device switch_catalog
           [FileEntry (lit "celeste.xci") (demo_file "rom");
            DirEntry (lit "dlc") [FileEntry (lit "Zelda.NSP") (demo_file "rom")]]
           (lit "Zelda.NSP") (demo_file "rom") (lit ".\dlc") (lit "ZELDA.nsp") backslash
           (game [field "path" ".\dlc\ZELDA.nsp";
                  field "image" "./downloaded_media/switch/covers/Zelda.png"])
           (field "path" ".\dlc\ZELDA.nsp")
           eq_refl eq_refl (or_intror (or_intror (or_introl eq_refl)))
           I eq_refl (or_intror eq_refl) eq_refl P eq_refl).
Defined.

(** ** More on [normalize_stem_loose] *)

Lemma char_classes (c : ascii) :
  (is_space c = true -> not_word c = true /\ not_word_or_space c = false)
  /\ (not_word_or_space c = true -> not_word c = true /\ is_space c = false)
  /\ (is_space c = false -> not_word_or_space c = false -> not_word c = false).
Proof. each_char c; repeat split; try reflexivity; discriminate. Qed.

Lemma separator_lower (c : ascii) : not_word (to_lower c) = separator c.
Proof. each_char c; reflexivity. Qed.

(** The two substitutions act as one pass over the class [[^a-z0-9]]. *)
Lemma two_substitutions_one_pass (s : str) (b b' : bool) :
  (b' = true -> b = true) ->
  sub_runs is_space b (sub_runs not_word_or_space b' s) = sub_runs not_word b s.
Proof.
  revert b b'. induction s as [|c t IH]; intros b b' Hb; simpl; [reflexivity|].
  destruct (char_classes c) as [C1 [C2 C3]].
  destruct (not_word_or_space c) eqn:P.
  - destruct (C2 eq_refl) as [W _]. rewrite W.
    destruct b'.
    + rewrite (Hb eq_refl). now apply IH.
    + simpl. destruct b; [now apply IH|]. f_equal. now apply IH.
  - simpl. destruct (is_space c) eqn:S.
    + destruct (C1 eq_refl) as [W _]. rewrite W.
      destruct b; [apply IH; discriminate|]. f_equal. apply IH. discriminate.
    + rewrite (C3 eq_refl eq_refl). f_equal. apply IH. discriminate.
Qed.

Lemma normalize_stem_loose_one_pass (s : str) :
  normalize_stem_loose s = strip (sub_runs not_word false (lower s)).
Proof.
  unfold normalize_stem_loose. now rewrite two_substitutions_one_pass.
Qed.

Lemma sub_runs_similar (b : bool) (x y : str) :
  Forall2 (fun a c => a = c \/ (not_word a = true /\ not_word c = true)) x y ->
  sub_runs not_word b x = sub_runs not_word b y.
Proof.
  intros H. revert b. induction H as [|a c x y R _ IH]; intros b; simpl; [reflexivity|].
  destruct R as [->|[Wa Wc]].
  - destruct (not_word c); [destruct b|]; now rewrite IH.
  - rewrite Wa, Wc. destruct b; now rewrite IH.
Qed.

(** X3. [normalize_stem_loose] sees only the letters and digits of a stem
    and where its separators stand: the two regular-expression passes amount
    to replacing every maximal run of characters outside [a-z0-9] by one
    space, so two stems that agree position by position up to case, or up to
    the choice of separator character, have the same normal form. *)
Theorem normalize_stem_loose_ignores_separator_choice :
  (forall s, normalize_stem_loose s = strip (sub_runs not_word false (lower s)))
  /\ (forall s t,
        same_up_to_case_and_separators s t ->
        normalize_stem_loose s = normalize_stem_loose t).
Proof.
  split; [exact normalize_stem_loose_one_pass|].
  intros s t H. rewrite !normalize_stem_loose_one_pass. f_equal.
  apply sub_runs_similar. unfold lower.
  induction H as [|a c x y R _ IH]; simpl; constructor; [|exact IH].
  destruct R as [E|[Sa Sc]]; [now left|right].
  now rewrite !separator_lower.
Qed.

(** [super-mario_bros] and [Super Mario Bros]. *)
Lemma normalize_stem_loose_ignores_separator_choice_witness :
  same_up_to_case_and_separators (lit "super-mario_bros") (lit "Super Mario Bros")
  /\ normalize_stem_loose (lit "super-mario_bros")
     = normalize_stem_loose (lit "Super Mario Bros").
Proof.
  assert (H : same_up_to_case_and_separators (lit "super-mario_bros")
                                              (lit "Super Mario Bros")).
  { unfold same_up_to_case_and_separators.
    repeat (apply Forall2_cons;
            [first [left; reflexivity | right; split; reflexivity]|]).
    apply Forall2_nil. }
  split; [exact H|].
  exact (proj2 normalize_stem_loose_ignores_separator_choice _ _ H).
Defined.

Lemma tidy_chars (b : bool) (s : str) :
  tidy b s = true ->
  Forall (fun c => is_lower c || is_digit c = true \/ c = space) s.
Proof.
  revert b. induction s as [|c t IH]; intros b H; [constructor|].
  simpl in H. destruct (is_space c).
  - apply andb_true_iff in H as [H1 H2]. apply andb_true_iff in H1 as [Hc _].
    apply Ascii.eqb_eq in Hc. constructor; [now right|eapply IH; eassumption].
  - apply andb_true_iff in H as [H1 H2]. constructor; [now left|eapply IH; eassumption].
Qed.

Lemma tidy_no_double_space (b : bool) (x y : str) :
  tidy b (x ++ space :: space :: y) = false.
Proof.
  revert b. induction x as [|c t IH]; intros b; simpl.
  - now rewrite andb_false_r.
  - destruct (is_space c); rewrite IH; now rewrite !andb_false_r.
Qed.

Lemma rstrip_last (s t : str) (c : ascii) :
  rstrip s = t ++ [c] -> is_space c = false.
Proof.
  revert t. induction s as [|a s IH]; intros t; simpl.
  - destruct t; discriminate.
  - destruct (rstrip s) as [|h r] eqn:R.
    + destruct (is_space a) eqn:E.
      * destruct t; discriminate.
      * destruct t as [|t0 t1]; simpl.
        -- intros [= <-]. exact E.
        -- intros [= <- H]. destruct t1; discriminate.
    + destruct t as [|t0 t1]; simpl.
      * intros H. inversion H.
      * intros [= <- H]. now apply (IH t1).
Qed.

Lemma lstrip_nil_iff (s : str) : lstrip s = [] <-> Forall (fun c => is_space c = true) s.
Proof.
  induction s as [|c t IH]; simpl; [split; [constructor|reflexivity]|].
  destruct (is_space c) eqn:E.
  - rewrite IH. split; [now constructor|]. intros H. now inversion H.
  - split; [discriminate|]. intros H. inversion H. congruence.
Qed.

Lemma rstrip_nil_iff (s : str) : rstrip s = [] <-> Forall (fun c => is_space c = true) s.
Proof.
  induction s as [|c t IH]; simpl; [split; [constructor|reflexivity]|].
  destruct (rstrip t) as [|h r] eqn:R.
  - destruct (is_space c) eqn:E.
    + split; [|reflexivity]. intros _. constructor; [exact E|]. now apply IH.
    + split; [discriminate|]. intros H. inversion H. congruence.
  - split; [discriminate|]. intros H. inversion H as [|? ? _ Ht]. apply IH in Ht.
    discriminate.
Qed.

Lemma strip_nil_iff (s : str) : strip s = [] <-> Forall (fun c => is_space c = true) s.
Proof.
  unfold strip. rewrite rstrip_nil_iff. split.
  - intros H. apply lstrip_nil_iff. pose proof (lstrip_head s) as Hd.
    destruct (lstrip s) as [|c t]; [reflexivity|]. inversion H. congruence.
  - intros H. apply lstrip_nil_iff in H. rewrite H. constructor.
Qed.

Lemma sub_runs_all_space (cls : ascii -> bool) (b : bool) (s : str) :
  (forall c, is_space c = true -> cls c = true) ->
  (Forall (fun c => is_space c = true) (sub_runs cls b s)
   <-> Forall (fun c => cls c = true) s).
Proof.
  intros Sp. revert b. induction s as [|c t IH]; intros b; simpl.
  - split; constructor.
  - destruct (cls c) eqn:E.
    + destruct b.
      * rewrite IH. split; [now constructor|]. intros H. now inversion H.
      * split.
        -- intros H. inversion H. constructor; [exact E|]. now apply (IH true).
        -- intros H. inversion H. constructor; [reflexivity|]. now apply IH.
    + split; intros H; inversion H as [|? ? Hc Ht]; [|congruence].
      apply Sp in Hc. congruence.
Qed.

(** X4. A normalized stem is made of the letters [a-z], digits and single
    spaces only, and neither starts nor ends with a space.  It is empty
    only when the stem holds no ASCII letter and no digit, and for a stem
    of ASCII characters it is empty exactly then. *)
Theorem normalize_stem_loose_shape (s : str) :
  let r := normalize_stem_loose s in
  Forall (fun c => is_lower c || is_digit c = true \/ c = space) r
  /\ (forall x y, r <> x ++ space :: space :: y)
  /\ (forall y, r <> space :: y)
  /\ (forall x, r <> x ++ [space])
  /\ (r = [] ->
      Forall (fun c => is_upper c || is_lower c || is_digit c = false) s)
  /\ (ascii_text s ->
      Forall (fun c => is_upper c || is_lower c || is_digit c = false) s ->
      r = []).
Proof.
  cbv zeta. pose proof (normalize_stem_loose_tidy s) as T.
  assert (Sep : forall c, separator c
                          = negb (is_upper c || is_lower c || is_digit c))
    by (intros c; each_char c; reflexivity).
  assert (E : normalize_stem_loose s = []
              <-> Forall (fun c => is_upper c || is_lower c || is_digit c = false) s).
  { rewrite normalize_stem_loose_one_pass, strip_nil_iff, sub_runs_all_space.
    - unfold lower. rewrite Forall_map. split; intros H;
        (eapply Forall_impl; [|exact H]); intros c; cbv beta;
        rewrite separator_lower, Sep; destruct (is_upper c || is_lower c || is_digit c);
        simpl; congruence.
    - intros c Hc. destruct (char_classes c) as [C1 _]. now apply C1. }
  split; [now apply (tidy_chars false)|]. split; [|split; [|split; [|split]]].
  - intros x y E'. rewrite E', tidy_no_double_space in T. discriminate.
  - intros y E'. unfold normalize_stem_loose, strip in E'.
    pose proof (rstrip_head _ (lstrip_head
                  (sub_runs is_space false
                     (sub_runs not_word_or_space false (lower s))))) as H.
    rewrite E' in H. discriminate.
  - intros x E'. unfold normalize_stem_loose, strip in E'.
    apply rstrip_last in E'. discriminate.
  - apply E.
  - intros _. apply E.
Qed.

(** ** The media index *)

Lemma dict_get_other_set {V} (k k0 : str) (v : V) (d : dict V) :
  k0 <> k -> dict_get k (dict_set k0 v d) = dict_get k d.
Proof.
  intros N. induction d as [|[k' v'] r IH]; simpl.
  - apply str_eqb_neq in N. now rewrite N.
  - destruct (str_eqb k' k0) eqn:E; simpl.
    + apply str_eqb_eq in E. subst k'. apply str_eqb_neq in N. now rewrite N.
    + now rewrite IH.
Qed.

Lemma dict_append_same {V} (k : str) (x : V) (d : dict (list V)) :
  dict_get_or_empty k (dict_append k x d) = dict_get_or_empty k d ++ [x].
Proof.
  unfold dict_get_or_empty. induction d as [|[k' xs] r IH]; simpl.
  - now rewrite str_eqb_refl.
  - destruct (str_eqb k' k) eqn:E; simpl; rewrite E; [reflexivity|exact IH].
Qed.

Lemma dict_append_other {V} (k k0 : str) (x : V) (d : dict (list V)) :
  k0 <> k -> dict_get_or_empty k (dict_append k0 x d) = dict_get_or_empty k d.
Proof.
  intros N. unfold dict_get_or_empty. induction d as [|[k' xs] r IH]; simpl.
  - apply str_eqb_neq in N. now rewrite N.
  - destruct (str_eqb k' k0) eqn:E; simpl.
    + apply str_eqb_eq in E. subst k'. apply str_eqb_neq in N. now rewrite N.
    + destruct (str_eqb k' k); [reflexivity|exact IH].
Qed.

Lemma dict_append_keys {V} (k : str) (x : V) (d : dict (list V)) :
  NoDup (map fst d) ->
  NoDup (map fst (dict_append k x d))
  /\ forall k', In k' (map fst (dict_append k x d)) <-> k' = k \/ In k' (map fst d).
Proof.
  induction d as [|[k0 xs] r IH]; simpl; intros N.
  - split; [repeat constructor; intros []|]. intros k'. intuition congruence.
  - inversion N as [|? ? N1 N2]; subst. destruct (str_eqb k0 k) eqn:E; simpl.
    + apply str_eqb_eq in E. subst. split; [exact N|]. intros k'.
      intuition congruence.
    + destruct (IH N2) as [ND Keys]. split.
      * constructor; [|exact ND]. intros Hin. apply Keys in Hin as [->|Hin].
        -- rewrite str_eqb_refl in E. discriminate.
        -- contradiction.
      * intros k'. rewrite Keys. tauto.
Qed.

Lemma files_keyed_app (key : str -> str) (k : str) (a b : list entry) :
  files_keyed key k (a ++ b) = files_keyed key k a ++ files_keyed key k b.
Proof. unfold files_keyed. apply flat_map_app. Qed.

Lemma files_keyed_In (key : str -> str) (k : str) (listing : list entry)
  (n : str) (f : file) :
  In (n, f) (files_keyed key k listing)
  <-> In (FileEntry n f) listing /\ key n = k.
Proof.
  unfold files_keyed. rewrite in_flat_map. split.
  - intros [e [He H]]. destruct e as [n' f'|]; [|contradiction].
    destruct (str_eqb (key n') k) eqn:E; [|contradiction].
    destruct H as [[= -> ->]|[]]. apply str_eqb_eq in E. auto.
  - intros [He <-]. exists (FileEntry n f). split; [exact He|].
    rewrite str_eqb_refl. now left.
Qed.

Lemma index_file_buckets (fuzzy : bool) (acc : media_index * media_index * nat)
  (e : entry) (k : str) :
  dict_get_or_empty k (fst (fst (index_file fuzzy acc e)))
  = dict_get_or_empty k (fst (fst acc)) ++ files_keyed exact_key k [e]
  /\ dict_get_or_empty k (snd (fst (index_file fuzzy acc e)))
     = dict_get_or_empty k (snd (fst acc))
       ++ (if fuzzy then files_keyed loose_key k [e] else []).
Proof.
  destruct acc as [[ex nm] tot]. destruct e as [n f|]; simpl.
  2:{ rewrite !app_nil_r. destruct fuzzy; now rewrite ?app_nil_r. }
  rewrite app_nil_r. split.
  - fold (exact_key n). destruct (str_eqb (exact_key n) k) eqn:E.
    + apply str_eqb_eq in E. rewrite <- E. apply dict_append_same.
    + rewrite app_nil_r. apply dict_append_other. now apply str_eqb_neq.
  - destruct fuzzy; [|now rewrite app_nil_r].
    rewrite app_nil_r. fold (loose_key n).
    destruct (str_eqb (loose_key n) k) eqn:E.
    + apply str_eqb_eq in E. rewrite <- E. apply dict_append_same.
    + rewrite app_nil_r. apply dict_append_other. now apply str_eqb_neq.
Qed.

Lemma index_files_bucket (fuzzy : bool) (listing : list entry)
  (acc : media_index * media_index * nat) (k : str) :
  dict_get_or_empty k (fst (fst (fold_left (index_file fuzzy) listing acc)))
  = dict_get_or_empty k (fst (fst acc)) ++ files_keyed exact_key k listing
  /\ dict_get_or_empty k (snd (fst (fold_left (index_file fuzzy) listing acc)))
     = dict_get_or_empty k (snd (fst acc))
       ++ (if fuzzy then files_keyed loose_key k listing else []).
Proof.
  revert acc. induction listing as [|e rest IH]; intros acc; cbn [fold_left].
  - simpl. rewrite !app_nil_r. destruct fuzzy; now rewrite ?app_nil_r.
  - destruct (IH (index_file fuzzy acc e)) as [E1 E2].
    destruct (index_file_buckets fuzzy acc e k) as [F1 F2].
    rewrite E1, E2, F1, F2, <- !app_assoc. split.
    + f_equal. change (e :: rest) with ([e] ++ rest). now rewrite files_keyed_app.
    + f_equal. destruct fuzzy; [|reflexivity].
      change (e :: rest) with ([e] ++ rest). now rewrite files_keyed_app.
Qed.

Lemma index_files_keys (fuzzy : bool) (listing : list entry)
  (acc : media_index * media_index * nat) :
  NoDup (map fst (fst (fst acc))) ->
  NoDup (map fst (fst (fst (fold_left (index_file fuzzy) listing acc)))).
Proof.
  revert acc. induction listing as [|e rest IH]; intros acc N; simpl; [exact N|].
  apply IH. destruct acc as [[ex nm] tot]. destruct e as [n f|]; [|exact N].
  simpl in *. now apply dict_append_keys.
Qed.

Lemma index_files_loose_off (listing : list entry)
  (acc : media_index * media_index * nat) :
  snd (fst (fold_left (index_file false) listing acc)) = snd (fst acc).
Proof.
  revert acc. induction listing as [|e rest IH]; intros acc; simpl; [reflexivity|].
  rewrite IH. destruct acc as [[ex nm] tot]. now destruct e.
Qed.

Lemma build_media_index_bucket (dir : option (list entry)) (fuzzy : bool) (k : str) :
  let listing := match dir with Some l => l | None => [] end in
  dict_get_or_empty k (fst (fst (build_media_index dir fuzzy)))
  = files_keyed exact_key k listing
  /\ dict_get_or_empty k (snd (fst (build_media_index dir fuzzy)))
     = (if fuzzy then files_keyed loose_key k listing else []).
Proof.
  cbv zeta. unfold build_media_index. destruct dir as [listing|].
  - apply (index_files_bucket fuzzy listing ([], [], 0) k).
  - simpl. now destruct fuzzy.
Qed.

(** X5. [build_media_index] groups the files of a category directory by
    stem: the bucket of a key in the exact index lists, in directory order,
    the files whose lower-cased stem is that key, and with fuzzy matching
    the bucket of the normalized index lists those whose normalized stem is
    the key; sub-directories are not indexed.  No key occurs twice, the
    normalized index stays empty without fuzzy matching, and the count is the
    number of files of the directory. *)
Theorem media_index_groups_files_by_stem (dir : option (list entry)) (fuzzy : bool) :
  let listing := match dir with Some l => l | None => [] end in
  let exact_idx := fst (fst (build_media_index dir fuzzy)) in
  let norm_idx := snd (fst (build_media_index dir fuzzy)) in
  (forall k, dict_get_or_empty k exact_idx = files_keyed exact_key k listing)
  /\ (forall k, dict_get_or_empty k norm_idx
                = if fuzzy then files_keyed loose_key k listing else [])
  /\ (forall k n f, In (n, f) (dict_get_or_empty k exact_idx)
                    <-> In (FileEntry n f) listing /\ lower (name_stem n) = k)
  /\ NoDup (map fst exact_idx)
  /\ (fuzzy = false -> norm_idx = [])
  /\ snd (build_media_index dir fuzzy) = List.length (filter is_file listing).
Proof.
  cbv zeta. split; [|split; [|split; [|split; [|split]]]].
  - intros k. apply build_media_index_bucket.
  - intros k. apply build_media_index_bucket.
  - intros k n f. rewrite (proj1 (build_media_index_bucket dir fuzzy k)).
    apply (files_keyed_In exact_key).
  - unfold build_media_index. destruct dir as [listing|]; [|constructor].
    apply index_files_keys. constructor.
  - intros ->. unfold build_media_index. destruct dir as [listing|]; [|reflexivity].
    apply index_files_loose_off.
  - rewrite build_media_index_total. now destruct dir.
Qed.

Lemma dict_In_get {V} (k : str) (v : V) (d : dict V) :
  NoDup (map fst d) -> In (k, v) d -> dict_get k d = Some v.
Proof.
  induction d as [|[k' v'] r IH]; simpl; intros N; [intros []|].
  inversion N as [|? ? N1 N2]; subst. intros [[= -> ->]|H].
  - now rewrite str_eqb_refl.
  - destruct (str_eqb k' k) eqn:E.
    + apply str_eqb_eq in E. subst. exfalso. apply N1.
      apply in_map_iff. now exists (k, v).
    + now apply IH.
Qed.

Lemma index_categories_lookup (w : world) (system : str) (fuzzy : bool)
  (mc : list str) (acc : cat_indexes) (c : str) :
  let r := fold_left (index_category w system fuzzy) mc acc in
  dict_get c (cat_exact_idx r)
  = (if mem c mc
     then Some (fst (fst (build_media_index (nas_media_dir w system c) fuzzy)))
     else dict_get c (cat_exact_idx acc))
  /\ dict_get c (cat_norm_idx r)
     = (if mem c mc
        then Some (snd (fst (build_media_index (nas_media_dir w system c) fuzzy)))
        else dict_get c (cat_norm_idx acc)).
Proof.
  cbv zeta. revert acc. induction mc as [|cat rest IH]; intros acc; simpl; [auto|].
  destruct (IH (index_category w system fuzzy acc cat)) as [E N]. rewrite E, N.
  destruct (mem c rest); [rewrite orb_true_r; auto|]. rewrite orb_false_r.
  unfold index_category.
  destruct (build_media_index (nas_media_dir w system cat) fuzzy) as [[ex nm] tot] eqn:B.
  cbn [cat_exact_idx cat_norm_idx].
  destruct (str_eqb c cat) eqn:Ec.
  - apply str_eqb_eq in Ec. subst c. rewrite !dict_get_set_same, B. auto.
  - apply str_eqb_neq in Ec.
    rewrite !dict_get_other_set by (intros H; apply Ec; now symmetry). auto.
Qed.

Lemma category_matches_selected (w : world) (system : str) (mc : list str)
  (fuzzy : bool) (rom cat : str) :
  category_matches (index_categories w system mc fuzzy) fuzzy rom cat
  = if mem cat mc
    then find_matches
           (fst (fst (build_media_index (nas_media_dir w system cat) fuzzy)))
           (snd (fst (build_media_index (nas_media_dir w system cat) fuzzy)))
           fuzzy (lower (path_stem rom))
           (normalize_stem_loose (lower (path_stem rom)))
    else [].
Proof.
  unfold category_matches, index_categories.
  destruct (index_categories_lookup w system fuzzy mc
              {| cat_exact_idx := []; cat_norm_idx := [];
                 effective_categories := []; ignored_count := 0 |} cat) as [E N].
  cbv zeta in E, N. unfold dict_get_or_empty at 1 2.
  change (@dict_get media_index) with (@dict_get (list (str * list media_file)))
    in E, N.
  rewrite E, N.
  destruct (mem cat mc); [reflexivity|]. simpl. unfold find_matches. simpl.
  now destruct fuzzy.
Qed.

Lemma media_index_keys_and_buckets_aux (dir : option (list entry)) (fuzzy : bool) :
  let listing := match dir with Some l => l | None => [] end in
  (forall k, dict_get_or_empty k (fst (fst (build_media_index dir fuzzy)))
             = files_keyed exact_key k listing)
  /\ (forall k, dict_get_or_empty k (snd (fst (build_media_index dir fuzzy)))
                = if fuzzy then files_keyed loose_key k listing else [])
  /\ NoDup (map fst (fst (fst (build_media_index dir fuzzy)))).
Proof.
  cbv zeta. split; [|split].
  - intros k. apply build_media_index_bucket.
  - intros k. apply build_media_index_bucket.
  - unfold build_media_index. destruct dir as [listing|]; [|constructor].
    apply index_files_keys. constructor.
Qed.

(** Why a file is among the matches of a stem. *)
Lemma find_matches_reason (dir : option (list entry)) (fuzzy : bool)
  (stem nstem n : str) (f : file) :
  In (n, f)
     (find_matches (fst (fst (build_media_index dir fuzzy)))
                   (snd (fst (build_media_index dir fuzzy))) fuzzy stem nstem) ->
  In (FileEntry n f) (match dir with Some l => l | None => [] end)
  /\ (exact_key n = stem
      \/ (fuzzy = true
          /\ (loose_key n = nstem \/ startswith stem (exact_key n) = true))).
Proof.
  destruct (media_index_keys_and_buckets_aux dir fuzzy) as [Bex [Bnm ND]].
  unfold find_matches. rewrite Bex.
  destruct (files_keyed exact_key stem _) as [|m0 ms] eqn:Ex.
  - destruct fuzzy; [|intros []]. rewrite Bnm.
    destruct (files_keyed loose_key nstem _) as [|l0 ls] eqn:Nm.
    + intros H. apply in_flat_map in H as [[k files] [Hk H]]. simpl in H.
      destruct (startswith stem k) eqn:S; [|contradiction].
      apply (dict_In_get _ _ _ ND) in Hk.
      assert (B : dict_get_or_empty k (fst (fst (build_media_index dir true))) = files)
        by (unfold dict_get_or_empty; now rewrite Hk).
      rewrite Bex in B. rewrite <- B in H. apply files_keyed_In in H as [H1 H2].
      split; [exact H1|]. right. split; [reflexivity|]. right. now rewrite H2.
    + intros H. rewrite <- Nm in H. apply files_keyed_In in H as [H1 H2].
      split; [exact H1|]. right. auto.
  - intros H. rewrite <- Ex in H. apply files_keyed_In in H as [H1 H2]. auto.
Qed.

(** X6. The pass matches, for a category, only files of that category's own
    master directory, and only for one of three reasons: the file's
    lower-cased stem is the ROM's stem; or, with fuzzy matching, its
    normalized stem is the ROM's normalized stem, or its lower-cased stem
    starts with the ROM's stem.  A category that was not selected matches
    nothing. *)
Theorem matched_files_come_from_category_dir
  (w : world) (system : str) (mc : list str) (fuzzy : bool) (rom cat : str) :
  let idx := index_categories w system mc fuzzy in
  let stem := lower (path_stem rom) in
  (forall n f,
     In (n, f) (category_matches idx fuzzy rom cat) ->
     In cat mc
     /\ In (FileEntry n f) (category_listing w system cat)
     /\ (lower (name_stem n) = stem
         \/ (fuzzy = true
             /\ (normalize_stem_loose (name_stem n) = normalize_stem_loose stem
                 \/ startswith stem (lower (name_stem n)) = true))))
  /\ (~ In cat mc -> category_matches idx fuzzy rom cat = []).
Proof.
  cbv zeta. split.
  - intros n f H. rewrite category_matches_selected in H.
    destruct (mem cat mc) eqn:M; [|contradiction].
    split; [now apply mem_In|].
    apply find_matches_reason in H. exact H.
  - intros N. rewrite category_matches_selected.
    apply mem_not_In in N. now rewrite N.
Qed.

(** X7. A file whose stem is the ROM's stem, up to case, is always found:
    when a selected category's directory holds a file [n] with
    [lower (stem n) = lower (stem rom)], the matches of the category are
    exactly the files of the directory with that stem, fuzzy matching or
    not, and [n] is one of them; the category is not reported missing. *)
Theorem exact_stem_file_is_matched
  (w : world) (system : str) (mc : list str) (fuzzy : bool) (rom cat n : str)
  (f : file) :
  In cat mc ->
  In (FileEntry n f) (category_listing w system cat) ->
  lower (name_stem n) = lower (path_stem rom) ->
  let found := category_matches (index_categories w system mc fuzzy) fuzzy rom cat in
  found = files_keyed exact_key (lower (path_stem rom)) (category_listing w system cat)
  /\ In (n, f) found
  /\ has_matches (cat, found) = true.
Proof.
  intros Hc Hf Hs. cbv zeta. rewrite category_matches_selected.
  apply mem_In in Hc. rewrite Hc.
  destruct (media_index_keys_and_buckets_aux (nas_media_dir w system cat) fuzzy)
    as [Bex _].
  assert (I : In (n, f) (files_keyed exact_key (lower (path_stem rom))
                           (category_listing w system cat))).
  { apply files_keyed_In. auto. }
  unfold find_matches. rewrite Bex. fold (category_listing w system cat).
  destruct (files_keyed exact_key (lower (path_stem rom)) (category_listing w system cat))
    as [|m0 ms] eqn:E; [contradiction|].
  split; [reflexivity|]. split; [exact I|reflexivity].
Qed.

(** [Celeste.png] for [celeste.xci]. *)
Lemma exact_stem_file_is_matched_witness :
  In (lit "covers") [lit "covers"; lit "videos"]
  /\ In (FileEntry (lit "Celeste.png") (demo_file "celeste-cover"))
        (category_listing demo_world (lit "switch") (lit "covers"))
  /\ In (lit "Celeste.png", demo_file "celeste-cover")
        (category_matches
           (index_categories demo_world (lit "switch") [lit "covers"; lit "videos"] false)
           false (lit "celeste.xci") (lit "covers")).
Proof.
  assert (H1 : In (lit "covers") [lit "covers"; lit "videos"]) by (left; reflexivity).
  assert (H2 : In (FileEntry (lit "Celeste.png") (demo_file "celeste-cover"))
                  (category_listing demo_world (lit "switch") (lit "covers")))
    by (left; reflexivity).
  split; [exact H1|]. split; [exact H2|].
  exact (proj1 (proj2 (exact_stem_file_is_matched demo_world (lit "switch")
                         [lit "covers"; lit "videos"] false (lit "celeste.xci")
                         (lit "covers") (lit "Celeste.png") (demo_file "celeste-cover")
                         H1 H2 eq_refl))).
Defined.

(** ** Copying again *)

Lemma segments_eqb_refl (p : list str) : segments_eqb p p = true.
Proof.
  induction p as [|x p IH]; simpl; [reflexivity|].
  now rewrite str_eqb_refl, IH.
Qed.

Lemma existsb_app_last {A} (p : A -> bool) (l : list A) (x : A) :
  p x = true -> existsb p (l ++ [x]) = true.
Proof. intros H. rewrite existsb_app. simpl. rewrite H. now rewrite orb_true_r. Qed.

(** Once made, a directory is there: making it again changes nothing. *)
Lemma ensure_dir_again (p : list str) (dry_run : bool) (e : effects) :
  ensure_dir p dry_run (ensure_dir p dry_run e) = ensure_dir p dry_run e.
Proof.
  unfold ensure_dir. destruct dry_run; [reflexivity|].
  unfold with_fs. cbn [fs stdout sd_dirs sd_media sd_gamelists sd_backups].
  destruct (existsb (segments_eqb p) (sd_dirs (fs e))) eqn:E.
  - now rewrite E.
  - now rewrite (existsb_app_last _ _ _ (segments_eqb_refl p)).
Qed.

(** A copy of the media changes no directory. *)
Lemma ensure_dir_after_copy (p : list str) (k : media_path) (f : file) (e : effects) :
  ensure_dir p false
    (with_fs (fun s =>
                {| sd_dirs := sd_dirs s;
                   sd_media := media_put k f (sd_media s);
                   sd_gamelists := sd_gamelists s;
                   sd_backups := sd_backups s |}) (ensure_dir p false e))
  = with_fs (fun s =>
               {| sd_dirs := sd_dirs s;
                  sd_media := media_put k f (sd_media s);
                  sd_gamelists := sd_gamelists s;
                  sd_backups := sd_backups s |}) (ensure_dir p false e).
Proof.
  unfold ensure_dir, with_fs.
  cbn [fs stdout sd_dirs sd_media sd_gamelists sd_backups].
  destruct (existsb (segments_eqb p) (sd_dirs (fs e))) eqn:E.
  - now rewrite E.
  - now rewrite (existsb_app_last _ _ _ (segments_eqb_refl p)).
Qed.

Lemma same_size_copy_of (s : file) : same_size (copy_of s) s = f_stat_ok s.
Proof.
  unfold same_size, stat_size, copy_of. cbn [f_stat_ok f_data].
  destruct (f_stat_ok s); [apply Nat.eqb_refl|reflexivity].
Qed.

(** [copy_file] outside preview mode, for a source that exists. *)
Lemma copy_file_real (path : media_path) (s : file) (system cat name : str)
  (e : effects) :
  copy_file {| src_path := path; src_node := Some s |} (system, cat, name) false e
  = let ed := ensure_dir [lit "downloaded_media"; system; cat] false e in
    if match media_get (system, cat, name) (sd_media (fs ed)) with
       | Some d => same_size d s
       | None => false
       end
    then Ok (skipped, ed)
    else Ok (copied,
             with_fs (fun st =>
                        {| sd_dirs := sd_dirs st;
                           sd_media := media_put (system, cat, name) (copy_of s)
                                                 (sd_media st);
                           sd_gamelists := sd_gamelists st;
                           sd_backups := sd_backups st |}) ed).
Proof. reflexivity. Qed.

(** X8. Copying is idempotent outside preview mode: after [copy_file] has
    returned for a source whose size can be read, the destination has the
    source's size, and a second [copy_file] of the same source to the same
    destination answers [skipped] and leaves the device (files,
    directories, catalogs, printed lines) exactly as it was. *)
Theorem copy_file_again_is_skipped
  (path : media_path) (s : file) (dst : media_path) (e e1 : effects)
  (r : copy_result) :
  let src := {| src_path := path; src_node := Some s |} in
  f_stat_ok s = true ->
  copy_file src dst false e = Ok (r, e1) ->
  already_synced e1 dst s
  /\ copy_file src dst false e1 = Ok (skipped, e1).
Proof.
  cbv zeta. destruct dst as [[system cat] name]. intros St.
  rewrite !copy_file_real. cbv zeta.
  remember (ensure_dir [lit "downloaded_media"; system; cat] false e) as ed eqn:Ed.
  assert (Sz1 : same_size (copy_of s) s = true) by now rewrite same_size_copy_of.
  destruct (match media_get (system, cat, name) (sd_media (fs ed)) with
            | Some d => same_size d s
            | None => false
            end) eqn:T.
  - (* the first call was a skip already *)
    intros H. injection H as <- <-.
    assert (Again : ensure_dir [lit "downloaded_media"; system; cat] false ed = ed)
      by (rewrite Ed; apply ensure_dir_again).
    rewrite Again, T. split; [|reflexivity].
    destruct (media_get (system, cat, name) (sd_media (fs ed))) as [d|] eqn:G;
      [|discriminate].
    apply same_size_spec in T as [n [H1 H2]]. now exists d, n.
  - intros H. injection H as <- <-.
    assert (Again : forall k f,
              ensure_dir [lit "downloaded_media"; system; cat] false
                (with_fs (fun st =>
                            {| sd_dirs := sd_dirs st;
                               sd_media := media_put k f (sd_media st);
                               sd_gamelists := sd_gamelists st;
                               sd_backups := sd_backups st |}) ed)
              = with_fs (fun st =>
                           {| sd_dirs := sd_dirs st;
                              sd_media := media_put k f (sd_media st);
                              sd_gamelists := sd_gamelists st;
                              sd_backups := sd_backups st |}) ed).
    { intros k f. rewrite Ed. apply ensure_dir_after_copy. }
    rewrite !Again.
    assert (G1 : media_get (system, cat, name)
                   (sd_media (fs (with_fs
                      (fun st =>
                         {| sd_dirs := sd_dirs st;
                            sd_media := media_put (system, cat, name) (copy_of s)
                                                  (sd_media st);
                            sd_gamelists := sd_gamelists st;
                            sd_backups := sd_backups st |}) ed)))
                 = Some (copy_of s)).
    { cbn [with_fs fs sd_media]. apply media_get_put_same. }
    rewrite G1, Sz1. split; [|reflexivity].
    apply same_size_spec in Sz1 as [n [H1 H2]]. now exists (copy_of s), n.
Qed.

(** The cover of [Celeste], copied to an empty device and copied again. *)
Lemma copy_file_again_is_skipped_witness :
  let cover := (lit "switch", lit "covers", lit "Celeste.png") in
  let src := {| src_path := cover; src_node := Some (demo_file "celeste-cover") |} in
  exists e1,
    copy_file src cover false empty_device = Ok (copied, e1)
    /\ copy_file src cover false e1 = Ok (skipped, e1).
Proof.
  cbv zeta. eexists. split; [reflexivity|].
  exact (proj2 (copy_file_again_is_skipped
                  (lit "switch", lit "covers", lit "Celeste.png")
                  (demo_file "celeste-cover")
                  (lit "switch", lit "covers", lit "Celeste.png")
                  empty_device _ copied eq_refl eq_refl)).
Defined.

(** ** The catalog on the device: backup and replacement *)

Lemma backup_name_eqb_eq (a b : str * str) : backup_name_eqb a b = true <-> a = b.
Proof.
  destruct a as [a1 a2], b as [b1 b2]. unfold backup_name_eqb. cbn [fst snd].
  rewrite andb_true_iff, !str_eqb_eq. split.
  - intros [-> ->]. reflexivity.
  - intros [= -> ->]. auto.
Qed.

Lemma backup_get_put_same (k : str * str) (doc : element)
  (m : list ((str * str) * element)) :
  backup_get k (backup_put k doc m) = Some doc.
Proof.
  induction m as [|[k' d'] r IH]; simpl.
  - now rewrite (proj2 (backup_name_eqb_eq k k) eq_refl).
  - destruct (backup_name_eqb k' k) eqn:E; simpl; rewrite E; [reflexivity|exact IH].
Qed.

Lemma backup_get_put_other (k k0 : str * str) (doc : element)
  (m : list ((str * str) * element)) :
  k0 <> k -> backup_get k (backup_put k0 doc m) = backup_get k m.
Proof.
  intros N.
  assert (F : forall k', backup_name_eqb k' k0 = true -> backup_name_eqb k' k = false).
  { intros k' E. apply backup_name_eqb_eq in E. subst k'.
    destruct (backup_name_eqb k0 k) eqn:E'; [|reflexivity].
    apply backup_name_eqb_eq in E'. contradiction. }
  induction m as [|[k' d'] r IH]; simpl.
  - now rewrite (F k0 (proj2 (backup_name_eqb_eq k0 k0) eq_refl)).
  - destruct (backup_name_eqb k' k0) eqn:E; simpl.
    + now rewrite (F k' E).
    + now rewrite IH.
Qed.

Lemma system_pass_catalog_files (w : world) (system : str) (root : element)
  (mc : list str) (dry_run backup fuzzy report : bool)
  (stats0 : RunStats) (e0 : effects) :
  nas_gamelist w system = Some (WellFormed root) ->
  iter_rom_files (sd_rom_dir w system) <> [] ->
  let wrote :=
    match kept_games w system root with
    | [] => false
    | _ => negb dry_run
    end in
  exists s' e',
    filter_gamelist_and_sync_media w system mc dry_run backup fuzzy report stats0 e0
    = Ok (s', e')
    /\ sd_gamelists (fs e')
       = (if wrote
          then dict_set system (output_document w system root) (sd_gamelists (fs e0))
          else sd_gamelists (fs e0))
    /\ sd_backups (fs e')
       = (if wrote && backup
          then match dict_get system (sd_gamelists (fs e0)) with
               | Some old =>
                   backup_put (system, backup_stamp w system) old (sd_backups (fs e0))
               | None => sd_backups (fs e0)
               end
          else sd_backups (fs e0))
    /\ gamelists_written s'
       = gamelists_written stats0 + (if wrote then 1 else 0).
Proof.
  intros G NE. cbv zeta. unfold filter_gamelist_and_sync_media. rewrite G.
  destruct (iter_rom_files (sd_rom_dir w system)) as [|r0 rs] eqn:Roms; [contradiction|].
  rewrite <- Roms.
  destruct (reconcile_returns w system root mc dry_run fuzzy report stats0 e0)
    as [st [R [N [C [_ [W [GL [B _]]]]]]]].
  cbv zeta in R. rewrite R. cbn [bind]. unfold output_document.
  rewrite C. destruct (kept_games w system root) as [|k ks] eqn:K.
  - cbn [List.length]. do 2 eexists. split; [reflexivity|].
    cbn [print fs andb]. rewrite GL, B, W. repeat split. lia.
  - cbn [List.length].
    destruct (ensure_dir_frame [lit "gamelists"; system] dry_run (eff st))
      as [_ [G1 [B1 _]]].
    remember (ensure_dir [lit "gamelists"; system] dry_run (eff st)) as e1 eqn:E1.
    destruct dry_run.
    + do 2 eexists. split; [reflexivity|]. cbn [negb andb print fs].
      assert (F : fs (if backup then backup_file w system true e1 else e1) = fs e1).
      { destruct backup; [|reflexivity]. unfold backup_file.
        now destruct (dict_get system (sd_gamelists (fs e1))). }
      rewrite F, G1, B1, GL, B. repeat split.
      simpl. rewrite W. lia.
    + do 2 eexists. split; [reflexivity|].
      cbn [negb andb print write_gamelist with_fs fs sd_gamelists sd_backups].
      rewrite N. split; [|split].
      * f_equal. destruct backup; [|now rewrite G1, GL].
        unfold backup_file. destruct (dict_get system (sd_gamelists (fs e1)));
          cbn [with_fs fs sd_gamelists]; now rewrite G1, GL.
      * destruct backup; [|now rewrite B1, B].
        unfold backup_file. rewrite G1, GL.
        destruct (dict_get system (sd_gamelists (fs e0)));
          cbn [with_fs fs sd_backups]; now rewrite B1, B.
      * simpl. rewrite W. lia.
Qed.

(** X9. A real pass that keeps a game replaces the catalog the device has
    for the system by the new document; the catalogs of the other systems
    are not touched.  With [--backup_gamelist] and a catalog already on the
    device, that catalog is first saved, unchanged, as the backup file of
    the system under the current stamp, where it replaces a backup of that
    same name; the backups under other names stay as they were.  Without
    the option, or without a previous catalog, the backups are left as they
    were. *)
Theorem backup_keeps_previous_gamelist
  (w : world) (system : str) (mc : list str) (backup fuzzy report : bool)
  (stats0 : RunStats) (e0 : effects) (root : element) :
  nas_gamelist w system = Some (WellFormed root) ->
  kept_games w system root <> [] ->
  exists s' e',
    filter_gamelist_and_sync_media w system mc false backup fuzzy report stats0 e0
    = Ok (s', e')
    /\ dict_get system (sd_gamelists (fs e')) = Some (output_document w system root)
    /\ (forall other, other <> system ->
          dict_get other (sd_gamelists (fs e')) = dict_get other (sd_gamelists (fs e0)))
    /\ match backup, dict_get system (sd_gamelists (fs e0)) with
       | true, Some old =>
           backup_get (system, backup_stamp w system) (sd_backups (fs e')) = Some old
           /\ forall name, name <> (system, backup_stamp w system) ->
                backup_get name (sd_backups (fs e'))
                = backup_get name (sd_backups (fs e0))
       | _, _ => sd_backups (fs e') = sd_backups (fs e0)
       end
    /\ gamelists_written s' = gamelists_written stats0 + 1.
Proof.
  intros G K.
  assert (NE : iter_rom_files (sd_rom_dir w system) <> []).
  { intros E. apply K. now apply kept_games_need_roms. }
  destruct (system_pass_catalog_files w system root mc false backup fuzzy report
              stats0 e0 G NE) as [s' [e' [R [GL [B W]]]]].
  exists s', e'. split; [exact R|].
  destruct (kept_games w system root) as [|k ks]; [contradiction|].
  cbn [negb andb] in GL, B, W. rewrite GL, B, W.
  split; [apply dict_get_set_same|]. split; [|split; [|reflexivity]].
  - intros other N. apply dict_get_other_set. congruence.
  - destruct backup; [|reflexivity].
    destruct (dict_get system (sd_gamelists (fs e0))) as [old|]; [|reflexivity].
    split; [apply backup_get_put_same|].
    intros name N. apply backup_get_put_other. congruence.
Qed.

(** A second pass over [switch] with the option on, on a device that holds
    an older catalog and an older backup. *)
Lemma backup_keeps_previous_gamelist_witness :
  let old := Element (lit "gameList") None [] in
  let older := Element (lit "gameList") None [field "note" "first"] in
  let device :=
    {| fs := {| sd_dirs := []; sd_media := [];
                sd_gamelists := [(lit "switch", old)];
                sd_backups := [((lit "switch", lit "20231224-180000"), older)] |};
       stdout := [] |} in
  exists s' e',
    filter_gamelist_and_sync_media demo_world (lit "switch") [lit "covers"]
      false true false false (RunStats_init 1) device = Ok (s', e')
    /\ dict_get (lit "switch") (sd_gamelists (fs e'))
       = Some (output_document demo_world (lit "switch") switch_catalog)
    /\ backup_get (lit "switch", lit "20240101-120000") (sd_backups (fs e')) = Some old
    /\ backup_get (lit "switch", lit "20231224-180000") (sd_backups (fs e'))
       = Some older.
Proof.
  cbv zeta.
  assert (H1 : nas_gamelist demo_world (lit "switch") = Some (WellFormed switch_catalog))
    by reflexivity.
  assert (H2 : kept_games demo_world (lit "switch") switch_catalog <> [])
    by (vm_compute; discriminate).
  destruct (backup_keeps_previous_gamelist demo_world (lit "switch") [lit "covers"]
              true false false (RunStats_init 1)
              {| fs := {| sd_dirs := []; sd_media := [];
                          sd_gamelists := [(lit "switch", Element (lit "gameList") None [])];
                          sd_backups :=
                            [((lit "switch", lit "20231224-180000"),
                              Element (lit "gameList") None [field "note" "first"])] |};
                 stdout := [] |}
              switch_catalog H1 H2)
    as [s' [e' [R [D [_ [B _]]]]]].
  cbn [fs sd_gamelists sd_backups dict_get] in B.
  change (str_eqb (lit "switch") (lit "switch")) with true in B. cbv iota in B.
  destruct B as [B1 B2].
  exists s', e'. split; [exact R|]. split; [exact D|]. split; [exact B1|].
  rewrite B2; [reflexivity|]. intros H. discriminate H.
Defined.

(** ** The ROM names of a system *)

Lemma entry_tree_ind (P : entry -> Prop) :
  (forall n f, P (FileEntry n f)) ->
  (forall d kids, Forall P kids -> P (DirEntry d kids)) ->
  forall e, P e.
Proof.
  intros Hfile Hdir. fix IH 1. intros [n f|d kids].
  - apply Hfile.
  - apply Hdir. induction kids as [|k r IHr]; constructor; [apply IH|exact IHr].
Qed.

Lemma rglob_entry_holds (e : entry) :
  forall n f, In (FileEntry n f) (rglob_entry e) ->
  forall es, In e es -> exists dirs, holds es dirs n f.
Proof.
  induction e as [n0 f0|d kids IH] using entry_tree_ind; intros n f H es He.
  - destruct H as [H|[]]. injection H as <- <-. exists []. now constructor.
  - cbn [rglob_entry] in H. destruct H as [H|H]; [discriminate|].
    apply in_flat_map in H as [k [Hk H]].
    rewrite Forall_forall in IH.
    destruct (IH k Hk n f H kids Hk) as [dirs Hd].
    exists (d :: dirs). eapply holds_deeper; eassumption.
Qed.

Lemma rglob_holds (es : list entry) (n : str) (f : file) :
  In (FileEntry n f) (rglob es) <-> exists dirs, holds es dirs n f.
Proof.
  split.
  - intros H. apply in_flat_map in H as [e [He H]].
    now apply (rglob_entry_holds e n f H es).
  - intros [dirs H]. induction H as [es n f H|es d kids dirs n f H _ IH].
    + apply in_flat_map. exists (FileEntry n f). split; [exact H|now left].
    + apply in_flat_map. exists (DirEntry d kids). split; [exact H|].
      cbn [rglob_entry]. right. exact IH.
Qed.

Lemma NoDup_snoc {A} (l : list A) (x : A) :
  NoDup l -> ~ In x l -> NoDup (l ++ [x]).
Proof.
  induction l as [|y l IH]; simpl; intros N H.
  - constructor; [intros []|constructor].
  - inversion N as [|? ? N1 N2]; subst. constructor.
    + intros Hin. apply in_app_or in Hin as [Hin|[->|[]]]; [contradiction|].
      apply H. now left.
    + apply IH; [exact N2|]. intros Hin. apply H. now right.
Qed.

Lemma set_add_NoDup (x : str) (s : list str) : NoDup s -> NoDup (set_add x s).
Proof.
  intros N. unfold set_add. destruct (mem x s) eqn:M; [exact N|].
  apply mem_not_In in M. now apply NoDup_snoc.
Qed.

Lemma set_of_list_NoDup (l : list str) : NoDup (set_of_list l).
Proof.
  unfold set_of_list.
  assert (G : forall acc, NoDup acc -> NoDup (fold_left (fun s x => set_add x s) l acc)).
  { induction l as [|y l IH]; intros acc N; simpl; [exact N|].
    apply IH. now apply set_add_NoDup. }
  apply G. constructor.
Qed.

Lemma to_lower_idem (c : ascii) : to_lower (to_lower c) = to_lower c.
Proof. each_char c; reflexivity. Qed.

Lemma lower_idem (s : str) : lower (lower s) = lower s.
Proof.
  unfold lower. rewrite map_map. apply map_ext. intros c. apply to_lower_idem.
Qed.

(** X10. The ROM names of a system are the lower-cased names of the files
    found at any depth below its ROM directory, each once: a name is
    reported exactly when some chain of sub-directories leads to a file of
    that name up to letter case; directories give no name; and an absent
    directory gives none. *)
Theorem iter_rom_files_names (dir : option (list entry)) :
  NoDup (iter_rom_files dir)
  /\ (forall x, In x (iter_rom_files dir) -> lower x = x)
  /\ (forall x,
        In x (iter_rom_files dir)
        <-> exists es dirs n f,
              dir = Some es /\ holds es dirs n f /\ x = lower n)
  /\ (dir = None -> iter_rom_files dir = []).
Proof.
  assert (M : forall x,
            In x (iter_rom_files dir)
            <-> exists es dirs n f,
                  dir = Some es /\ holds es dirs n f /\ x = lower n).
  { intros x. rewrite iter_rom_files_In. split.
    - intros [es [e [D [H [F ->]]]]]. destruct e as [n f|]; [|discriminate].
      apply rglob_holds in H as [dirs H]. now exists es, dirs, n, f.
    - intros [es [dirs [n [f [D [H ->]]]]]]. exists es, (FileEntry n f).
      split; [exact D|]. split; [|split; reflexivity].
      apply rglob_holds. now exists dirs. }
  split; [|split; [|split]].
  - unfold iter_rom_files. destruct dir; [apply set_of_list_NoDup|constructor].
  - intros x H. apply M in H as [es [dirs [n [f [_ [_ ->]]]]]]. apply lower_idem.
  - exact M.
  - intros ->. reflexivity.
Qed.

(** ** The expected categories of a game *)

Lemma str_leb_total (a b : str) : str_leb a b = false -> str_leb b a = true.
Proof.
  revert b. induction a as [|x a IH]; intros [|y b]; simpl; try discriminate;
    try reflexivity.
  destruct (N.ltb_spec (code x) (code y)) as [L|L]; [discriminate|].
  destruct (N.ltb_spec (code y) (code x)) as [L'|L']; [reflexivity|].
  apply IH.
Qed.

Lemma str_leb_trans (a b c : str) :
  str_leb a b = true -> str_leb b c = true -> str_leb a c = true.
Proof.
  revert b c. induction a as [|x a IH]; intros [|y b] [|z c]; simpl;
    try discriminate; try reflexivity.
  destruct (N.ltb_spec (code x) (code y)) as [L1|L1];
    destruct (N.ltb_spec (code y) (code z)) as [L2|L2];
    destruct (N.ltb_spec (code x) (code z)) as [L3|L3];
    try reflexivity;
    destruct (N.ltb_spec (code y) (code x)) as [L4|L4];
    destruct (N.ltb_spec (code z) (code y)) as [L5|L5];
    destruct (N.ltb_spec (code z) (code x)) as [L6|L6];
    try discriminate; try lia; try reflexivity.
  apply IH.
Qed.

Lemma insert_sorted_ascending (x : str) (l : list str) :
  ascending l -> ascending (insert_sorted x l).
Proof.
  induction l as [|y r IH]; simpl; intros A.
  - split; [intros y []|exact I].
  - destruct A as [A1 A2]. destruct (str_leb x y) eqn:L; simpl.
    + split; [|split; assumption]. intros z [<-|Hz]; [exact L|].
      apply (str_leb_trans x y z L). now apply A1.
    + split; [|now apply IH]. intros z Hz. apply insert_sorted_In in Hz as [->|Hz].
      * now apply str_leb_total.
      * now apply A1.
Qed.

Lemma sorted_ascending (l : list str) : ascending (sorted l).
Proof.
  induction l as [|x l IH]; simpl; [exact I|]. now apply insert_sorted_ascending.
Qed.

Lemma insert_sorted_NoDup (x : str) (l : list str) :
  NoDup l -> ~ In x l -> NoDup (insert_sorted x l).
Proof.
  induction l as [|y r IH]; simpl; intros N H.
  - constructor; [intros []|constructor].
  - destruct (str_leb x y).
    + constructor; assumption.
    + inversion N as [|? ? N1 N2]; subst. constructor.
      * intros Hin. apply insert_sorted_In in Hin as [->|Hin].
        -- apply H. now left.
        -- contradiction.
      * apply IH; [exact N2|]. intros Hin. apply H. now right.
Qed.

Lemma sorted_NoDup (l : list str) : NoDup l -> NoDup (sorted l).
Proof.
  induction l as [|x l IH]; simpl; intros N; [constructor|].
  inversion N as [|? ? N1 N2]; subst.
  apply insert_sorted_NoDup; [now apply IH|]. now rewrite sorted_In.
Qed.

Lemma sorted_length (l : list str) : List.length (sorted l) = List.length l.
Proof.
  induction l as [|x l IH]; simpl; [reflexivity|]. rewrite <- IH.
  generalize (sorted l). intros s. induction s as [|y r IHs]; simpl; [reflexivity|].
  destruct (str_leb x y); simpl; [reflexivity|]. now rewrite IHs.
Qed.

Lemma expected_step_NoDup (system : str) (selected expected : list str)
  (child : element) :
  NoDup expected -> NoDup (expected_step system selected expected child).
Proof.
  intros N. unfold expected_step.
  destruct (text child) as [raw|]; [|exact N].
  destruct (strip raw) as [|c t]; [exact N|].
  destruct (negb (looks_like_media_ref (c :: t))); [exact N|].
  destruct (parse_category_from_media_ref (c :: t) system) as [cat|]; [|exact N].
  destruct (truthy (Some cat) && mem cat selected); [|exact N].
  now apply set_add_NoDup.
Qed.

Lemma expected_categories_NoDup (game : element) (system : str) (selected : list str) :
  NoDup (expected_categories_from_game_xml game system selected).
Proof.
  unfold expected_categories_from_game_xml.
  assert (G : forall l acc, NoDup acc ->
                NoDup (fold_left (expected_step system selected) l acc)).
  { induction l as [|c l IH]; intros acc N; simpl; [exact N|].
    apply IH. now apply expected_step_NoDup. }
  apply G. constructor.
Qed.

(** X11. The categories the pass tries for a game are, when some media
    field of its entry names an effective category, exactly the effective
    categories so named, each once and in ascending order; when no field
    names one, they are all the effective categories, in selection order. *)
Theorem expected_categories_for_choice (game : element) (system : str)
  (effective : list str) :
  let r := expected_categories_for game system effective in
  ((exists c, field_gives game system c /\ In c effective) ->
     (forall c, In c r <-> field_gives game system c /\ In c effective)
     /\ NoDup r /\ ascending r)
  /\ ((forall c, field_gives game system c -> ~ In c effective) -> r = effective).
Proof.
  cbv zeta. unfold expected_categories_for.
  pose proof (expected_categories_In game system effective) as M.
  pose proof (expected_categories_NoDup game system effective) as N.
  destruct (expected_categories_from_game_xml game system effective) as [|c0 cs] eqn:E.
  - split.
    + intros [c Hc]. apply M in Hc. contradiction.
    + reflexivity.
  - split.
    + intros _. split; [|split].
      * intros c. rewrite sorted_In. apply M.
      * now apply sorted_NoDup.
      * apply sorted_ascending.
    + intros H. exfalso. destruct (proj1 (M c0) (or_introl eq_refl)) as [H1 H2].
      now apply (H c0).
Qed.

(** ** The counters of a pass, exactly *)

Ltac bump_eq :=
  unfold bump, decisions; simpl;
  repeat (apply (f_equal2 (@cons nat)); [lia|]); reflexivity.

Lemma decisions_bump (s s' : RunStats) (p k t h a m i : nat) :
  decisions s' = bump s p k t h a m i ->
  systems_seen s' = systems_seen s
  /\ systems_processed s' = systems_processed s + p
  /\ games_kept s' = games_kept s + k
  /\ games_total_in_master s' = games_total_in_master s + t
  /\ media_files_copied s' + media_files_skipped s'
     = media_files_copied s + media_files_skipped s + h
  /\ media_categories_attempted s' = media_categories_attempted s + a
  /\ media_categories_missing s' = media_categories_missing s + m
  /\ categories_ignored_empty_or_missing s'
     = categories_ignored_empty_or_missing s + i.
Proof.
  unfold decisions, bump. intros H. injection H as H1 H2 H3 H4 H5 H6 H7 H8.
  repeat split; assumption.
Qed.

Lemma bump_decisions (s s' : RunStats) (p k t h a m i : nat) :
  systems_seen s' = systems_seen s ->
  systems_processed s' = systems_processed s + p ->
  games_kept s' = games_kept s + k ->
  games_total_in_master s' = games_total_in_master s + t ->
  media_files_copied s' + media_files_skipped s'
  = media_files_copied s + media_files_skipped s + h ->
  media_categories_attempted s' = media_categories_attempted s + a ->
  media_categories_missing s' = media_categories_missing s + m ->
  categories_ignored_empty_or_missing s'
  = categories_ignored_empty_or_missing s + i ->
  decisions s' = bump s p k t h a m i.
Proof.
  intros H1 H2 H3 H4 H5 H6 H7 H8. unfold decisions, bump.
  now rewrite H1, H2, H3, H4, H5, H6, H7, H8.
Qed.

Lemma account_category_bump (s : RunStats) (p : str * list media_file) :
  decisions (account_category s p)
  = bump s 0 0 0 (List.length (snd p)) 1 (if has_matches p then 0 else 1) 0.
Proof.
  unfold account_category, has_matches. destruct (snd p) as [|m ms]; bump_eq.
Qed.

Lemma account_plan_bump (plan : list (str * list media_file)) (s : RunStats) :
  decisions (fold_left account_category plan s)
  = bump s 0 0 0 (List.length (plan_files plan)) (List.length plan)
         (List.length (plan_missed plan)) 0.
Proof.
  revert s. induction plan as [|p plan IH]; intros s.
  - bump_eq.
  - cbn [fold_left]. rewrite IH.
    destruct (decisions_bump _ _ _ _ _ _ _ _ _ (account_category_bump s p))
      as [H1 [H2 [H3 [H4 [H5 [H6 [H7 H8]]]]]]].
    unfold bump. rewrite H1, H2, H3, H4, H5, H6, H7, H8.
    unfold plan_files, plan_missed. cbn [flat_map filter].
    rewrite length_app. destruct (has_matches p); cbn [negb map List.length];
      repeat (apply (f_equal2 (@cons nat)); [lia|]); reflexivity.
Qed.

Lemma account_games_bump (plans : list (list (str * list media_file))) (s : RunStats) :
  decisions (fold_left account_game plans s)
  = bump s 0 (List.length plans) 0
         (List.length (flat_map plan_files plans))
         (List.length (List.concat plans))
         (List.length (flat_map plan_missed plans)) 0.
Proof.
  revert s. induction plans as [|pl plans IH]; intros s.
  - bump_eq.
  - cbn [fold_left]. rewrite IH. unfold account_game.
    destruct (decisions_bump _ _ _ _ _ _ _ _ _
                (account_plan_bump pl (add_to c_games_kept 1 s)))
      as [H1 [H2 [H3 [H4 [H5 [H6 [H7 H8]]]]]]].
    unfold bump. rewrite H1, H2, H3, H4, H5, H6, H7, H8.
    cbn [flat_map List.concat List.length]. rewrite !length_app. simpl.
    repeat (apply (f_equal2 (@cons nat)); [lia|]); reflexivity.
Qed.

Lemma account_system_bump (w : world) (system : str) (mc : list str)
  (fuzzy : bool) (root : element) (s : RunStats) :
  let plans := system_plans w system mc fuzzy root in
  decisions (account_system w system mc fuzzy root s)
  = bump s (match kept_games w system root with [] => 0 | _ => 1 end)
         (List.length (kept_games w system root))
         (List.length (findall (lit "game") root))
         (List.length (flat_map plan_files plans))
         (List.length (List.concat plans))
         (List.length (flat_map plan_missed plans))
         (List.length (filter (pruned w system) mc)).
Proof.
  cbv zeta. unfold account_system.
  destruct (index_categories_pruning w system mc fuzzy) as [_ Ig]. cbv zeta in Ig.
  rewrite Ig.
  set (s2 := add_to c_games_total_in_master _ _).
  destruct (decisions_bump _ _ _ _ _ _ _ _ _
              (account_games_bump (system_plans w system mc fuzzy root) s2))
    as [H1 [H2 [H3 [H4 [H5 [H6 [H7 H8]]]]]]].
  assert (L : List.length (system_plans w system mc fuzzy root)
              = List.length (kept_games w system root))
    by (unfold system_plans; apply length_map).
  rewrite L in H3.
  destruct (kept_games w system root) as [|k ks]; apply bump_decisions;
    subst s2; simpl in *; lia.
Qed.

(** ** The report of a pass *)

Lemma plan_of_categories (idx : cat_indexes) (fuzzy : bool) (rom : str)
  (cats : list str) :
  let plan := map (fun cat => (cat, category_matches idx fuzzy rom cat)) cats in
  plan_matched plan = filter (fun c => negb (unmatched idx fuzzy rom c)) cats
  /\ plan_missed plan = filter (unmatched idx fuzzy rom) cats.
Proof.
  cbv zeta. unfold plan_matched, plan_missed, unmatched, has_matches.
  induction cats as [|c cats [IH1 IH2]]; [split; reflexivity|].
  cbn [map filter fst snd].
  destruct (category_matches idx fuzzy rom c); cbn [negb map fst];
    rewrite IH1, IH2; split; reflexivity.
Qed.

Lemma plan_split_length (plan : list (str * list media_file)) :
  List.length (plan_matched plan) + List.length (plan_missed plan) = List.length plan.
Proof.
  unfold plan_matched, plan_missed. rewrite !length_map.
  induction plan as [|p plan IH]; simpl; [reflexivity|].
  destruct (has_matches p); simpl; lia.
Qed.

Lemma report_lines_lengths (idx : cat_indexes) (system : str) (fuzzy : bool)
  (games : list element) :
  let lines := map (game_report_line idx system fuzzy) games in
  let plans := map (game_plan idx system fuzzy) games in
  List.length (flat_map (fun l => snd (fst l) ++ snd l) lines)
  = List.length (List.concat plans)
  /\ List.length (flat_map snd lines) = List.length (flat_map plan_missed plans).
Proof.
  cbv zeta. induction games as [|g games [IH1 IH2]]; [split; reflexivity|].
  cbn [map flat_map List.concat]. rewrite !length_app, IH1, IH2.
  unfold game_report_line at 1 2 3. cbn [fst snd].
  rewrite <- (plan_split_length (game_plan idx system fuzzy g)). split; lia.
Qed.

Lemma Forall2_map_self {A B} (P : A -> B -> Prop) (f : A -> B) (l : list A) :
  (forall x, P x (f x)) -> Forall2 P l (map f l).
Proof. intros H. induction l as [|x l IH]; constructor; [apply H|exact IH]. Qed.

(** X12. With [--report], a pass prints one line per kept game, in catalog
    order; its matched list and its missed list split the game's expected
    categories, in their order, into those with and those without a
    matching file, so no category is in both and none is left out.  The
    pass adds to [media_categories_attempted] the number of categories on
    the lines, and to [media_categories_missing] the number of missed
    ones. *)
Theorem report_lines_split_expected
  (w : world) (system : str) (mc : list str) (dry_run backup fuzzy : bool)
  (stats0 : RunStats) (e0 : effects) (root : element) :
  nas_gamelist w system = Some (WellFormed root) ->
  iter_rom_files (sd_rom_dir w system) <> [] ->
  let idx := index_categories w system mc fuzzy in
  exists s' e' lines,
    filter_gamelist_and_sync_media w system mc dry_run backup fuzzy true stats0 e0
    = Ok (s', e')
    /\ report_lines (stdout e') = report_lines (stdout e0) ++ lines
    /\ Forall2
         (fun g line =>
            let rom := rom_filename_of g in
            let expected :=
              expected_categories_for g system (effective_categories idx) in
            line = (path_name rom,
                    filter (fun c => negb (unmatched idx fuzzy rom c)) expected,
                    filter (unmatched idx fuzzy rom) expected))
         (kept_games w system root) lines
    /\ media_categories_attempted s'
       = media_categories_attempted stats0
         + List.length (flat_map (fun l => snd (fst l) ++ snd l) lines)
    /\ media_categories_missing s'
       = media_categories_missing stats0 + List.length (flat_map snd lines).
Proof.
  intros G NE. cbv zeta.
  destruct (system_pass_returns w system root mc dry_run backup fuzzy true
              stats0 e0 G NE) as [s' [e' [R [D [_ P]]]]].
  exists s', e',
    (map (game_report_line (index_categories w system mc fuzzy) system fuzzy)
         (kept_games w system root)).
  split; [exact R|]. split; [exact P|]. split.
  - apply Forall2_map_self. intros g.
    unfold game_report_line, game_plan.
    destruct (plan_of_categories (index_categories w system mc fuzzy) fuzzy
                (rom_filename_of g)
                (expected_categories_for g system
                   (effective_categories (index_categories w system mc fuzzy))))
      as [M1 M2].
    cbv zeta in M1, M2. now rewrite M1, M2.
  - rewrite account_system_bump in D. cbv zeta in D.
    apply decisions_bump in D as [_ [_ [_ [_ [_ [A [M _]]]]]]].
    destruct (report_lines_lengths (index_categories w system mc fuzzy) system fuzzy
                (kept_games w system root)) as [L1 L2].
    cbv zeta in L1, L2. unfold system_plans in A, M. rewrite L1, L2. auto.
Qed.

(** The [switch] pass over the example installation. *)
Lemma report_lines_split_expected_witness :
  exists s' e' lines,
    filter_gamelist_and_sync_media demo_world (lit "switch")
      [lit "covers"; lit "videos"] true false false true (RunStats_init 1) empty_device
    = Ok (s', e')
    /\ report_lines (stdout e') = lines
    /\ List.length lines = 2
    /\ media_categories_attempted s'
       = List.length (flat_map (fun l => snd (fst l) ++ snd l) lines).
Proof.
  destruct (report_lines_split_expected demo_world (lit "switch")
              [lit "covers"; lit "videos"] true false false (RunStats_init 1)
              empty_device switch_catalog eq_refl)
    as [s' [e' [lines [R [P [F [A _]]]]]]].
  - vm_compute. discriminate.
  - exists s', e', lines. split; [exact R|]. split; [exact P|]. split; [|exact A].
    apply Forall2_length in F. rewrite <- F. reflexivity.
Defined.

(** ** The summary of a run *)

Lemma advances_refl (dry_run : bool) (s : RunStats) : advances dry_run 0 s s.
Proof.
  exists 0, 0, 0, 0, 0, 0, 0. split; [bump_eq|].
  split; [destruct dry_run; lia|]. repeat split; lia.
Qed.

Lemma advances_trans (dry_run : bool) (n1 n2 : nat) (s1 s2 s3 : RunStats) :
  advances dry_run n1 s1 s2 -> advances dry_run n2 s2 s3 ->
  advances dry_run (n1 + n2) s1 s3.
Proof.
  intros [p1 [k1 [t1 [h1 [a1 [m1 [i1 [D1 [W1 B1]]]]]]]]]
         [p2 [k2 [t2 [h2 [a2 [m2 [i2 [D2 [W2 B2]]]]]]]]].
  exists (p1 + p2), (k1 + k2), (t1 + t2), (h1 + h2), (a1 + a2), (m1 + m2), (i1 + i2).
  apply decisions_bump in D1 as [E1 [E2 [E3 [E4 [E5 [E6 [E7 E8]]]]]]].
  apply decisions_bump in D2 as [F1 [F2 [F3 [F4 [F5 [F6 [F7 F8]]]]]]].
  split; [apply bump_decisions; lia|].
  split; [destruct dry_run; lia|]. repeat split; lia.
Qed.

Lemma plan_bounds (plan : list (str * list media_file)) :
  List.length (plan_missed plan) <= List.length plan
  /\ List.length plan <= List.length (plan_missed plan) + List.length (plan_files plan).
Proof.
  unfold plan_missed, plan_files. rewrite length_map.
  induction plan as [|[c [|f fs]] plan [IH1 IH2]]; simpl; [lia| |];
    rewrite ?length_app; simpl; lia.
Qed.

Lemma plans_bounds (plans : list (list (str * list media_file))) :
  List.length (flat_map plan_missed plans) <= List.length (List.concat plans)
  /\ List.length (List.concat plans)
     <= List.length (flat_map plan_missed plans)
        + List.length (flat_map plan_files plans).
Proof.
  induction plans as [|pl plans [IH1 IH2]]; simpl; [lia|].
  rewrite !length_app. destruct (plan_bounds pl). lia.
Qed.

Lemma filter_length_le {A} (p : A -> bool) (l : list A) :
  List.length (filter p l) <= List.length l.
Proof. induction l as [|x l IH]; simpl; [lia|]. destruct (p x); simpl; lia. Qed.

Lemma system_pass_advances (w : world) (system : str) (mc : list str)
  (dry_run backup fuzzy report : bool) (s s' : RunStats) (e e' : effects) :
  filter_gamelist_and_sync_media w system mc dry_run backup fuzzy report s e
  = Ok (s', e') ->
  advances dry_run 1 s s'.
Proof.
  intros R.
  pose proof (system_pass_by_case w system mc dry_run backup fuzzy report s e) as C.
  destruct (classify w system) as [| | |root] eqn:Cl.
  - destruct C as [e1 [R1 _]]. rewrite R1 in R. injection R as <- _.
    exists 0, 0, 0, 0, 0, 0, 0. split; [bump_eq|].
    split; [destruct dry_run; lia|]. repeat split; lia.
  - destruct C as [e1 [R1 _]]. rewrite R1 in R. injection R as <- _.
    exists 0, 0, 0, 0, 0, 0, 0. split; [bump_eq|].
    split; [destruct dry_run; lia|]. repeat split; lia.
  - rewrite C in R. discriminate.
  - clear C. apply classify_passes in Cl as [G NE].
    destruct (system_pass_returns w system root mc dry_run backup fuzzy report
                s e G NE) as [s1 [e1 [R1 [D _]]]].
    destruct (system_pass_catalog_files w system root mc dry_run backup fuzzy report
                s e G NE) as [s2 [e2 [R2 [_ [_ W]]]]].
    rewrite R in R1, R2. injection R1 as <- <-. injection R2 as <- <-.
    rewrite account_system_bump in D. cbv zeta in D.
    destruct (plans_bounds (system_plans w system mc fuzzy root)) as [B1 B2].
    pose proof (filter_length_le (keeps (iter_rom_files (sd_rom_dir w system)))
                  (findall (lit "game") root)) as B3.
    fold (kept_games w system root) in B3.
    do 7 eexists. split; [exact D|]. split; [|split; [|split; [|split; [exact B3|split;
      [exact B1|exact B2]]]]].
    + rewrite W. destruct (kept_games w system root); destruct dry_run; reflexivity.
    + destruct (kept_games w system root); lia.
    + destruct (kept_games w system root); simpl; lia.
Qed.

Lemma run_advances (w : world) (mc : list str)
  (dry_run backup fuzzy report : bool) (systems : list str) :
  forall s e s' e',
    sync_systems w systems mc dry_run backup fuzzy report s e = Ok (s', e') ->
    advances dry_run (List.length systems) s s'.
Proof.
  unfold sync_systems. induction systems as [|system rest IH]; intros s e s' e' R.
  - injection R as <- _. apply advances_refl.
  - cbn [for_each fst snd] in R.
    destruct (filter_gamelist_and_sync_media w system mc dry_run backup fuzzy report s e)
      as [[s1 e1]|x] eqn:R1; [|discriminate].
    cbn [bind] in R. apply system_pass_advances in R1.
    apply (advances_trans dry_run 1 (List.length rest) s s1 s'); [exact R1|].
    now apply (IH s1 e1 s' e').
Qed.

Lemma preview_run_frame (w : world) (mc : list str) (backup fuzzy report : bool)
  (systems : list str) (s s' : RunStats) (e e' : effects) :
  sync_systems w systems mc true backup fuzzy report s e = Ok (s', e') ->
  fs e' = fs e.
Proof.
  intros R.
  pose proof (run_decisions w mc true backup fuzzy report systems s e) as D.
  destruct (run_raises w systems) eqn:Rr; [rewrite D in R; discriminate|].
  destruct (run_tally (sd_media (fs e)) true w mc backup fuzzy report systems
              [] s e Rr) as [s1 [e1 [R1 [_ F]]]].
  - intros k _. reflexivity.
  - split; [intros k _ []|discriminate].
  - rewrite R in R1. injection R1 as <- <-. now apply F.
Qed.

(** X13. The summary of a sync run is consistent: the systems seen are the
    systems asked for; a processed system is one of them and has at least
    one kept game; the kept games are among the inspected ones; the
    missing categories are among the attempted ones, and every other
    attempted category had at least one file copied or skipped.  Outside
    preview mode one gamelist is written per processed system; in preview
    mode none is written and the device is left as it was. *)
Theorem run_summary_is_consistent
  (args : arguments) (profiles_file : option (dict (list str)))
  (w : world) (e0 : effects) (s : RunStats) (e : effects) :
  main args profiles_file w e0 = Ok (Synced s e) ->
  systems_seen s = List.length (resolve_systems args w)
  /\ systems_processed s <= systems_seen s
  /\ systems_processed s <= games_kept s
  /\ games_kept s <= games_total_in_master s
  /\ media_categories_missing s <= media_categories_attempted s
  /\ media_categories_attempted s
     <= media_categories_missing s + media_files_copied s + media_files_skipped s
  /\ gamelists_written s = (if arg_dry_run args then 0 else systems_processed s)
  /\ (arg_dry_run args = true -> fs e = fs e0).
Proof.
  unfold main. destruct (validate_sd_root w) as [[]|x]; [|discriminate].
  cbn [bind]. destruct (resolve_media_categories args profiles_file) as [mc|x];
    [|discriminate].
  cbn [bind]. destruct (resolve_systems args w) as [|s0 ss] eqn:Sys; [discriminate|].
  destruct (arg_audit_missing_master args).
  { destruct (audit_missing_master w (s0 :: ss) mc (arg_fuzzy_media_match args));
      discriminate. }
  destruct (sync_systems w (s0 :: ss) mc (arg_dry_run args) (arg_backup_gamelist args)
              (arg_fuzzy_media_match args) (arg_report args)
              (RunStats_init (List.length (s0 :: ss))) e0) as [[s1 e1]|x] eqn:R;
    [|discriminate].
  cbn [bind fst snd]. intros H. injection H as <- <-.
  pose proof (run_advances _ _ _ _ _ _ _ _ _ _ _ R)
    as [p [k [t [h [a [m [i [D [W B]]]]]]]]].
  apply decisions_bump in D as [E1 [E2 [E3 [E4 [E5 [E6 [E7 E8]]]]]]].
  cbn [RunStats_init systems_seen systems_processed games_kept games_total_in_master
       media_files_copied media_files_skipped media_categories_attempted
       media_categories_missing gamelists_written] in *.
  repeat split; try lia.
  - rewrite W. destruct (arg_dry_run args); lia.
  - intros Dr. rewrite Dr in R. now apply preview_run_frame in R.
Qed.

(** A run over [switch] and [snes] of the example installation. *)
Lemma run_summary_is_consistent_witness :
  exists s e,
    main (demo_args "switch,snes" "covers,videos" false true) None demo_world
         empty_device = Ok (Synced s e)
    /\ systems_seen s = 2
    /\ systems_processed s <= systems_seen s
    /\ gamelists_written s = systems_processed s.
Proof.
  destruct (main (demo_args "switch,snes" "covers,videos" false true) None demo_world
                 empty_device) as [[| |s e]|x] eqn:R;
    try (vm_compute in R; discriminate R).
  exists s, e. split; [reflexivity|].
  destruct (run_summary_is_consistent _ _ _ _ _ _ R) as [H1 [H2 [_ [_ [_ [_ [H7 _]]]]]]].
  split; [exact H1|]. split; [exact H2|exact H7].
Defined.

(** ** The audit *)

Lemma audit_rom_appends (idx : cat_indexes) (master_map : dict element)
  (system : str) (fuzzy : bool) (items : list AuditItem) (rom : str) :
  audit_rom idx master_map system fuzzy items rom
  = items ++ audit_rom idx master_map system fuzzy [] rom.
Proof.
  unfold audit_rom. destruct (dict_get rom master_map) as [g|]; [|reflexivity].
  destruct (audit_missing_cats idx fuzzy _ _ _); [now rewrite app_nil_r|reflexivity].
Qed.

Lemma audit_roms_append (idx : cat_indexes) (master_map : dict element)
  (system : str) (fuzzy : bool) (roms : list str) (items : list AuditItem) :
  fold_left (audit_rom idx master_map system fuzzy) roms items
  = items ++ flat_map (audit_rom idx master_map system fuzzy []) roms.
Proof.
  revert items. induction roms as [|rom roms IH]; intros items; simpl.
  - now rewrite app_nil_r.
  - rewrite IH, audit_rom_appends. now rewrite <- app_assoc.
Qed.

Lemma audit_system_appends (w : world) (mc : list str) (fuzzy : bool)
  (items : list AuditItem) (system : str) :
  audit_system w mc fuzzy items system
  = match audit_system w mc fuzzy [] system with
    | Ok new => Ok (items ++ new)
    | Raise x => Raise x
    end.
Proof.
  unfold audit_system.
  destruct (sorted (iter_rom_files (sd_rom_dir w system))) as [|r rs];
    [now rewrite app_nil_r|].
  destruct (nas_gamelist w system) as [[|root]|]; try reflexivity.
  rewrite audit_roms_append.
  now rewrite (audit_roms_append _ _ _ _ _ []).
Qed.

Lemma audit_run_records (w : world) (mc : list str) (fuzzy : bool)
  (systems : list str) :
  forall items items',
    for_each (audit_system w mc fuzzy) systems items = Ok items' ->
    items' = items ++ flat_map (audit_records w mc fuzzy) systems
    /\ forall system, In system systems ->
         audit_system w mc fuzzy [] system = Ok (audit_records w mc fuzzy system).
Proof.
  induction systems as [|system rest IH]; intros items items' R.
  - injection R as <-. split; [now rewrite app_nil_r|intros s []].
  - cbn [for_each] in R. rewrite audit_system_appends in R. unfold audit_records at 1.
    cbn [flat_map]. unfold audit_records at 1.
    destruct (audit_system w mc fuzzy [] system) as [new|x] eqn:A; [|discriminate].
    cbn [bind] in R. apply IH in R as [E F]. split.
    + rewrite E. now rewrite <- app_assoc.
    + intros s [<-|Hs]; [|now apply F]. unfold audit_records. now rewrite A.
Qed.

Lemma keeps_one (rom : str) (game : element) :
  keeps [rom] game
  = match find_child (lit "path") game with
    | None => false
    | Some p =>
        match text p with
        | None | Some [] => false
        | Some t => str_eqb (normalize_rom_filename_from_xml t) rom
        end
    end.
Proof.
  unfold keeps, mem. destruct (find_child (lit "path") game) as [p|]; [|reflexivity].
  destruct (text p) as [[|c t]|]; try reflexivity. simpl. apply orb_false_r.
Qed.

Lemma master_map_fold (games : list element) (rom : str) :
  forall acc,
    match dict_get rom
            (fold_left
               (fun master_map game =>
                  match find_child (lit "path") game with
                  | None => master_map
                  | Some p =>
                      match text p with
                      | None | Some [] => master_map
                      | Some t =>
                          dict_set (normalize_rom_filename_from_xml t) game master_map
                      end
                  end) games acc)
    with
    | None =>
        dict_get rom acc = None
        /\ forall g, In g games -> keeps [rom] g = false
    | Some g =>
        (In g games /\ keeps [rom] g = true) \/ dict_get rom acc = Some g
    end.
Proof.
  induction games as [|g0 rest IH]; intros acc.
  - cbn [fold_left]. destruct (dict_get rom acc); [now right|]. split; [reflexivity|].
    intros g [].
  - cbn [fold_left]. pose proof (keeps_one rom g0) as K.
    destruct (find_child (lit "path") g0) as [p|].
    2:{ specialize (IH acc). destruct (dict_get rom (fold_left _ rest acc)) as [g|].
        - destruct IH as [[H1 H2]|H]; [left; split; [now right|exact H2]|now right].
        - destruct IH as [H1 H2]. split; [exact H1|].
          intros g [<-|Hg]; [exact K|now apply H2]. }
    destruct (text p) as [[|c t]|].
    2:{ set (k := normalize_rom_filename_from_xml (c :: t)) in *.
        specialize (IH (dict_set k g0 acc)).
        destruct (dict_get rom (fold_left _ rest (dict_set k g0 acc))) as [g|].
        - destruct IH as [[H1 H2]|H]; [left; split; [now right|exact H2]|].
          destruct (str_eqb k rom) eqn:E.
          + apply str_eqb_eq in E. rewrite E, dict_get_set_same in H.
            injection H as <-. left. split; [now left|exact K].
          + apply str_eqb_neq in E. rewrite dict_get_other_set in H by exact E.
            now right.
        - destruct IH as [H1 H2].
          destruct (str_eqb k rom) eqn:E.
          + apply str_eqb_eq in E. rewrite E, dict_get_set_same in H1. discriminate.
          + apply str_eqb_neq in E. rewrite dict_get_other_set in H1 by exact E.
            split; [exact H1|]. intros g [<-|Hg]; [exact K|now apply H2]. }
    all: specialize (IH acc); destruct (dict_get rom (fold_left _ rest acc)) as [g|].
    all: try (destruct IH as [[H1 H2]|H]; [left; split; [now right|exact H2]|now right]).
    all: destruct IH as [H1 H2]; split; [exact H1|];
      intros g [<-|Hg]; [exact K|now apply H2].
Qed.

Lemma master_map_lookup (games : list element) (rom : str) :
  match dict_get rom (build_master_map games) with
  | None => forall g, In g games -> keeps [rom] g = false
  | Some g => In g games /\ keeps [rom] g = true
  end.
Proof.
  pose proof (master_map_fold games rom []) as H.
  fold (build_master_map games) in H.
  destruct (dict_get rom (build_master_map games)) as [g|].
  - destruct H as [H|H]; [exact H|discriminate].
  - apply H.
Qed.

Lemma audit_missing_cats_unmatched (idx : cat_indexes) (fuzzy : bool) (rom : str)
  (expected : list str) :
  audit_missing_cats idx fuzzy (lower (path_stem rom))
    (normalize_stem_loose (lower (path_stem rom))) expected
  = filter (unmatched idx fuzzy rom) expected.
Proof. reflexivity. Qed.

(** The records of a system are sound. *)
Lemma audit_records_sound (w : world) (mc : list str) (fuzzy : bool)
  (system : str) (i : AuditItem) :
  In i (audit_records w mc fuzzy system) ->
  ai_system i = system /\ audit_record_sound w mc fuzzy i.
Proof.
  unfold audit_records, audit_system.
  destruct (sorted (iter_rom_files (sd_rom_dir w system))) as [|r rs] eqn:Roms;
    [intros []|].
  rewrite <- Roms.
  assert (Rom : forall rom, In rom (sorted (iter_rom_files (sd_rom_dir w system))) ->
                            In rom (iter_rom_files (sd_rom_dir w system)))
    by (intros rom; apply sorted_In).
  destruct (nas_gamelist w system) as [[|root]|] eqn:G; [intros []| |].
  - cbn [app]. rewrite audit_roms_append. cbn [app]. intros H.
    apply in_flat_map in H as [rom [Hrom H]]. apply Rom in Hrom.
    unfold audit_rom in H.
    pose proof (master_map_lookup (findall (lit "game") root) rom) as L.
    destruct (dict_get rom (build_master_map (findall (lit "game") root))) as [g|].
    + rewrite audit_missing_cats_unmatched in H.
      destruct (filter _ _) as [|c cs] eqn:F; [destruct H|].
      destruct H as [<-|[]]. split; [reflexivity|].
      unfold audit_record_sound.
      cbn [ai_system ai_rom_filename in_master_gamelist missing_categories].
      split; [exact Hrom|]. split; [discriminate|].
      exists root, g. destruct L as [L1 L2]. rewrite F. auto.
    + destruct H as [<-|[]]. split; [reflexivity|].
      unfold audit_record_sound.
      cbn [ai_system ai_rom_filename in_master_gamelist missing_categories].
      split; [exact Hrom|]. split; [reflexivity|]. rewrite G. exact L.
  - cbn [app]. intros H. apply in_map_iff in H as [rom [<- Hrom]]. apply Rom in Hrom.
    split; [reflexivity|]. unfold audit_record_sound.
    cbn [ai_system ai_rom_filename in_master_gamelist missing_categories].
    split; [exact Hrom|]. split; [reflexivity|]. now rewrite G.
Qed.

(** X14. When the audit returns, its records are, system by system in the
    order asked, the records of each system; every record is a problem
    and tells the truth about its ROM (see [audit_record_sound]); and the
    exit status is 1 exactly when there is a record, 0 otherwise. *)
Theorem audit_records_are_problems
  (w : world) (systems mc : list str) (fuzzy : bool)
  (items : list AuditItem) (status : nat) :
  audit_missing_master w systems mc fuzzy = Ok (items, status) ->
  items = flat_map (audit_records w mc fuzzy) systems
  /\ Forall (fun i => In (ai_system i) systems
                      /\ audit_record_sound w mc fuzzy i
                      /\ (in_master_gamelist i = false \/ missing_categories i <> []))
            items
  /\ status = match items with [] => 0 | _ => 1 end.
Proof.
  unfold audit_missing_master.
  destruct (for_each (audit_system w mc fuzzy) systems []) as [all|x] eqn:R;
    [|discriminate].
  cbn [bind]. intros H. injection H as <- <-.
  apply audit_run_records in R as [E _]. cbn [app] in E.
  assert (F : Forall (fun i => In (ai_system i) systems
                               /\ audit_record_sound w mc fuzzy i
                               /\ (in_master_gamelist i = false
                                   \/ missing_categories i <> [])) all).
  { rewrite E. apply Forall_forall. intros i Hi.
    apply in_flat_map in Hi as [system [Hs Hi]].
    apply audit_records_sound in Hi as [<- S]. split; [exact Hs|]. split; [exact S|].
    destruct S as [_ S]. destruct (in_master_gamelist i); [right; apply S|now left]. }
  split; [exact E|]. split; [exact F|].
  assert (P : filter (fun i => negb (in_master_gamelist i)
                               || match missing_categories i with
                                  | [] => false
                                  | _ => true
                                  end) all = all).
  { clear E. induction F as [|i l [_ [_ Hi]] _ IH]; [reflexivity|].
    cbn [filter].
    replace (negb (in_master_gamelist i)
             || match missing_categories i with [] => false | _ => true end)
      with true; [now rewrite IH|].
    destruct Hi as [Hi|Hi]; [now rewrite Hi|].
    destruct (missing_categories i); [contradiction|]. now rewrite orb_true_r. }
  rewrite P. now destruct all.
Qed.

(** The audit of [switch] and [snes] without fuzzy matching. *)
Lemma audit_records_are_problems_witness :
  exists items,
    audit_missing_master demo_world [lit "switch"; lit "snes"]
      [lit "covers"; lit "videos"] false = Ok (items, 1)
    /\ items <> []
    /\ Forall (fun i => in_master_gamelist i = false \/ missing_categories i <> [])
              items.
Proof.
  destruct (audit_missing_master demo_world [lit "switch"; lit "snes"]
              [lit "covers"; lit "videos"] false) as [[items status]|x] eqn:R;
    [|vm_compute in R; discriminate R].
  destruct (audit_records_are_problems _ _ _ _ _ _ R) as [E [F S]].
  assert (N : items <> []).
  { intros ->. vm_compute in R. discriminate R. }
  exists items. destruct items as [|i0 rest]; [contradiction|].
  rewrite S. split; [reflexivity|]. split; [exact N|].
  eapply Forall_impl; [|exact F]. intros i [_ [_ H]]. exact H.
Defined.

Lemma keeps_one_of (roms : list str) (rom : str) (game : element) :
  In rom roms -> keeps [rom] game = true -> keeps roms game = true.
Proof.
  intros Hin. unfold keeps.
  destruct (find_child (lit "path") game) as [p|]; [|discriminate].
  destruct (text p) as [[|c t]|]; try discriminate.
  intros H. apply mem_In in H. destruct H as [H|[]]. rewrite <- H. now apply mem_In.
Qed.

(** X15. The audit leaves no ROM out: when it returns, a ROM found on the
    device for one of the audited systems either has a record, or the
    master catalog of its system has an entry for it, one that the sync
    keeps, and every category expected for that entry has a matching file. *)
Theorem audit_covers_every_rom
  (w : world) (systems mc : list str) (fuzzy : bool)
  (items : list AuditItem) (status : nat) (system rom : str) :
  audit_missing_master w systems mc fuzzy = Ok (items, status) ->
  In system systems ->
  In rom (iter_rom_files (sd_rom_dir w system)) ->
  let idx := index_categories w system mc fuzzy in
  (exists i, In i items /\ ai_system i = system /\ ai_rom_filename i = rom)
  \/ (exists root game,
        nas_gamelist w system = Some (WellFormed root)
        /\ In game (kept_games w system root)
        /\ keeps [rom] game = true
        /\ forall cat,
             In cat (expected_categories_for game system (effective_categories idx)) ->
             category_matches idx fuzzy rom cat <> []).
Proof.
  unfold audit_missing_master.
  destruct (for_each (audit_system w mc fuzzy) systems []) as [all|x] eqn:R;
    [|discriminate].
  cbn [bind]. intros H Hs Hrom. injection H as <- _. cbv zeta.
  apply audit_run_records in R as [E F]. cbn [app] in E.
  specialize (F system Hs).
  assert (Rec : forall i, In i (audit_records w mc fuzzy system) -> In i all).
  { intros i Hi. rewrite E. apply in_flat_map. now exists system. }
  revert F Rec. generalize (audit_records w mc fuzzy system). intros recs F Rec.
  unfold audit_system in F.
  assert (Hsorted : In rom (sorted (iter_rom_files (sd_rom_dir w system))))
    by now apply sorted_In.
  destruct (sorted (iter_rom_files (sd_rom_dir w system))) as [|r rs] eqn:Roms;
    [destruct Hsorted|].
  rewrite <- Roms in F, Hsorted. clear Roms r rs.
  destruct (nas_gamelist w system) as [[|root]|] eqn:G; [discriminate| |].
  - injection F as F. rewrite audit_roms_append in F. cbn [app] in F.
    pose proof (master_map_lookup (findall (lit "game") root) rom) as L.
    assert (Here : forall i,
              In i (audit_rom (index_categories w system mc fuzzy)
                      (build_master_map (findall (lit "game") root))
                      system fuzzy [] rom) -> In i all).
    { intros i Hi. apply Rec. rewrite <- F. apply in_flat_map. now exists rom. }
    unfold audit_rom in Here.
    destruct (dict_get rom (build_master_map (findall (lit "game") root))) as [g|].
    + rewrite audit_missing_cats_unmatched in Here. destruct L as [L1 L2].
      destruct (filter _ _) as [|c cs] eqn:M.
      * right. exists root, g. split; [reflexivity|]. split; [|split; [exact L2|]].
        -- unfold kept_games. apply filter_In. split; [exact L1|].
           now apply (keeps_one_of _ rom).
        -- intros cat Hc E'.
           pose proof (proj1 (filter_nil_iff _ _) M cat Hc) as U.
           unfold unmatched in U. rewrite E' in U. discriminate.
      * left. eexists. split; [apply Here; now left|]. split; reflexivity.
    + left. eexists. split; [apply Here; now left|]. split; reflexivity.
  - left. injection F as F. cbn [app] in F.
    eexists. split.
    + apply Rec. rewrite <- F. apply in_map_iff. exists rom. split; [reflexivity|exact Hsorted].
    + split; reflexivity.
Qed.

(** In the audit of [switch] and [snes], [celeste.xci] has no record. *)
Lemma audit_covers_every_rom_witness :
  exists items status,
    audit_missing_master demo_world [lit "switch"; lit "snes"]
      [lit "covers"; lit "videos"] false = Ok (items, status)
    /\ In (lit "celeste.xci") (iter_rom_files (sd_rom_dir demo_world (lit "switch")))
    /\ ((exists i, In i items /\ ai_system i = lit "switch"
                   /\ ai_rom_filename i = lit "celeste.xci")
        \/ exists root game,
             nas_gamelist demo_world (lit "switch") = Some (WellFormed root)
             /\ In game (kept_games demo_world (lit "switch") root)
             /\ keeps [lit "celeste.xci"] game = true).
Proof.
  destruct (audit_missing_master demo_world [lit "switch"; lit "snes"]
              [lit "covers"; lit "videos"] false) as [[items status]|x] eqn:R;
    [|vm_compute in R; discriminate R].
  assert (H1 : In (lit "switch") [lit "switch"; lit "snes"]) by (left; reflexivity).
  assert (H2 : In (lit "celeste.xci")
                  (iter_rom_files (sd_rom_dir demo_world (lit "switch"))))
    by (vm_compute; left; reflexivity).
  exists items, status. split; [reflexivity|]. split; [exact H2|].
  destruct (audit_covers_every_rom _ _ _ _ _ _ _ _ R H1 H2) as [H|[root [g [A [B [C _]]]]]].
  - left. exact H.
  - right. now exists root, g.
Defined.

(** ** Comma-separated options and the systems of a run *)

Lemma split_pieces (sep : ascii) (s p : str) : In p (split sep s) -> ~ In sep p.
Proof.
  revert p. induction s as [|c t IH]; simpl; intros p H.
  - destruct H as [<-|[]]. intros [].
  - destruct (Ascii.eqb c sep) eqn:E.
    + destruct H as [<-|H]; [intros []|now apply IH].
    + destruct (split sep t) as [|h r] eqn:S.
      * destruct H as [<-|[]]. intros [->|[]]. now rewrite Ascii.eqb_refl in E.
      * destruct H as [<-|H].
        -- intros [->|Hin]; [now rewrite Ascii.eqb_refl in E|].
           now apply (IH h (or_introl eq_refl)).
        -- apply IH. now right.
Qed.

Lemma lstrip_sub (s : str) (c : ascii) : In c (lstrip s) -> In c s.
Proof.
  induction s as [|x t IH]; simpl; [trivial|].
  destruct (is_space x); [intros H; right; now apply IH|trivial].
Qed.

Lemma rstrip_sub (s : str) (c : ascii) : In c (rstrip s) -> In c s.
Proof.
  induction s as [|x t IH]; simpl; [trivial|].
  destruct (rstrip t) as [|h r].
  - destruct (is_space x); [intros []|]. intros [->|[]]. now left.
  - intros [->|H]; [now left|]. right. now apply IH.
Qed.

Lemma split_csv_app (a b : str) :
  split_csv (a ++ ","%char :: b) = split_csv a ++ split_csv b.
Proof. unfold split_csv. now rewrite split_app, map_app, filter_app. Qed.

(** X16. A comma-separated option ([--media], [--systems]) is read as the
    list of its entries in the order written: every entry is non-empty,
    has no white space at either end and holds no comma; blank entries
    are dropped; and the list of [a,b] is the list of [a] followed by the
    list of [b]. *)
Theorem split_csv_entries (text : str) :
  Forall (fun m => m <> [] /\ strip m = m /\ ~ In ","%char m) (split_csv text)
  /\ (forall a b, split_csv (a ++ ","%char :: b) = split_csv a ++ split_csv b)
  /\ (~ In ","%char text ->
      split_csv text = match strip text with [] => [] | entry => [entry] end).
Proof.
  split; [|split].
  - unfold split_csv. apply Forall_forall. intros m H.
    apply filter_In in H as [H NE]. apply in_map_iff in H as [p [<- Hp]].
    split; [|split].
    + intros E. rewrite E in NE. discriminate.
    + apply strip_idem.
    + intros Hin. apply (split_pieces _ _ _ Hp).
      unfold strip in Hin. apply lstrip_sub. now apply rstrip_sub.
  - apply split_csv_app.
  - intros N. unfold split_csv. rewrite (split_no_sep _ _ N). cbn [map filter].
    now destruct (strip text).
Qed.

(** X17. Without [--systems], the systems of a run are the names of the
    folders directly under [ROMs], in ascending order (files there are not
    systems); with it, they are the entries of the option, as written. *)
Theorem resolve_systems_choice (args : arguments) (w : world) :
  (strip (arg_systems args) <> [] ->
     resolve_systems args w = split_csv (arg_systems args))
  /\ (strip (arg_systems args) = [] ->
      resolve_systems args w = list_sd_systems w)
  /\ ascending (list_sd_systems w)
  /\ (forall name,
        In name (list_sd_systems w)
        <-> exists es kids, sd_roms w = Some es /\ In (DirEntry name kids) es)
  /\ List.length (list_sd_systems w)
     = match sd_roms w with
       | Some es => List.length (filter (fun p => negb (is_file p)) es)
       | None => 0
       end.
Proof.
  split; [|split; [|split; [|split]]].
  - unfold resolve_systems. destruct (strip (arg_systems args)); [contradiction|reflexivity].
  - unfold resolve_systems. intros ->. reflexivity.
  - unfold list_sd_systems. destruct (sd_roms w); [apply sorted_ascending|exact I].
  - intros name. unfold list_sd_systems. destruct (sd_roms w) as [es|].
    + rewrite sorted_In, in_map_iff. split.
      * intros [e [<- H]]. apply filter_In in H as [H F].
        destruct e as [n f|n kids]; [discriminate|]. now exists es, kids.
      * intros [es' [kids [[= <-] H]]]. exists (DirEntry name kids).
        split; [reflexivity|]. now apply filter_In.
    + split; [intros []|]. intros [es [kids [H _]]]. discriminate.
  - unfold list_sd_systems. destruct (sd_roms w) as [es|]; [|reflexivity].
    now rewrite sorted_length, length_map.
Qed.

(** ** Media references, read loosely *)

Lemma lstrip_map (f : ascii -> ascii) (s : str) :
  (forall c, is_space (f c) = is_space c) ->
  lstrip (map f s) = map f (lstrip s).
Proof.
  intros H. induction s as [|c t IH]; simpl; [reflexivity|].
  rewrite H. destruct (is_space c); [exact IH|reflexivity].
Qed.

Lemma rstrip_map (f : ascii -> ascii) (s : str) :
  (forall c, is_space (f c) = is_space c) ->
  rstrip (map f s) = map f (rstrip s).
Proof.
  intros H. induction s as [|c t IH]; simpl; [reflexivity|].
  rewrite IH, H. destruct (rstrip t); simpl; [now destruct (is_space c)|reflexivity].
Qed.

Lemma strip_replace_backslash (s : str) :
  strip (replace_backslash s) = replace_backslash (strip s).
Proof.
  assert (H : forall c, is_space (if Ascii.eqb c backslash then slash else c)
                        = is_space c).
  { intros c. destruct (Ascii.eqb c backslash) eqn:E; [|reflexivity].
    apply Ascii.eqb_eq in E. now subst. }
  unfold strip, replace_backslash. now rewrite lstrip_map, rstrip_map.
Qed.

Lemma replace_backslash_idem (s : str) :
  replace_backslash (replace_backslash s) = replace_backslash s.
Proof.
  unfold replace_backslash. rewrite map_map. apply map_ext. intros c.
  destruct (Ascii.eqb c backslash) eqn:E; [reflexivity|now rewrite E].
Qed.

Lemma ref_parts_replace_backslash (text : str) :
  ref_parts (replace_backslash text) = ref_parts text.
Proof.
  unfold ref_parts. now rewrite strip_replace_backslash, replace_backslash_idem.
Qed.

Lemma ref_parts_strip (text : str) : ref_parts (strip text) = ref_parts text.
Proof. unfold ref_parts. now rewrite strip_idem. Qed.

(** The answer depends on the text through its segments only. *)
Lemma parse_category_by_parts (a b system : str) :
  a <> [] -> b <> [] -> ref_parts a = ref_parts b ->
  parse_category_from_media_ref a system = parse_category_from_media_ref b system.
Proof.
  intros Na Nb E. unfold parse_category_from_media_ref.
  destruct a as [|a0 a']; [contradiction|]. destruct b as [|b0 b']; [contradiction|].
  now rewrite E.
Qed.

Lemma parse_category_no_parts (text system : str) :
  ref_parts text = [] -> parse_category_from_media_ref text system = None.
Proof.
  intros E. unfold parse_category_from_media_ref. destruct text; [reflexivity|].
  now rewrite E.
Qed.

(** X18. A media reference is read loosely: the category inferred from it
    is always one of the known categories, and it is the same when every
    backslash of the text is written as a slash, when white space around
    the text is removed, and when the system name is given in another
    letter case. *)
Theorem parse_category_reads_loosely (text system : str) :
  (forall cat, parse_category_from_media_ref text system = Some cat ->
               In cat MEDIA_CATEGORIES_ALL)
  /\ parse_category_from_media_ref (replace_backslash text) system
     = parse_category_from_media_ref text system
  /\ parse_category_from_media_ref (strip text) system
     = parse_category_from_media_ref text system
  /\ (forall system', lower system' = lower system ->
        parse_category_from_media_ref text system'
        = parse_category_from_media_ref text system).
Proof.
  split; [|split; [|split]].
  - intros cat. apply parse_category_known.
  - destruct text as [|c t]; [reflexivity|].
    apply parse_category_by_parts.
    + simpl. discriminate.
    + discriminate.
    + apply ref_parts_replace_backslash.
  - destruct text as [|c t]; [reflexivity|].
    destruct (strip (c :: t)) as [|c' t'] eqn:S.
    + symmetry. apply parse_category_no_parts. unfold ref_parts. now rewrite S.
    + rewrite <- S. apply parse_category_by_parts.
      * rewrite S. discriminate.
      * discriminate.
      * apply ref_parts_strip.
  - intros system' H. unfold parse_category_from_media_ref.
    destruct text as [|c t]; [reflexivity|]. cbv zeta. now rewrite H.
Qed.

(** ** Running the sync again *)

Lemma for_each_invariant {A S} (body : S -> A -> outcome S)
  (jobs : A -> list job) (Pre : job -> Prop) (I : list job -> S -> Prop) :
  (forall d s x s',
     Forall Pre (jobs x) -> I d s -> body s x = Ok s' -> I (d ++ jobs x) s') ->
  forall xs d s s',
    Forall Pre (flat_map jobs xs) -> I d s -> for_each body xs s = Ok s' ->
    I (d ++ flat_map jobs xs) s'.
Proof.
  intros step. induction xs as [|x xs IH]; intros d s s' P H R.
  - injection R as <-. cbn [flat_map]. now rewrite app_nil_r.
  - cbn [flat_map for_each] in *. apply Forall_app in P as [P1 P2].
    destruct (body s x) as [s1|err] eqn:B; [|discriminate]. cbn [bind] in R.
    rewrite app_assoc. apply (IH _ s1 s'); [exact P2| |exact R].
    now apply (step d s x s1).
Qed.

Lemma plan_jobs_game (idx : cat_indexes) (system : str) (fuzzy : bool)
  (game : element) :
  plan_jobs system (game_plan idx system fuzzy game)
  = flat_map
      (fun cat => map (fun m => ((system, cat, fst m), snd m))
                      (category_matches idx fuzzy (rom_filename_of game) cat))
      (expected_categories_for game system (effective_categories idx)).
Proof. unfold plan_jobs, game_plan. now rewrite flat_map_map. Qed.

Section CopyInvariant.

Variable dry_run : bool.
Variable Pre : job -> Prop.
Variable Inv : list job -> RunStats -> list (media_path * file) -> Prop.

Hypothesis Inv_copy :
  forall d st e path k s r e',
    Pre (k, s) -> Inv d st (sd_media (fs e)) ->
    copy_file {| src_path := path; src_node := Some s |} k dry_run e = Ok (r, e') ->
    Inv (d ++ [(k, s)])
        (match r with
         | copied => add_to c_media_files_copied 1 st
         | skipped => add_to c_media_files_skipped 1 st
         end)
        (sd_media (fs e')).

Hypothesis Inv_other :
  forall d st m c n,
    c <> c_media_files_copied -> c <> c_media_files_skipped ->
    Inv d st m -> Inv d (add_to c n st) m.

Lemma copy_match_inv (system cat : str) (d : list job)
  (st : RunStats * effects) (m : media_file) (st' : RunStats * effects) :
  Forall Pre [((system, cat, fst m), snd m)] ->
  Inv d (fst st) (sd_media (fs (snd st))) ->
  copy_match system cat dry_run st m = Ok st' ->
  Inv (d ++ [((system, cat, fst m), snd m)]) (fst st') (sd_media (fs (snd st'))).
Proof.
  destruct st as [s e], m as [name content]. cbn [fst snd]. intros P H R.
  inversion P as [|? ? P1 _]; subst. unfold copy_match in R.
  destruct (copy_file _ _ dry_run e) as [[r e1]|err] eqn:C; [|discriminate].
  cbn [bind] in R. pose proof (Inv_copy _ _ _ _ _ _ _ _ P1 H C) as H1.
  destruct r; injection R as <-; exact H1.
Qed.

Lemma copy_matches_inv (system cat : str) (matches : list media_file)
  (d : list job) (st st' : RunStats * effects) :
  Forall Pre (map (fun m => ((system, cat, fst m), snd m)) matches) ->
  Inv d (fst st) (sd_media (fs (snd st))) ->
  copy_matches system cat dry_run matches st = Ok st' ->
  Inv (d ++ map (fun m => ((system, cat, fst m), snd m)) matches)
      (fst st') (sd_media (fs (snd st'))).
Proof.
  rewrite <- flat_map_singleton. unfold copy_matches.
  apply (for_each_invariant (copy_match system cat dry_run)
           (fun m => [((system, cat, fst m), snd m)]) Pre
           (fun d st => Inv d (fst st) (sd_media (fs (snd st))))).
  intros d0 s x s'. apply copy_match_inv.
Qed.

Lemma sync_category_inv (idx : cat_indexes) (system : str) (fuzzy : bool)
  (rom : str) (d : list job) (g : game_state) (cat : str) (g' : game_state) :
  let jobs := map (fun m => ((system, cat, fst m), snd m))
                  (category_matches idx fuzzy rom cat) in
  Forall Pre jobs ->
  Inv d (g_stats g) (sd_media (fs (g_eff g))) ->
  sync_category idx system dry_run fuzzy (lower (path_stem rom))
    (normalize_stem_loose (lower (path_stem rom))) g cat = Ok g' ->
  Inv (d ++ jobs) (g_stats g') (sd_media (fs (g_eff g'))).
Proof.
  cbv zeta. unfold sync_category, category_matches.
  destruct (find_matches _ _ fuzzy _ _) as [|m ms] eqn:F; intros P H R.
  - injection R as <-. cbn [map g_stats g_eff]. rewrite app_nil_r.
    apply Inv_other; [discriminate|discriminate|].
    apply Inv_other; [discriminate|discriminate|exact H].
  - destruct (copy_matches system cat dry_run (m :: ms)
                (add_to c_media_categories_attempted 1 (g_stats g), g_eff g))
      as [st1|err] eqn:C; [|discriminate].
    cbn [bind] in R. injection R as <-. cbn [g_stats g_eff].
    apply (copy_matches_inv system cat (m :: ms) d
             (add_to c_media_categories_attempted 1 (g_stats g), g_eff g) st1 P);
      [|exact C].
    cbn [fst snd]. apply Inv_other; [discriminate|discriminate|exact H].
Qed.

Lemma sync_game_inv (idx : cat_indexes) (system : str) (roms : list str)
  (fuzzy report : bool) (d : list job) (st : pass_state) (game : element)
  (st' : pass_state) :
  let jobs :=
    if keeps roms game then plan_jobs system (game_plan idx system fuzzy game)
    else [] in
  Forall Pre jobs ->
  Inv d (stats st) (sd_media (fs (eff st))) ->
  sync_game idx system roms dry_run fuzzy report st game = Ok st' ->
  Inv (d ++ jobs) (stats st') (sd_media (fs (eff st'))).
Proof.
  cbv zeta. destruct (keeps roms game) eqn:K; intros P H R.
  2:{ rewrite (sync_game_skips idx system roms dry_run fuzzy report st game K) in R.
      injection R as <-. now rewrite app_nil_r. }
  rewrite plan_jobs_game in *.
  unfold keeps in K. unfold sync_game, rom_filename_of in *.
  destruct (find_child (lit "path") game) as [p|]; [|discriminate].
  destruct (text p) as [[|c t]|]; try discriminate.
  rewrite K in R. cbn [negb] in R. cbv zeta in R.
  set (rom := normalize_rom_filename_from_xml (c :: t)) in *.
  destruct (for_each _ _ _) as [g'|err] eqn:F in R; [|discriminate].
  cbn [bind] in R. injection R as <-. cbn [stats eff].
  apply (for_each_invariant
           (sync_category idx system dry_run fuzzy (lower (path_stem rom))
              (normalize_stem_loose (lower (path_stem rom))))
           (fun cat => map (fun m => ((system, cat, fst m), snd m))
                           (category_matches idx fuzzy rom cat))
           Pre
           (fun d g => Inv d (g_stats g) (sd_media (fs (g_eff g))))
           (fun d0 g cat g1 => sync_category_inv idx system fuzzy rom d0 g cat g1)
           _ d _ g' P) in F.
  - destruct report; exact F.
  - cbn [g_stats g_eff]. apply Inv_other; [discriminate|discriminate|exact H].
Qed.

Lemma reconcile_inv (w : world) (system : str) (root : element) (mc : list str)
  (fuzzy report : bool) (d : list job) (s : RunStats) (e : effects)
  (st : pass_state) :
  let jobs := flat_map (plan_jobs system) (system_plans w system mc fuzzy root) in
  Forall Pre jobs ->
  Inv d s (sd_media (fs e)) ->
  reconcile w system root (iter_rom_files (sd_rom_dir w system)) mc dry_run
            fuzzy report s e = Ok st ->
  Inv (d ++ jobs) (stats st) (sd_media (fs (eff st))).
Proof.
  cbv zeta. unfold system_plans, kept_games, reconcile.
  rewrite flat_map_map, <- flat_map_filter. intros P H R.
  set (idx := index_categories w system mc fuzzy) in *.
  set (roms := iter_rom_files (sd_rom_dir w system)) in *.
  apply (for_each_invariant
           (sync_game idx system roms dry_run fuzzy report)
           (fun game => if keeps roms game
                        then plan_jobs system (game_plan idx system fuzzy game)
                        else [])
           Pre
           (fun d st => Inv d (stats st) (sd_media (fs (eff st))))
           (fun d0 st0 game st1 =>
              sync_game_inv idx system roms fuzzy report d0 st0 game st1)
           _ d _ st P) in R; [exact R|].
  cbn [stats eff]. apply Inv_other; [discriminate|discriminate|].
  apply Inv_other; [discriminate|discriminate|exact H].
Qed.

Lemma system_pass_inv (w : world) (mc : list str) (backup fuzzy report : bool)
  (d : list job) (st : RunStats * effects) (system : str)
  (st' : RunStats * effects) :
  Forall Pre (system_jobs w mc fuzzy system) ->
  Inv d (fst st) (sd_media (fs (snd st))) ->
  filter_gamelist_and_sync_media w system mc dry_run backup fuzzy report
    (fst st) (snd st) = Ok st' ->
  Inv (d ++ system_jobs w mc fuzzy system) (fst st') (sd_media (fs (snd st'))).
Proof.
  destruct st as [s e]. cbn [fst snd].
  unfold system_jobs, classify, filter_gamelist_and_sync_media.
  destruct (nas_gamelist w system) as [xml|].
  2:{ intros _ H R. injection R as <-. cbn [fst snd print fs]. now rewrite app_nil_r. }
  destruct (iter_rom_files (sd_rom_dir w system)) as [|r0 rs] eqn:Roms.
  { intros _ H R. injection R as <-. cbn [fst snd print fs]. now rewrite app_nil_r. }
  rewrite <- Roms. destruct xml as [|root]; [discriminate|].
  intros P H R.
  destruct (reconcile w system root (iter_rom_files (sd_rom_dir w system)) mc dry_run
              fuzzy report s e) as [ps|err] eqn:Rc; [|discriminate].
  cbn [bind] in R.
  pose proof (reconcile_inv w system root mc fuzzy report d s e ps P H Rc) as H1.
  destruct (kept ps) as [|n].
  - injection R as <-. cbn [fst snd print fs]. exact H1.
  - assert (M : forall dr,
              sd_media (fs (if backup
                            then backup_file w system dr
                                   (ensure_dir [lit "gamelists"; system] dr (eff ps))
                            else ensure_dir [lit "gamelists"; system] dr (eff ps)))
              = sd_media (fs (eff ps))).
    { intros dr. destruct backup.
      - rewrite (proj1 (backup_file_frame w system dr _)). apply ensure_dir_frame.
      - apply ensure_dir_frame. }
    destruct dry_run.
    + cbv beta iota zeta in R. injection R as <-. cbn [fst snd print fs].
      apply Inv_other; [discriminate|discriminate|].
      rewrite <- (M true) in H1. exact H1.
    + cbv beta iota zeta in R. injection R as <-.
      cbn [fst snd print write_gamelist with_fs fs sd_media].
      apply Inv_other; [discriminate|discriminate|].
      apply Inv_other; [discriminate|discriminate|].
      rewrite <- (M false) in H1. exact H1.
Qed.

Lemma run_inv (w : world) (mc : list str) (backup fuzzy report : bool)
  (systems : list str) (d : list job) (s : RunStats) (e : effects)
  (s' : RunStats) (e' : effects) :
  Forall Pre (run_jobs w mc fuzzy systems) ->
  Inv d s (sd_media (fs e)) ->
  sync_systems w systems mc dry_run backup fuzzy report s e = Ok (s', e') ->
  Inv (d ++ run_jobs w mc fuzzy systems) s' (sd_media (fs e')).
Proof.
  unfold sync_systems, run_jobs. intros P H R.
  apply (for_each_invariant
           (fun st system =>
              filter_gamelist_and_sync_media w system mc dry_run backup fuzzy report
                (fst st) (snd st))
           (system_jobs w mc fuzzy) Pre
           (fun d st => Inv d (fst st) (sd_media (fs (snd st))))
           (fun d0 st0 system st1 =>
              system_pass_inv w mc backup fuzzy report d0 st0 system st1)
           _ d _ (s', e') P) in R; [exact R|exact H].
Qed.

End CopyInvariant.

(** A real copy settles its destination and keeps the destinations settled
    before, when the sources can be read and agree in size on every
    destination. *)
Lemma copy_file_settles (all d : list job) (st : RunStats) (e : effects)
  (path k : media_path) (s : file) (r : copy_result) (e' : effects) :
  (forall k s, In (k, s) all -> f_stat_ok s = true) ->
  (forall k s s', In (k, s) all -> In (k, s') all ->
                  List.length (f_data s) = List.length (f_data s')) ->
  In (k, s) all ->
  incl d all /\ settled (sd_media (fs e)) d ->
  copy_file {| src_path := path; src_node := Some s |} k false e = Ok (r, e') ->
  incl (d ++ [(k, s)]) all /\ settled (sd_media (fs e')) (d ++ [(k, s)]).
Proof.
  intros Stat Size Hin [Hd H] C. split.
  { intros j Hj. apply in_app_or in Hj as [Hj|[<-|[]]]; [now apply Hd|exact Hin]. }
  destruct k as [[system cat] name]. rewrite copy_file_real in C. cbv zeta in C.
  destruct (ensure_dir_frame [lit "downloaded_media"; system; cat] false e) as [M _].
  remember (ensure_dir [lit "downloaded_media"; system; cat] false e) as ed eqn:Ed.
  destruct (match media_get (system, cat, name) (sd_media (fs ed)) with
            | Some d0 => same_size d0 s
            | None => false
            end) eqn:T.
  - injection C as _ <-. rewrite M. intros k' s' Hj.
    apply in_app_or in Hj as [Hj|[[= <- <-]|[]]]; [now apply H|].
    rewrite M in T.
    destruct (media_get (system, cat, name) (sd_media (fs e))) as [d0|]; [|discriminate].
    now exists d0.
  - injection C as _ <-. cbn [with_fs fs sd_media]. rewrite M. intros k' s' Hj.
    assert (All : In (k', s') all).
    { apply in_app_or in Hj as [Hj|[<-|[]]]; [now apply Hd|exact Hin]. }
    destruct (media_path_eqb (system, cat, name) k') eqn:E.
    + apply media_path_eqb_eq in E. subst k'. exists (copy_of s).
      split; [apply media_get_put_same|].
      unfold same_size, stat_size, copy_of. cbn [f_stat_ok f_data].
      rewrite (Stat _ _ All). apply Nat.eqb_eq. now apply (Size (system, cat, name)).
    + apply media_path_eqb_neq in E. rewrite media_get_put_other by exact E.
      apply in_app_or in Hj as [Hj|[[= <- <-]|[]]]; [now apply H|]. contradiction.
Qed.

(** A copy to a settled destination is a skip. *)
Lemma copy_file_settled (dry_run : bool) (e : effects) (path k : media_path)
  (s : file) (r : copy_result) (e' : effects) :
  (exists d, media_get k (sd_media (fs e)) = Some d /\ same_size d s = true) ->
  copy_file {| src_path := path; src_node := Some s |} k dry_run e = Ok (r, e') ->
  r = skipped /\ sd_media (fs e') = sd_media (fs e).
Proof.
  intros [d0 [G Sz]] C. destruct k as [[system cat] name].
  unfold copy_file in C. cbn [src_node] in C.
  destruct (ensure_dir_frame [lit "downloaded_media"; system; cat] dry_run e) as [M _].
  rewrite M, G, Sz in C. injection C as <- <-. split; [reflexivity|exact M].
Qed.

Lemma copied_add_to (c : counter) (n : nat) (st : RunStats) :
  c <> c_media_files_copied -> c <> c_media_files_skipped ->
  media_files_copied (add_to c n st) = media_files_copied st
  /\ media_files_skipped (add_to c n st) = media_files_skipped st.
Proof. intros H1 H2. destruct c; try contradiction; simpl; lia. Qed.

(** The copies of a run take their sources from the category directories. *)
Lemma run_jobs_sources (w : world) (mc : list str) (fuzzy : bool)
  (systems : list str) (system cat n : str) (f : file) :
  In ((system, cat, n), f) (run_jobs w mc fuzzy systems) ->
  In (FileEntry n f) (category_listing w system cat).
Proof.
  unfold run_jobs. intros H. apply in_flat_map in H as [sys [_ H]].
  unfold system_jobs in H. destruct (classify w sys) as [| | |root]; try contradiction.
  apply in_flat_map in H as [plan [Hp H]]. unfold system_plans in Hp.
  apply in_map_iff in Hp as [game [<- _]]. rewrite plan_jobs_game in H.
  apply in_flat_map in H as [c [_ H]]. apply in_map_iff in H as [[n' f'] [E H]].
  cbn [fst snd] in E. injection E as <- <- <- <-.
  rewrite category_matches_selected in H.
  destruct (mem c mc); [|contradiction].
  now apply find_matches_reason in H.
Qed.

(** X19. Running the sync again copies nothing.  When the files of the
    master's category directories can be read and have distinct names
    within a directory, then after a real run has completed, every
    destination of a copy of the run holds a file of the size of its
    source; and any further run over the same systems and categories, real
    or preview, completes, reports every one of these files as skipped,
    none as copied, and leaves the media files of the device as they are. *)
Theorem second_run_copies_nothing
  (w : world) (systems mc : list str) (backup fuzzy report : bool)
  (s0 : RunStats) (e0 : effects) (s1 : RunStats) (e1 : effects) :
  (forall system cat n f,
     In (FileEntry n f) (category_listing w system cat) -> f_stat_ok f = true) ->
  (forall system cat n f f',
     In (FileEntry n f) (category_listing w system cat) ->
     In (FileEntry n f') (category_listing w system cat) -> f = f') ->
  sync_systems w systems mc false backup fuzzy report s0 e0 = Ok (s1, e1) ->
  settled (sd_media (fs e1)) (run_jobs w mc fuzzy systems)
  /\ forall dry_run' backup' report' s,
       exists s2 e2,
         sync_systems w systems mc dry_run' backup' fuzzy report' s e1 = Ok (s2, e2)
         /\ sd_media (fs e2) = sd_media (fs e1)
         /\ media_files_copied s2 = media_files_copied s
         /\ media_files_skipped s2
            = media_files_skipped s + List.length (run_jobs w mc fuzzy systems).
Proof.
  intros Stat Uniq R.
  set (all := run_jobs w mc fuzzy systems).
  assert (Stat' : forall k s, In (k, s) all -> f_stat_ok s = true).
  { intros [[system cat] n] s H. apply run_jobs_sources in H. now apply Stat in H. }
  assert (Size : forall k s s', In (k, s) all -> In (k, s') all ->
                                List.length (f_data s) = List.length (f_data s')).
  { intros [[system cat] n] s s' H H'. apply run_jobs_sources in H, H'.
    now rewrite (Uniq _ _ _ _ _ H H'). }
  assert (Settled : settled (sd_media (fs e1)) all).
  { pose proof (run_inv false (fun j => In j all)
                  (fun d (_ : RunStats) m => incl d all /\ settled m d)) as L.
    cbv beta in L.
    apply (L (fun d st e path k s r e' P H C =>
                copy_file_settles all d st e path k s r e' Stat' Size P H C)
             (fun d st m c n _ _ H => H)
             w mc backup fuzzy report systems [] s0 e0 s1 e1).
    - apply Forall_forall. intros j Hj. exact Hj.
    - split; [intros j []|intros k s []].
    - exact R. }
  split; [exact Settled|].
  intros dry_run' backup' report' s.
  pose proof (run_decisions w mc false backup fuzzy report systems s0 e0) as D1.
  destruct (run_raises w systems) eqn:Rr; [rewrite D1 in R; discriminate|].
  pose proof (run_decisions w mc dry_run' backup' fuzzy report' systems s e1) as D2.
  rewrite Rr in D2. destruct D2 as [s2 [e2 [R2 _]]].
  exists s2, e2. split; [exact R2|].
  pose proof (run_inv dry_run'
                (fun j => exists d, media_get (fst j) (sd_media (fs e1)) = Some d
                                    /\ same_size d (snd j) = true)
                (fun d st m => m = sd_media (fs e1)
                               /\ media_files_copied st = media_files_copied s
                               /\ media_files_skipped st
                                  = media_files_skipped s + List.length d)) as L.
  cbv beta in L.
  assert (Q : sd_media (fs e2) = sd_media (fs e1)
              /\ media_files_copied s2 = media_files_copied s
              /\ media_files_skipped s2
                 = media_files_skipped s + List.length ([] ++ all)).
  { apply (fun H1 H2 => L H1 H2 w mc backup' fuzzy report' systems [] s e1 s2 e2).
    - intros d st e path k f r e' P [M [C K]] Cp. cbn [fst snd] in P.
      rewrite <- M in P. destruct (copy_file_settled _ _ _ _ _ _ _ P Cp) as [-> M'].
      rewrite M', M. split; [reflexivity|]. rewrite length_app. simpl.
      split; lia.
    - intros d st m c n N1 N2 [M [C K]].
      destruct (copied_add_to c n st N1 N2) as [E1 E2]. rewrite E1, E2. auto.
    - apply Forall_forall. intros [k f] Hj. cbn [fst snd]. now apply Settled.
    - cbn [List.length]. split; [reflexivity|]. split; lia.
    - exact R2. }
  exact Q.
Qed.

Lemma demo_media_listing (system cat : str) (e : entry) :
  In e (category_listing demo_world system cat) ->
  e = FileEntry (lit "Celeste.png") (demo_file "celeste-cover")
  \/ e = FileEntry (lit "Zelda.png") (demo_file "zelda-cover")
  \/ e = FileEntry (lit "Zelda (Rev 1).png") (demo_file "zelda-rev1").
Proof.
  unfold category_listing, demo_world. cbn [nas_media_dir].
  destruct (str_eqb system (lit "switch") && str_eqb cat (lit "covers")).
  { intros [<-|[<-|[]]]; auto. }
  destruct (str_eqb system (lit "switch") && str_eqb cat (lit "videos")).
  { intros []. }
  destruct (str_eqb system (lit "snes") && str_eqb cat (lit "covers")).
  { intros [<-|[]]; auto. }
  intros [].
Qed.

Lemma demo_media_readable (system cat n : str) (f : file) :
  In (FileEntry n f) (category_listing demo_world system cat) -> f_stat_ok f = true.
Proof.
  intros H. apply demo_media_listing in H as [H|[H|H]];
    injection H as Hn Hf; rewrite Hf; reflexivity.
Qed.

Lemma demo_media_names_unique (system cat n : str) (f f' : file) :
  In (FileEntry n f) (category_listing demo_world system cat) ->
  In (FileEntry n f') (category_listing demo_world system cat) -> f = f'.
Proof.
  intros H H'.
  apply demo_media_listing in H as [H|[H|H]];
    apply demo_media_listing in H' as [H'|[H'|H']];
    injection H as Hn Hf; injection H' as Hn' Hf'; rewrite Hf, Hf';
    try reflexivity; exfalso; rewrite Hn in Hn'; vm_compute in Hn'; discriminate Hn'.
Qed.

(** A real run over [switch], then the same run again. *)
Lemma second_run_copies_nothing_witness :
  exists s1 e1 s2 e2,
    sync_systems demo_world [lit "switch"] [lit "covers"] false false false true
      (RunStats_init 1) empty_device = Ok (s1, e1)
    /\ sync_systems demo_world [lit "switch"] [lit "covers"] false false false true
         (RunStats_init 1) e1 = Ok (s2, e2)
    /\ media_files_copied s2 = 0
    /\ media_files_skipped s2
       = List.length (run_jobs demo_world [lit "covers"] false [lit "switch"])
    /\ sd_media (fs e2) = sd_media (fs e1).
Proof.
  destruct (sync_systems demo_world [lit "switch"] [lit "covers"] false false false true
              (RunStats_init 1) empty_device) as [[s1 e1]|x] eqn:R;
    [|vm_compute in R; discriminate R].
  destruct (second_run_copies_nothing demo_world [lit "switch"] [lit "covers"]
              false false true (RunStats_init 1) empty_device s1 e1
              demo_media_readable demo_media_names_unique R) as [_ Again].
  destruct (Again false false true (RunStats_init 1)) as [s2 [e2 [R2 [M [C K]]]]].
  exists s1, e1, s2, e2. split; [reflexivity|]. split; [exact R2|].
  split; [exact C|]. split; [exact K|exact M].
Defined.
